(** * Internal migration from geotagged posts: place-name resolution,
      monthly home location and month-to-month migration flows.

    A shallow embedding of the notebook [internal_migration.ipynb]:
    the lookup table and the functions [match] and [change_place_name],
    the Bing geocoding loop, [IOU] and its pass over the place table, the
    merge of a month's posts with the place table, [user_localization]
    with the monthly user-home table, and [migration].

    Conventions.
    - A Python [set] of names is a [gset string]; where the notebook
      iterates over it, the order is that of [elements] (Python leaves it
      open).
    - A Python [dict] is an insertion-ordered association list with unique
      keys (module [PyDict]): the notebook iterates over [ward_dict] and the
      last write to a key wins, so order matters.
    - A pandas column that holds either a string or NaN is an
      [option string], [None] being NaN.
    - Counts are natural numbers.  A finite double is taken as the rational
      number it is, and arithmetic on it is exact; the comments at
      [share_exceeds] and [float] say how this relates to the rounded
      operations.
    - A Python exception is a value of [exn] carried by [result].
    - The files read and the services called are parameters: the two lookup
      tables, the posts of a month, the user-home tables, the geocoding
      service and the geometry library. *)

From Stdlib Require Import ZArith QArith Qabs Qminmax Lia.
From stdpp Require Import base list strings sorting gmap pretty.

#[local] Set Warnings "-clear-no-such-hyp".

Open Scope string_scope.
Open Scope list_scope.
Open Scope nat_scope.

(** ** Strings: [str.split] and [re.split] *)

(** [first_match seps s] is the first alternative of [seps] that matches at
    the start of [s], as the regular expression [sep1|sep2|...] does. *)
Fixpoint first_match (seps : list string) (s : string) : option string :=
  match seps with
  | [] => None
  | sep :: seps' =>
      if String.prefix sep s then Some sep else first_match seps' s
  end.

(** Left-to-right scan that cuts [s] at the non-overlapping matches of one of
    the (non-empty) separators.  [skip] counts the characters of the current
    match still to be passed over, [cur] is the current piece, reversed. *)
Fixpoint split_from (seps : list string) (skip : nat) (cur : string)
    (s : string) : list string :=
  match s with
  | EmptyString => [String.rev cur]
  | String c s' =>
      match skip with
      | S k => split_from seps k cur s'
      | O =>
          match first_match seps s with
          | Some sep =>
              String.rev cur
                :: split_from seps (String.length sep - 1) EmptyString s'
          | None => split_from seps 0 (String c cur) s'
          end
      end
  end.

(** [loc.split(sep)] *)
Definition str_split (sep : string) (s : string) : list string :=
  split_from [sep] 0 EmptyString s.

(** [re.split(' and |, ', loc)] *)
Definition re_split_and_comma (s : string) : list string :=
  split_from [" and "; ", "] 0 EmptyString s.

(** [sep] occurs in [s]. *)
Definition contains (sep s : string) : Prop :=
  ∃ a b, s = a +:+ sep +:+ b.

(** ** Python dictionaries *)

Module PyDict.

Abbreviation t := (list (string * string)).

(** [d.get(k)]; [k in d] is [is_Some (get k d)]. *)
Fixpoint get (k : string) (d : t) : option string :=
  match d with
  | [] => None
  | (k', v) :: d' => if decide (k' = k) then Some v else get k d'
  end.

(** [d[k] = v]: an existing key keeps its place, a new key goes last. *)
Fixpoint set (k v : string) (d : t) : t :=
  match d with
  | [] => [(k, v)]
  | (k', v') :: d' =>
      if decide (k' = k) then (k', v) :: d' else (k', v') :: set k v d'
  end.

(** [d.update(e)] *)
Definition update (d e : t) : t :=
  foldl (fun acc kv => set kv.1 kv.2 acc) d e.

(** [del d[k]] *)
Definition del (k : string) (d : t) : t :=
  filter (fun kv => kv.1 ≠ k) d.

Definition keys (d : t) : list string := d.*1.

(** [pd.Series.to_dict()] of a two-column table: rows are entered in
    order, a repeated index label keeps its first place and takes the last
    value. *)
Definition of_rows (rows : list (string * string)) : t := update [] rows.

End PyDict.

(** ** Lookup table *)

(** The unofficial place names written in the notebook. *)
Definition manual_lookup_dict : PyDict.t :=
  [ ("Bristol", "Bristol, City of");
    ("Dundee", "Dundee City");
    ("Edinburgh", "City of Edinburgh");
    ("Glasgow", "Glasgow City");
    ("Kingston upon Hull", "Kingston upon Hull, City of");
    ("Herefordshire", "Herefordshire, County of");
    ("North East", "North East (England)");
    ("North West", "North West (England)");
    ("South East", "South East (England)");
    ("South West", "South West (England)");
    ("East Midlands", "East Midlands (England)");
    ("Saint Helier", "Jersey");
    ("Sale", "Trafford");
    ("Huddersfield", "Kirklees");
    ("West Bromwich", "Sandwell");
    ("Ashton-under-Lyne", "Tameside") ].

(** A row of [LAD21_LAU121_ITL321_ITL221_ITL121_UK_LU.csv]. *)
Record lookup_row := {
  LAD21NM : string;
  LAU121NM : string;
  ITL321NM : string;
  ITL221NM : string;
  ITL121NM : string
}.

#[global] Instance lookup_row_eq_dec : EqDecision lookup_row.
Proof. solve_decision. Defined.

(** The guard of both splitting loops:
    [len(loc.split(' and ')) >= 2 and len(re.split(' and |, ', loc)) >= 2]. *)
Definition split_guard (loc : string) : bool :=
  (2 <=? length (str_split " and " loc))%nat
  && (2 <=? length (re_split_and_comma loc))%nat.

(** One pass of a splitting loop over [(loc, target)] pairs, [target] being
    [loc] itself for district names and [ward_dict[loc]] for ward names:
    every piece of [re.split(' and |, ', loc)] is written with [target]. *)
Definition split_step (d : PyDict.t) (e : string * string) : PyDict.t :=
  if split_guard e.1
  then foldl (fun d' piece => PyDict.set piece e.2 d') d
         (re_split_and_comma e.1)
  else d.

Definition split_dict (entries : list (string * string)) : PyDict.t :=
  foldl split_step [] entries.

Section LookupTable.

(** [lookup_df] and the rows [(WD21NM, LAD21NM)] of
    [WD21_LAD21_UK_LU_provisional.csv]. *)
Variable lookup_df : list lookup_row.
Variable ward_df : list (string * string).

Definition LAD_set : gset string := list_to_set (LAD21NM <$> lookup_df).

(** The notebook's cell assigns [larger_than_LAD_set] three lines before
    [LAD_set], which it subtracts; the order here is the one in which the
    two assignments can run. *)
Definition larger_than_LAD_set : gset string :=
  (list_to_set (LAU121NM <$> lookup_df)
     ∪ list_to_set (ITL321NM <$> lookup_df)
     ∪ list_to_set (ITL221NM <$> lookup_df)
     ∪ list_to_set (ITL121NM <$> lookup_df)) ∖ LAD_set.

Definition LAD_split_dict : PyDict.t :=
  split_dict ((fun loc => (loc, loc)) <$> elements LAD_set).

Definition ward_dict : PyDict.t := PyDict.of_rows ward_df.

(** [for loc in ward_dict: ... ward_dict[loc]] runs over the items of
    [ward_dict]. *)
Definition ward_split_dict : PyDict.t := split_dict ward_dict.

(** The table after the three [update] calls, before duplicates are
    deleted. *)
Definition merged_lookup_dict : PyDict.t :=
  PyDict.update
    (PyDict.update (PyDict.update manual_lookup_dict LAD_split_dict)
       ward_dict)
    ward_split_dict.

(** [for i in lookup_dict.copy(): if i in LAD_set or i in
    larger_than_LAD_set: del lookup_dict[i]] *)
Definition delete_duplicates (d : PyDict.t) : PyDict.t :=
  let lads := LAD_set in
  let larger := larger_than_LAD_set in
  foldl
    (fun acc i =>
       if decide (i ∈ lads ∨ i ∈ larger) then PyDict.del i acc else acc)
    d (PyDict.keys d).

Definition lookup_dict : PyDict.t := delete_duplicates merged_lookup_dict.

(** [n] is a name of the hierarchy, at the district level or above. *)
Definition canonical_name (n : string) : Prop :=
  ∃ row, row ∈ lookup_df
         ∧ (n = LAD21NM row ∨ n = LAU121NM row ∨ n = ITL321NM row
            ∨ n = ITL221NM row ∨ n = ITL121NM row).

(** [n] is a name of the hierarchy above the district level: it occurs in
    one of the four columns from which [larger_than_LAD_set] is made. *)
Definition coarser_name (n : string) : Prop :=
  ∃ row, row ∈ lookup_df
         ∧ (n = LAU121NM row ∨ n = ITL321NM row ∨ n = ITL221NM row
            ∨ n = ITL121NM row).

(** An entry whose value is the manual alias of its key, or a district
    name. *)
Definition alias_value (kv : string * string) : Prop :=
  PyDict.get kv.1 manual_lookup_dict = Some kv.2 ∨ kv.2 ∈ LAD_set.

(** [match(location)].  The recursion follows alias targets; [depth] is
    the number of nested calls the interpreter still allows, and [None] is
    the [RecursionError] raised when they are used up. *)
Fixpoint match_ (depth : nat) (location : string) : option nat :=
  if decide (location ∈ LAD_set) then Some 1
  else if decide (location ∈ larger_than_LAD_set) then Some 2
  else
    match PyDict.get location lookup_dict with
    | Some target =>
        match depth with
        | O => None
        | S depth' => match_ depth' target
        end
    | None => Some 0
    end.

(** [change_place_name(place)] *)
Definition change_place_name (depth : nat) (place : string)
    : option string :=
  match PyDict.get place lookup_dict with
  | Some target => Some target
  | None =>
      match match_ depth place with
      | Some level => Some (if (0 <? level)%nat then place else "")
      | None => None
      end
  end.

End LookupTable.

(** ** Exceptions and floats *)

Inductive exn : Type :=
  | ConnectionError   (* raised by [requests.get] *)
  | KeyError
  | IndexError
  | ValueError
  | RecursionError.

Definition result (A : Type) : Type := exn + A.

Definition ret {A} (a : A) : result A := inr a.
Definition raise {A} (e : exn) : result A := inl e.
Definition bind {A B} (m : result A) (k : A → result B) : result B :=
  match m with
  | inl e => inl e
  | inr a => k a
  end.

Notation "'do' x <- m ; k" := (bind m (fun x => k))
  (at level 10, x name, m at level 100, k at level 200, only parsing).

(** [match] inside a larger computation: running out of depth raises. *)
Definition or_recursion_error {A} (o : option A) : result A :=
  match o with
  | Some a => ret a
  | None => raise RecursionError
  end.

(** A float cell: NaN, an infinity, or a finite number.  A finite double is
    a rational number and the operations below are exact on it: the rounding
    of [y2 - y1] and of the quotient of two areas is left out, which can
    change a comparison only for a value within a rounding error (about
    1e-16) of the threshold. *)
Inductive float : Type :=
  | NaN
  | Inf (negative : bool)
  | Num (q : Q).

Definition isnan (x : float) : bool :=
  match x with NaN => true | _ => false end.

(** [a - b]; only finite cells and NaN reach [IOU]. *)
Definition fsub (a b : float) : float :=
  match a, b with
  | Num p, Num q => Num (p - q)
  | Inf s, Num _ => Inf s
  | Num _, Inf s => Inf (negb s)
  | Inf s, Inf s' => if Bool.eqb s s' then NaN else Inf s
  | _, _ => NaN
  end.

(** [a / b] of two finite numbers, as numpy divides: a zero divisor gives an
    infinity, or NaN for [0 / 0]. *)
Definition fdiv (a b : Q) : float :=
  if Qeq_bool b 0 then
    if Qeq_bool a 0 then NaN else Inf (negb (Qle_bool 0 a))
  else Num (a / b).

Definition Qlt_bool (p q : Q) : bool := negb (Qle_bool q p).

(** [x > t] for a finite threshold [t]: false on NaN. *)
Definition fgt (x : float) (t : Q) : bool :=
  match x with
  | NaN => false
  | Inf negative => negb negative
  | Num q => Qlt_bool t q
  end.

(** [a < b] on cells that are not NaN. *)
Definition flt (a b : float) : bool :=
  match a, b with
  | Num p, Num q => Qlt_bool p q
  | Inf true, Inf true => false
  | Inf true, _ => true
  | Num _, Inf false => true
  | _, _ => false
  end.

(** ** Bing Maps geocoding *)

(** A row of the place table: the raw place string (first column), the
    locality found so far and the four bounding-box cells. *)
Record place_row := {
  location : string;
  locality : string;
  bbox0 : float;
  bbox1 : float;
  bbox2 : float;
  bbox3 : float
}.

(** The parts of the service's JSON answer that the loop reads:
    [resourceSets[0]['estimatedTotal']] and, in
    [resourceSets[0]['resources']], each resource's [address] (with its
    optional keys [locality] and [formattedAddress]) and [bbox]. *)
Record address := {
  addr_locality : option string;
  addr_formattedAddress : option string
}.

Record resource := {
  res_address : address;
  res_bbox : list Q
}.

Record response := {
  status_code : Z;
  estimatedTotal : Z;
  resources : list resource
}.

Definition API_key : string := "".

Definition request_url (place : string) : string :=
  "http://dev.virtualearth.net/REST/v1/Locations?q=" +:+ place
    +:+ "%20UK&o=json&key=" +:+ API_key.

Section Geocoding.

Variable lookup_df : list lookup_row.
Variable ward_df : list (string * string).
(** Nested calls left to [match]. *)
Variable depth : nat.
(** [special_loc_dict] is used by the loop and defined nowhere in the
    notebook: it is a parameter. *)
Variable special_loc_dict : PyDict.t.
(** [requests.get(URL)]: an answer, or an exception of the HTTP client. *)
Variable requests_get : string → result response.

Definition match_r (loc : string) : result nat :=
  or_recursion_error (match_ lookup_df ward_df depth loc).

(** [df['locality'] = df['location'].apply(change_place_name)] on a table
    that only has its [location] column. *)
Definition initial_row (place : string) : result place_row :=
  do loc <- or_recursion_error (change_place_name lookup_df ward_df depth place) ;
  ret {| location := place; locality := loc;
         bbox0 := NaN; bbox1 := NaN; bbox2 := NaN; bbox3 := NaN |}.

(** [for j in range(address_num, len(parts)): locality = parts[j];
    if match(locality) > 0: break], over the parts from [address_num] on;
    the last part read stays in [locality]. *)
Fixpoint scan_address (parts : list string) (loc : string) : result string :=
  match parts with
  | [] => ret loc
  | part :: parts' =>
      do m <- match_r part ;
      if (0 <? m)%nat then ret part else scan_address parts' part
  end.

(** [address['formattedAddress'].split(', ')] *)
Definition formatted_parts (a : address) : result (list string) :=
  match addr_formattedAddress a with
  | Some f => ret (str_split ", " f)
  | None => raise KeyError
  end.

(** The body of the loop for a record that gets a 200 answer with at least
    one estimated result. *)
Definition resolve_answer (r : place_row) (resp : response)
    : result place_row :=
  match resources resp with
  | [] => raise IndexError
  | res :: _ =>
      let a := res_address res in
      do first <-
        match addr_locality a with
        | Some l => ret (l, 0)
        | None =>
            do parts <- formatted_parts a;
            ret (default "" (head parts), 1)
        end;
      do m <- match_r first.1;
      do loc <-
        (if (m =? 0)%nat then
           do parts <- formatted_parts a;
           scan_address (drop first.2 parts) first.1
         else ret first.1);
      do m' <- match_r loc;
      do r' <-
        (if negb (m' =? 1)%nat then
           match res_bbox res with
           | [b0; b1; b2; b3] =>
               ret {| location := location r; locality := locality r;
                      bbox0 := Num b0; bbox1 := Num b1;
                      bbox2 := Num b2; bbox3 := Num b3 |}
           | _ => raise ValueError
           end
         else ret r);
      ret {| location := location r';
             locality := default loc (PyDict.get loc special_loc_dict);
             bbox0 := bbox0 r'; bbox1 := bbox1 r';
             bbox2 := bbox2 r'; bbox3 := bbox3 r' |}
  end.

(** One iteration of the geocoding loop: the URLs requested, and the row
    afterwards or the exception that leaves the loop. *)
Definition geocode_row (r : place_row) : list string * result place_row :=
  if negb (String.eqb (locality r) "") then ([], ret r)
  else
    let URL := request_url (location r) in
    ([URL],
     do resp <- requests_get URL ;
     if (status_code resp =? 200)%Z then
       if (estimatedTotal resp =? 0)%Z then ret r
       else resolve_answer r resp
     else ret r).

(** [for i in tqdm(range(df.shape[0])): ...]: rows in order; an exception
    ends the loop there. *)
Fixpoint geocoding_loop (df : list place_row)
    : list string * result (list place_row) :=
  match df with
  | [] => ([], ret [])
  | r :: df' =>
      match geocode_row r with
      | (urls, inl e) => (urls, raise e)
      | (urls, inr r') =>
          let rest := geocoding_loop df' in
          (urls ++ rest.1, do df'' <- rest.2; ret (r' :: df''))
      end
  end.

End Geocoding.

(** ** Bounding-box intersection *)

(** [geometry.box(x1, y1, x2, y2)] *)
Record box := { minx : Q; miny : Q; maxx : Q; maxy : Q }.

(** A box needs four finite bounds: with a NaN bound its area is NaN, so
    that no ratio can compare above the threshold, or the geometry library
    raises; [IOU] returns [''] in both cases. *)
Definition geometry_box (x1 y1 x2 y2 : float) : option box :=
  match x1, y1, x2, y2 with
  | Num a, Num b, Num c, Num d =>
      Some {| minx := a; miny := b; maxx := c; maxy := d |}
  | _, _, _, _ => None
  end.

(** [poly2.area] *)
Definition box_area (b : box) : Q :=
  Qabs (maxx b - minx b) * Qabs (maxy b - miny b).

(** [Series.max()]: NaN cells are skipped, NaN when nothing is left. *)
Definition max_step (acc : float) (cell : nat * float) : float :=
  if isnan cell.2 then acc
  else if isnan acc then cell.2
  else if flt acc cell.2 then cell.2 else acc.

Definition series_max (s : list (nat * float)) : float :=
  foldl max_step NaN s.

(** [Series.idxmax()]: the label of the first cell that holds the maximum. *)
Definition series_idxmax (s : list (nat * float)) : option nat :=
  let m := series_max s in
  fst <$> head (filter (fun cell =>
                  negb (isnan cell.2) && negb (flt cell.2 m)) s).

Section SpatialMatcher.

(** The geometry library is a parameter: a type of shapes with the two
    operations [IOU] uses, [shape.intersects(box)] and
    [shape.intersection(box).area]. *)
Variable geom : Type.
Variable intersects : geom → box → bool.
Variable intersection_area : geom → box → Q.

(** The GeoDataFrame [LAD]: rows [(LAD21NM, geometry)], labelled
    [0, 1, ...]. *)
Variable LAD : list (string * geom).

(** A cell of [IOU_se]: [shape.intersection(poly2).area / poly2.area]. *)
Definition overlap_ratio (g : geom) (poly2 : box) : float :=
  fdiv (intersection_area g poly2) (box_area poly2).

(** [IOU(se)].  The [try] covers the body: a row with fewer than four
    cells (an [IndexError]) gives ['']. *)
Definition IOU (se : list float) : string :=
  match se with
  | y1 :: x1 :: y2 :: x2 :: _ =>
      if isnan y1 || fgt (fsub y2 y1) 2 then ""
      else
        match geometry_box x1 y1 x2 y2 with
        | None => ""
        | Some poly2 =>
            let temp_df :=
              filter (fun row => intersects row.2.2 poly2 = true)
                (imap (fun i row => (i, row)) LAD) in
            let IOU_se :=
              (fun row => (row.1, overlap_ratio row.2.2 poly2))
                <$> temp_df in
            if fgt (series_max IOU_se) (6 # 10) then
              match series_idxmax IOU_se with
              | Some i => default "" (fst <$> LAD !! i)
              | None => ""
              end
            else ""
        end
  | _ => ""
  end.

(** The cells of [IOU_se] for rows [l] of [LAD] that start at label
    [k]. *)
Definition ratio_cells (poly2 : box) (k : nat) (l : list (string * geom))
    : list (nat * float) :=
  (fun row : nat * (string * geom) => (row.1, overlap_ratio row.2.2 poly2))
    <$> filter (fun row : nat * (string * geom) =>
                  intersects row.2.2 poly2 = true)
          (imap (fun i row => (k + i, row)) l).

End SpatialMatcher.

(** ** pandas helpers *)

(** [DataFrame.drop_duplicates()]: the first occurrence of each row is
    kept, in order. *)
Definition drop_duplicates `{EqDecision A} (l : list A) : list A :=
  reverse (remove_dups (reverse l)).

Definition occurrences `{EqDecision A} (x : A) (l : list A) : nat :=
  length (filter (fun y => y = x) l).

(** Descending order on the count column. *)
Definition count_ge {A} (a b : A * nat) : Prop := b.2 ≤ a.2.

#[global] Instance count_ge_dec {A} (a b : A * nat) : Decision (count_ge a b).
Proof. unfold count_ge. apply _. Defined.

(** [value_counts()]: each distinct value with the number of times it
    occurs, sorted by descending count.  pandas leaves the order of equal
    counts open; here it is the one the merge sort gives. *)
Definition value_counts `{EqDecision A} (l : list A) : list (A * nat) :=
  merge_sort count_ge ((fun x => (x, occurrences x l)) <$> drop_duplicates l).

(** [left.merge(right, how='left', on='userid')]: every left row, in order,
    paired with each right row of the same key, or with nothing (NaN cells)
    when no right row has it. *)
Definition merge_left {A B} (key_l : A → Z) (key_r : B → Z)
    (left : list A) (right : list B) : list (A * option B) :=
  a ← left;
  match filter (fun b => key_r b = key_l a) right with
  | [] => [(a, None)]
  | bs => (fun b => (a, Some b)) <$> bs
  end.

(** ** User localization *)

(** A row of the monthly user table: [userid], [counts], [home]. *)
Record user_row := {
  userid : Z;
  counts : nat;
  home : option string
}.

#[global] Instance user_row_eq_dec : EqDecision user_row.
Proof. solve_decision. Defined.

Definition with_home (r : user_row) (h : option string) : user_row :=
  {| userid := userid r; counts := counts r; home := h |}.

(** [temp_df.counts.max() / temp_df.counts.sum() > 0.65].  Both counts are
    integers converted to doubles and divided with correct rounding; [0.65]
    is the double nearest to 13/20.  The quotient of 13k by 20k rounds to
    that same double, a smaller quotient cannot round above it, and a larger
    one exceeds 13/20 by at least 1/(20 * sum), far more than the rounding
    error for any number of posts below 10^14: the comparison is the one
    between the exact fractions. *)
Definition share_exceeds (mx sm : nat) (threshold : Q) : bool :=
  Qlt_bool threshold (inject_Z (Z.of_nat mx) / inject_Z (Z.of_nat sm)).

(** [user_localization(userid)] over [twitter_LAD_count_df], whose rows are
    [((userid, locality), counts)].  [iloc[0]] is read only when the counts
    add up to more than 1, so that [temp_df] has a first row. *)
Definition user_localization (twitter_LAD_count_df : list ((Z * string) * nat))
    (uid : Z) : string :=
  let temp_df := filter (fun r => r.1.1 = uid) twitter_LAD_count_df in
  let total := sum_list (snd <$> temp_df) in
  if (1 <? total)%nat
     && share_exceeds (max_list (snd <$> temp_df)) total (65 # 100)
  then default "" ((fun r => r.1.2) <$> head temp_df)
  else "".

(** The loop [for i in range(endline)]: a row whose [home] is a string is
    left alone, another gets [user_localization] of its user.  The table
    has labels [0, 1, ...] after the merge and [endline] is at most its
    length, so that [user_LAD.loc[i, 'home']] always finds its row. *)
Definition threshold_loop (twitter_LAD_count_df : list ((Z * string) * nat))
    (endline : nat) (user_LAD : list user_row) : list user_row :=
  foldl
    (fun df i =>
       match df !! i with
       | Some r =>
           match home r with
           | Some _ => df
           | None =>
               <[i := with_home r
                        (Some (user_localization twitter_LAD_count_df
                                 (userid r)))]> df
           end
       | None => df
       end)
    user_LAD (seq 0 endline).

Section UserHome.

(** [twitter_LAD]: the month's posts that have a locality, as rows
    [(userid, locality)]. *)
Variable twitter_LAD : list (Z * string).

(** [user_LAD] after [user_LAD = user_LAD[user_LAD.counts > 1]] *)
Definition user_LAD_counts : list (Z * nat) :=
  filter (fun r => 1 < r.2) (value_counts (fst <$> twitter_LAD)).

Definition twitter_LAD_count_df : list ((Z * string) * nat) :=
  value_counts twitter_LAD.

Definition user_loc_pair : list (Z * string) := drop_duplicates twitter_LAD.

Definition user_loc_count : list (Z * nat) :=
  value_counts (fst <$> user_loc_pair).

(** [user_oneloc] with its columns [userid] and [home]. *)
Definition user_oneloc : list (Z * option string) :=
  (fun m : (Z * nat) * option (Z * string) => (m.1.1, snd <$> m.2))
    <$> merge_left fst fst
          (filter (fun r => r.2 = 1) user_loc_count) user_loc_pair.

(** [user_LAD.merge(user_oneloc, how='left', on='userid')] *)
Definition user_LAD_merged : list user_row :=
  (fun m : (Z * nat) * option (Z * option string) =>
     {| userid := m.1.1; counts := m.1.2; home := m.2 ≫= snd |})
    <$> merge_left fst fst user_LAD_counts user_oneloc.

Definition endline : nat :=
  length user_LAD_merged
  - length (filter (fun r => counts r = 2) user_LAD_merged).

(** The table written to the month's [-userhome.csv]. *)
Definition user_home : list user_row :=
  threshold_loop twitter_LAD_count_df endline user_LAD_merged.

(** The same with the threshold loop run over every row of the table. *)
Definition user_home_every_row : list user_row :=
  threshold_loop twitter_LAD_count_df (length user_LAD_merged)
    user_LAD_merged.

(** And with [user_localization] applied to every user of the table,
    whatever the one-locality merge gave. *)
Definition user_home_every_user : list user_row :=
  (fun r => with_home r
              (Some (user_localization twitter_LAD_count_df (userid r))))
    <$> user_LAD_merged.

End UserHome.

(** *** Row by row

    What the loop does to one row, and what the two merges give for one
    user; the properties below relate them to the tables above. *)

Definition localize (count_df : list ((Z * string) * nat)) (r : user_row)
    : user_row :=
  match home r with
  | Some _ => r
  | None => with_home r (Some (user_localization count_df (userid r)))
  end.

(** The locality of a user all of whose posts are in one locality. *)
Definition oneloc_home (twitter_LAD : list (Z * string)) (uid : Z)
    : option string :=
  match filter (fun b => b.1 = uid) (user_loc_pair twitter_LAD) with
  | [b] => Some b.2
  | _ => None
  end.

(** The rows of [temp_df] in [user_localization], and the distinct
    (user, locality) pairs of a user. *)
Definition temp_rows (twitter_LAD : list (Z * string)) (uid : Z)
    : list ((Z * string) * nat) :=
  filter (fun r => r.1.1 = uid) (twitter_LAD_count_df twitter_LAD).

Definition user_pairs (twitter_LAD : list (Z * string)) (uid : Z)
    : list (Z * string) :=
  filter (fun b => b.1 = uid) (user_loc_pair twitter_LAD).

Definition merged_row (twitter_LAD : list (Z * string)) (a : Z * nat)
    : user_row :=
  {| userid := a.1; counts := a.2; home := oneloc_home twitter_LAD a.1 |}.

Definition final_row (twitter_LAD : list (Z * string)) (r : user_row)
    : user_row :=
  if decide (counts r = 2) then r
  else localize (twitter_LAD_count_df twitter_LAD) r.

(** The number of posts of a user. *)
Definition posts_of (uid : Z) (twitter_LAD : list (Z * string)) : nat :=
  occurrences uid (fst <$> twitter_LAD).

(** [to_csv] writes a NaN cell as the empty field, as it writes [''], and
    [read_csv] reads the empty field as NaN. *)
Definition csv_home (h : option string) : string := default "" h.

Definition to_csv (df : list user_row) : list (Z * nat * string) :=
  (fun r => (userid r, counts r, csv_home (home r))) <$> df.

(** The home of user [uid] in a user-home table, when the table has a row
    for the user and its [home] is a string. *)
Definition home_of (df : list user_row) (uid : Z) : option string :=
  r ← head (filter (fun r => userid r = uid) df); home r.

(** ** Migration *)

Record flow_row := {
  origin_LAD : string;
  destination_LAD : string;
  flow : nat;
  month_start : string;
  month_end : string
}.

(** [s.zfill(width)] for a string of digits. *)
Definition zfill (width : nat) (s : string) : string :=
  String.concat "" (replicate (width - String.length s) "0") +:+ s.

(** [str(year) + '-' + str(month).zfill(2)] *)
Definition month_label (year month : nat) : string :=
  pretty year +:+ "-" +:+ zfill 2 (pretty month).

(** Lexicographic order on the group keys [(home_x, home_y)]. *)
Definition key_le (a b : string * string) : Prop :=
  match String.compare a.1 b.1 with
  | Lt => True
  | Eq => String.le a.2 b.2
  | Gt => False
  end.

#[global] Instance key_le_dec (a b : string * string) : Decision (key_le a b).
Proof. unfold key_le. destruct (String.compare a.1 b.1); apply _. Defined.

Section Migration.

(** [pd.read_csv] of the user-home file of a year and month. *)
Variable read_userhome : nat → nat → list user_row.

Definition merged_months (year1 month1 year2 month2 : nat)
    : list (user_row * option user_row) :=
  merge_left userid userid
    (read_userhome year1 month1) (read_userhome year2 month2).

Definition home_x (m : user_row * option user_row) : option string :=
  home m.1.
Definition home_y (m : user_row * option user_row) : option string :=
  m.2 ≫= home.

(** [migration_df], as its columns [(home_x, home_y)]. *)
Definition migration_df (year1 month1 year2 month2 : nat)
    : list (string * string) :=
  let df := merged_months year1 month1 year2 month2 in
  let df := filter (fun m => is_Some (home_x m) ∧ is_Some (home_y m)) df in
  let df := filter (fun m => home_x m ≠ home_y m) df in
  omap (fun m => x ← home_x m; y ← home_y m; Some (x, y)) df.

(** [migration(year1, month1, year2, month2)]: one row for each pair of
    homes in [migration_df], in the order of the pairs, with the number of
    its rows. *)
Definition migration (year1 month1 year2 month2 : nat) : list flow_row :=
  let mdf := migration_df year1 month1 year2 month2 in
  (fun k => {| origin_LAD := k.1; destination_LAD := k.2;
               flow := occurrences k mdf;
               month_start := month_label year1 month1;
               month_end := month_label year2 month2 |})
    <$> merge_sort key_le (drop_duplicates mdf).

End Migration.

(** The flow recorded from [o] to [d]. *)
Definition flow_between (o d : string) (flows : list flow_row) : nat :=
  sum_list (flow <$> filter (fun r => origin_LAD r = o ∧ destination_LAD r = d)
                       flows).

(** What one user adds to the flow from [o] to [d], given the two months'
    tables: one, when its homes are [o] and then [d] and these differ. *)
Definition contribution (df1 df2 : list user_row) (o d : string) (uid : Z)
    : nat :=
  if decide (home_of df1 uid = Some o ∧ home_of df2 uid = Some d ∧ o ≠ d)
  then 1 else 0.

(** ** The place table through the passes *)

(** [Series.apply(f)] for a function that can raise: the cells in order,
    the first exception ends it. *)
Fixpoint apply_r {A B} (f : A → result B) (l : list A) : result (list B) :=
  match l with
  | [] => ret []
  | x :: l' =>
      do y <- f x;
      do ys <- apply_r f l';
      ret (y :: ys)
  end.

Section AddressCandidate.

Variable lookup_df : list lookup_row.
Variable ward_df : list (string * string).
Variable depth : nat.

(** The locality that the geocoding loop reads from an address, before
    [special_loc_dict]: [address['locality']], or the first part of
    [formattedAddress] when the address has no such key; and, when [match]
    gives 0 for it, what the scan of the parts of [formattedAddress]
    leaves in [locality]. *)
Definition address_candidate (a : address) : result string :=
  do first <-
    match addr_locality a with
    | Some l => ret (l, 0)
    | None =>
        do parts <- formatted_parts a;
        ret (default "" (head parts), 1)
    end;
  do m <- match_r lookup_df ward_df depth first.1;
  if (m =? 0)%nat then
    do parts <- formatted_parts a;
    scan_address lookup_df ward_df depth (drop first.2 parts) first.1
  else ret first.1.

End AddressCandidate.

(** [df[['bbox0', 'bbox1', 'bbox2', 'bbox3']]], one row. *)
Definition bbox_cells (r : place_row) : list float :=
  [bbox0 r; bbox1 r; bbox2 r; bbox3 r].

Definition with_locality (r : place_row) (loc : string) : place_row :=
  {| location := location r; locality := loc;
     bbox0 := bbox0 r; bbox1 := bbox1 r; bbox2 := bbox2 r; bbox3 := bbox3 r |}.

Section PlaceTable.

Variable lookup_df : list lookup_row.
Variable ward_df : list (string * string).
Variable depth : nat.
Variable geom : Type.
Variable intersects : geom → box → bool.
Variable intersection_area : geom → box → Q.
Variable LAD : list (string * geom).

(** [df['locality'].apply(match)] *)
Definition locality_match (df : list place_row) : result (list nat) :=
  apply_r (match_r lookup_df ward_df depth) (locality <$> df).

(** [df[['bbox0', 'bbox1', 'bbox2', 'bbox3']].apply(IOU, axis=1)] *)
Definition locality_IOU (df : list place_row) : list string :=
  (fun r => IOU geom intersects intersection_area LAD (bbox_cells r)) <$> df.

(** [df.loc[df['locality_IOU_match'] == 1, 'locality'] =
     df.loc[df['locality_IOU_match'] == 1, 'locality_IOU']] *)
Definition IOU_update (df : list place_row) (IOU_col : list string)
    (IOU_match : list nat) : list place_row :=
  zip_with
    (fun r (c : string * nat) =>
       if (c.2 =? 1)%nat then with_locality r c.1 else r)
    df (zip IOU_col IOU_match).

(** The cell that runs [IOU] over the table: the rows afterwards, each
    with its [locality_match].  The table is one that has its four bbox
    columns: the geocoding loop makes them when it first stores a box, and
    without them the cell stops at its first line with a [KeyError]. *)
Definition IOU_pass (df : list place_row) : result (list (place_row * nat)) :=
  let IOU_col := locality_IOU df in
  do IOU_match <- apply_r (match_r lookup_df ward_df depth) IOU_col;
  let df' := IOU_update df IOU_col IOU_match in
  do matches <- locality_match df';
  ret (zip df' matches).

(** What the pass does to one row [r], [o] being the row afterwards with
    its [locality_match]. *)
Definition IOU_row (r : place_row) (o : place_row * nat) : Prop :=
  let name := IOU geom intersects intersection_area LAD (bbox_cells r) in
  ∃ m, match_r lookup_df ward_df depth name = inr m
       ∧ o.1 = (if (m =? 1)%nat then with_locality r name else r)
       ∧ match_r lookup_df ward_df depth (locality o.1) = inr o.2.

End PlaceTable.

(** ** The posts of a month with their locality *)

(** [left.merge(right, how='left', on=...)] for a key column of any
    type. *)
Definition merge_left_on {A B K} `{EqDecision K} (key_l : A → K)
    (key_r : B → K) (left : list A) (right : list B) : list (A * option B) :=
  a ← left;
  match filter (fun b => key_r b = key_l a) right with
  | [] => [(a, None)]
  | bs => (fun b => (a, Some b)) <$> bs
  end.

Section MonthlyPosts.

(** The table that the cell filters into [loc_LAD], as its rows
    [(location, locality, locality_match)].  A [location] or a [locality]
    read from a file can be NaN. *)
Variable place_LAD : list (option string * option string * nat).

(** [loc_LAD[loc_LAD.locality_match == 1]] and then
    [[['location', 'locality']]] *)
Definition loc_LAD : list (option string * option string) :=
  (fun r : option string * option string * nat => (r.1.1, r.1.2))
    <$> filter (fun r : option string * option string * nat => r.2 = 1)
          place_LAD.

(** The rows [(userid, location)] of the month's file. *)
Variable twitter_df : list (Z * option string).

(** [twitter_df.merge(loc_LAD, how='left', on='location')
     [['userid', 'locality']]], and then the rows whose [locality] is not
    NaN.  The merge pairs a NaN key with a NaN key, as it pairs equal
    strings. *)
Definition monthly_twitter_LAD : list (Z * string) :=
  omap
    (fun m : (Z * option string) * option (option string * option string) =>
       loc ← m.2 ≫= snd; Some (m.1.1, loc))
    (merge_left_on snd fst twitter_df loc_LAD).

End MonthlyPosts.

(** ** The files read back *)

Section UserHomeFiles.

(** [read_csv] gives NaN for a field that is one of pandas' NA markers:
    the empty field is one, which others are depends on the version of
    pandas. *)
Variable is_na : string → bool.

Definition read_home (cell : string) : option string :=
  if is_na cell then None else Some cell.

(** [pd.read_csv] of a file that [to_csv] wrote. *)
Definition read_csv (rows : list (Z * nat * string)) : list user_row :=
  (fun row : Z * nat * string =>
     {| userid := row.1.1; counts := row.1.2; home := read_home row.2 |})
    <$> rows.

(** The place table as the monthly cell reads it from the file that the
    cell of [IOU] wrote: [location], [locality] and [locality_match]. *)
Definition place_LAD_file (table : list (place_row * nat))
    : list (option string * option string * nat) :=
  (fun o : place_row * nat =>
     (read_home (location o.1), read_home (locality o.1), o.2)) <$> table.

(** The located posts of each month. *)
Variable located_posts : nat → nat → list (Z * string).

(** The file of a month, as the monthly cell writes it and [migration]
    reads it. *)
Definition userhome_file (year month : nat) : list user_row :=
  read_csv (to_csv (user_home (located_posts year month))).

End UserHomeFiles.

(** ** Example data *)

Definition hierarchy_row (lad lau itl3 itl2 itl1 : string) : lookup_row :=
  {| LAD21NM := lad; LAU121NM := lau; ITL321NM := itl3; ITL221NM := itl2;
     ITL121NM := itl1 |}.

Definition example_lookup_df : list lookup_row :=
  [ hierarchy_row "Bristol, City of" "Bristol, City of" "Bristol, City of"
      "Gloucestershire, Wiltshire and Bath/Bristol area"
      "South West (England)";
    hierarchy_row "Bournemouth, Christchurch and Poole"
      "Bournemouth, Christchurch and Poole"
      "Bournemouth, Christchurch and Poole" "Dorset and Somerset"
      "South West (England)";
    hierarchy_row "Herefordshire, County of" "Herefordshire, County of"
      "Herefordshire, County of"
      "Herefordshire, Worcestershire and Warwickshire"
      "West Midlands (England)";
    hierarchy_row "Dundee City" "Dundee City" "Angus and Dundee City"
      "Eastern Scotland" "Scotland" ].

Definition example_ward_df : list (string * string) :=
  [ ("Clifton Down", "Bristol, City of");
    ("Hengrove and Whitchurch Park", "Bristol, City of");
    ("Poole Town", "Bournemouth, Christchurch and Poole");
    ("Coldside", "Dundee City") ].

(** A ward table with a ward that has the name of a piece of a district
    name. *)
Definition overriding_ward_df : list (string * string) :=
  [ ("Poole", "Dorset") ].

(** A ward table whose district column is not made of district names. *)
Definition cyclic_ward_df : list (string * string) :=
  [ ("Northtown", "Southtown"); ("Southtown", "Northtown") ].

(** A record the lookup table does not resolve. *)
Definition unresolved_row (place : string) : place_row :=
  {| location := place; locality := "";
     bbox0 := NaN; bbox1 := NaN; bbox2 := NaN; bbox3 := NaN |}.

(** Three geocoding services: one that cannot be reached, one that finds
    nothing, and one whose address has neither [locality] nor
    [formattedAddress]. *)
Definition unreachable_service (URL : string) : result response :=
  raise ConnectionError.

Definition empty_service (URL : string) : result response :=
  ret {| status_code := 200; estimatedTotal := 0; resources := [] |}.

Definition malformed_service (URL : string) : result response :=
  ret {| status_code := 200; estimatedTotal := 1;
         resources :=
           [ {| res_address := {| addr_locality := None;
                                  addr_formattedAddress := None |};
                res_bbox := [50; -3; 51; -2]%Q |} ] |}.

(** A geometry of axis-parallel rectangles. *)
Definition rect_intersects (g b : box) : bool :=
  Qle_bool (minx g) (maxx b) && Qle_bool (minx b) (maxx g)
  && Qle_bool (miny g) (maxy b) && Qle_bool (miny b) (maxy g).

Definition rect_intersection_area (g b : box) : Q :=
  Qmax 0 (Qmin (maxx g) (maxx b) - Qmax (minx g) (minx b))
  * Qmax 0 (Qmin (maxy g) (maxy b) - Qmax (miny g) (miny b)).

Definition rect (x1 y1 x2 y2 : Q) : box :=
  {| minx := x1; miny := y1; maxx := x2; maxy := y2 |}.

(** Three districts side by side. *)
Definition example_LAD : list (string * box) :=
  [ ("Westshire", rect 0 0 10 10);
    ("Midshire", rect 10 0 20 10);
    ("Eastshire", rect 20 0 30 10) ].

(** A month of posts: user 1 has seven posts in one locality and three in
    another, user 2 six and four, user 3 two posts in one locality, user 4
    a single post, user 5 one post in each of two localities. *)
Definition example_posts : list (Z * string) :=
  replicate 7 (1%Z, "Bristol, City of") ++ replicate 3 (1%Z, "Dundee City")
  ++ replicate 6 (2%Z, "Bristol, City of") ++ replicate 4 (2%Z, "Dundee City")
  ++ replicate 2 (3%Z, "Dundee City")
  ++ [(4%Z, "Bristol, City of")]
  ++ [(5%Z, "Bristol, City of"); (5%Z, "Dundee City")].

(** Two months of user-home tables. *)
Definition example_userhome (year month : nat) : list user_row :=
  if (year =? 2019) then
    [ {| userid := 1; counts := 10; home := Some "Bristol, City of" |};
      {| userid := 2; counts := 10; home := None |};
      {| userid := 3; counts := 2; home := Some "Dundee City" |};
      {| userid := 6; counts := 4; home := Some "Glasgow City" |} ]
  else
    [ {| userid := 1; counts := 8; home := Some "Dundee City" |};
      {| userid := 2; counts := 5; home := Some "Dundee City" |};
      {| userid := 3; counts := 3; home := Some "Dundee City" |};
      {| userid := 7; counts := 3; home := Some "Glasgow City" |} ].

(** An answer of the service whose locality the table does not know, and
    whose address names a region. *)
Definition mill_answer : response :=
  {| status_code := 200; estimatedTotal := 1;
     resources :=
       [ {| res_address :=
              {| addr_locality := Some "Old Mill";
                 addr_formattedAddress := Some "Old Mill, South West" |};
            res_bbox := [1; 7; 2; 11]%Q |} ] |}.

Definition mill_service (URL : string) : result response := ret mill_answer.

(** A place table before the geocoding loop, and after it when the
    service gives [mill_answer]. *)
Definition example_before_geocoding : list place_row :=
  [ unresolved_row "The Old Mill";
    {| location := "Clifton"; locality := "Bristol, City of";
       bbox0 := NaN; bbox1 := NaN; bbox2 := NaN; bbox3 := NaN |} ].

Definition example_after_geocoding : list place_row :=
  [ {| location := "The Old Mill"; locality := "South West";
       bbox0 := Num 1; bbox1 := Num 7; bbox2 := Num 2; bbox3 := Num 11 |};
    {| location := "Clifton"; locality := "Bristol, City of";
       bbox0 := NaN; bbox1 := NaN; bbox2 := NaN; bbox3 := NaN |} ].

(** The hierarchy of the three districts of [example_LAD]. *)
Definition shire_lookup_df : list lookup_row :=
  [ hierarchy_row "Westshire" "Westshire" "The Shires" "The Shires" "Mercia";
    hierarchy_row "Midshire" "Midshire" "The Shires" "The Shires" "Mercia";
    hierarchy_row "Eastshire" "Eastshire" "The Shires" "The Shires" "Mercia" ].

(** A place table after the geocoding loop: a place with its district, a
    place with a region and a bounding box, and a place without either. *)
Definition example_places : list place_row :=
  [ {| location := "Weston"; locality := "Westshire";
       bbox0 := NaN; bbox1 := NaN; bbox2 := NaN; bbox3 := NaN |};
    {| location := "The Old Mill"; locality := "The Shires";
       bbox0 := Num 1; bbox1 := Num 7; bbox2 := Num 2; bbox3 := Num 11 |};
    unresolved_row "Faraway" ].

(** The same table after the pass of [IOU], with [locality_match]. *)
Definition example_places_LAD : list (place_row * nat) :=
  [ ({| location := "Weston"; locality := "Westshire";
        bbox0 := NaN; bbox1 := NaN; bbox2 := NaN; bbox3 := NaN |}, 1);
    ({| location := "The Old Mill"; locality := "Westshire";
        bbox0 := Num 1; bbox1 := Num 7; bbox2 := Num 2; bbox3 := Num 11 |},
     1);
    (unresolved_row "Faraway", 0) ].

(** A place table as the monthly cell reads it, and the posts of a
    month. *)
Definition example_place_LAD
    : list (option string * option string * nat) :=
  [ (Some "Clifton, Bristol", Some "Bristol, City of", 1);
    (Some "Dundee", Some "Dundee City", 1);
    (Some "South West", Some "South West (England)", 2);
    (Some "Faraway", None, 0) ].

Definition example_twitter_df : list (Z * option string) :=
  [ (1%Z, Some "Clifton, Bristol"); (1%Z, Some "Clifton, Bristol");
    (1%Z, Some "Dundee"); (2%Z, Some "Faraway"); (2%Z, Some "South West");
    (1%Z, Some "Clifton, Bristol"); (2%Z, Some "Dundee") ].

(** Posts of a month with their place strings, for [example_places]. *)
Definition example_shire_posts : list (Z * option string) :=
  [ (1%Z, Some "Weston"); (1%Z, Some "The Old Mill"); (1%Z, Some "Faraway");
    (2%Z, Some "Faraway"); (2%Z, Some "Weston") ].

(** The posts of a later month: the first user has moved. *)
Definition example_posts_later : list (Z * string) :=
  replicate 5 (1%Z, "Dundee City") ++ [(1%Z, "Bristol, City of")]
  ++ replicate 3 (2%Z, "Dundee City")
  ++ replicate 2 (3%Z, "Dundee City").

Definition example_located_posts (year month : nat) : list (Z * string) :=
  if (year =? 2019) then example_posts else example_posts_later.

(** * Properties *)

(** ** Dictionaries *)

Module PyDictFacts.
Import PyDict.

Lemma get_set k k' v d :
  get k' (set k v d) = if decide (k = k') then Some v else get k' d.
Proof.
  induction d as [|[k0 v0] d IH]; simpl.
  - done.
  - destruct (decide (k0 = k)) as [-> |Hk]; simpl.
    + by repeat case_decide.
    + rewrite IH. by repeat case_decide; simplify_eq.
Qed.

Lemma get_set_eq k v d : get k (set k v d) = Some v.
Proof. rewrite get_set. by case_decide. Qed.

Lemma get_set_ne k k' v d : k ≠ k' → get k' (set k v d) = get k' d.
Proof. intros. rewrite get_set. by case_decide. Qed.

(** Writing the same value under several keys. *)
Lemma get_set_pieces k v pieces d :
  get k (foldl (fun d' piece => set piece v d') d pieces)
  = if decide (k ∈ pieces) then Some v else get k d.
Proof.
  revert d. induction pieces as [|p pieces IH]; intros d.
  - case_decide; [set_solver|done].
  - cbn [foldl]. rewrite IH, get_set.
    destruct (decide (p = k)) as [-> |Hne];
      repeat case_decide; try done; exfalso; set_solver.
Qed.

Lemma update_snoc d e kv : update d (e ++ [kv]) = set kv.1 kv.2 (update d e).
Proof. unfold update. by rewrite foldl_app. Qed.

(** After [d.update(e)] a key holds the last value [e] gives it, or else
    what it held in [d]. *)
Lemma get_update k d e :
  get k (update d e)
  = match get k (reverse e) with Some v => Some v | None => get k d end.
Proof.
  induction e as [|[k' v'] e IH] using rev_ind; [done|].
  rewrite update_snoc, reverse_snoc, get_set. simpl.
  destruct (decide (k' = k)); [done|apply IH].
Qed.

Lemma get_del k k' d :
  get k (del k' d) = if decide (k = k') then None else get k d.
Proof.
  unfold del. induction d as [|[k0 v0] d IH].
  - by case_decide.
  - rewrite filter_cons. cbn [fst].
    destruct (decide (k0 ≠ k')) as [Hne|Heq]; cbn [get]; rewrite IH.
    + destruct (decide (k0 = k)) as [-> |?]; [|done]. by case_decide.
    + apply dec_stable in Heq. subst k0.
      destruct (decide (k = k')) as [-> |?]; [done|]. by case_decide.
Qed.

Lemma get_is_Some_key k d : is_Some (get k d) ↔ k ∈ keys d.
Proof.
  unfold keys. induction d as [|[k' v'] d IH]; simpl.
  - split; [by intros [? ?]|by intros ?%elem_of_nil].
  - destruct (decide (k' = k)) as [-> |Hne].
    + split; [intros _; by left|by eauto].
    + rewrite IH. split; [by right|].
      intros [?|?]%elem_of_cons; [by subst|done].
Qed.

Lemma get_elem_of k v d : get k d = Some v → (k, v) ∈ d.
Proof.
  induction d as [|[k' v'] d IH]; simpl; [done|].
  destruct (decide (k' = k)) as [-> |Hne].
  - intros [= ->]. by left.
  - intros ?. right. by apply IH.
Qed.

(** Properties of all entries are kept by the writes. *)
Lemma Forall_set (P : string * string → Prop) k v d :
  Forall P d → P (k, v) → Forall P (set k v d).
Proof.
  intros Hd Hkv. induction Hd as [|[k' v'] d Hx Hd IH]; simpl.
  - by repeat constructor.
  - destruct (decide (k' = k)) as [-> |Hne]; by constructor.
Qed.

Lemma Forall_update (P : string * string → Prop) d e :
  Forall P d → Forall P e → Forall P (update d e).
Proof.
  intros Hd He. revert d Hd. unfold update.
  induction He as [|[k v] e Hkv He IH]; intros d Hd; simpl; [done|].
  apply IH. by apply Forall_set.
Qed.

Lemma Forall_get (P : string * string → Prop) k v d :
  Forall P d → get k d = Some v → P (k, v).
Proof.
  intros Hd Hget. apply get_elem_of in Hget.
  by eapply Forall_forall in Hd.
Qed.

End PyDictFacts.

(** ** Keys of a dictionary *)

Module PyDictKeys.
Import PyDict PyDictFacts.

Lemma keys_set k v d :
  keys (set k v d) = if decide (k ∈ keys d) then keys d else keys d ++ [k].
Proof.
  induction d as [|[k' v'] d IH]; cbn [set keys fmap list_fmap fst].
  - rewrite decide_False by apply not_elem_of_nil. reflexivity.
  - destruct (decide (k' = k)) as [-> | Hne]; cbn [fmap list_fmap fst].
    + rewrite decide_True by apply list_elem_of_here. reflexivity.
    + unfold keys in IH. rewrite IH.
      destruct (decide (k ∈ d.*1)) as [Hin | Hin].
      * rewrite decide_True by (apply list_elem_of_further, Hin). reflexivity.
      * rewrite decide_False; [reflexivity|].
        intros [-> | H]%elem_of_cons; [congruence | exact (Hin H)].
Qed.

Lemma NoDup_keys_set k v d : NoDup (keys d) → NoDup (keys (set k v d)).
Proof.
  intros Hd. rewrite keys_set. case_decide; [exact Hd|].
  apply NoDup_app. split; [exact Hd|]. split.
  - intros x Hx [-> | []%not_elem_of_nil]%elem_of_cons. tauto.
  - apply NoDup_singleton.
Qed.

Lemma NoDup_keys_update d e : NoDup (keys d) → NoDup (keys (update d e)).
Proof.
  revert d. induction e as [|kv e IH]; intros d Hd; [exact Hd|].
  apply IH, NoDup_keys_set, Hd.
Qed.

Lemma get_NoDup k v d : NoDup (keys d) → (k, v) ∈ d → get k d = Some v.
Proof.
  induction d as [|[k' v'] d IH]; intros Hd Hin.
  - apply not_elem_of_nil in Hin as [].
  - cbn [keys fmap list_fmap fst] in Hd. apply NoDup_cons in Hd as [Hk Hd].
    cbn [get]. apply elem_of_cons in Hin as [Heq | Hin].
    + injection Heq as -> ->. rewrite decide_True by reflexivity. reflexivity.
    + destruct (decide (k' = k)) as [-> | Hne]; [|apply IH; assumption].
      exfalso. apply Hk. change k with (k, v).1.
      apply list_elem_of_fmap_2, Hin.
Qed.

Lemma get_reverse k d : NoDup (keys d) → get k (reverse d) = get k d.
Proof.
  intros Hd.
  assert (Hr : NoDup (keys (reverse d))).
  { unfold keys. rewrite fmap_reverse, reverse_Permutation. exact Hd. }
  destruct (get k d) as [v|] eqn:E.
  - apply get_NoDup; [exact Hr|]. apply elem_of_reverse, get_elem_of, E.
  - destruct (get k (reverse d)) as [v|] eqn:E'; [|reflexivity].
    apply get_elem_of in E'. rewrite elem_of_reverse in E'.
    assert (is_Some (get k d)) as [w Hw].
    { apply get_is_Some_key. change k with (k, v).1.
      apply list_elem_of_fmap_2, E'. }
    congruence.
Qed.

(** [d.update(e)] for a dictionary [e]: the entries of [e] come first. *)
Lemma get_update_dict k d e :
  NoDup (keys e) →
  get k (update d e) =
    match get k e with Some v => Some v | None => get k d end.
Proof. intros He. rewrite get_update, get_reverse by exact He. reflexivity. Qed.

End PyDictKeys.

(** ** Lookup table *)

Section LookupTableFacts.
Import PyDict PyDictFacts.

Variable lookup_df : list lookup_row.
Variable ward_df : list (string * string).

Local Abbreviation LADs := (LAD_set lookup_df).
Local Abbreviation larger := (larger_than_LAD_set lookup_df).
Local Abbreviation table := (lookup_dict lookup_df ward_df).
Local Abbreviation merged := (merged_lookup_dict lookup_df ward_df).

Lemma get_delete_loop k d ks :
  get k (foldl
           (fun acc i =>
              if decide (i ∈ LADs ∨ i ∈ larger) then del i acc else acc)
           d ks)
  = if decide ((k ∈ LADs ∨ k ∈ larger) ∧ k ∈ ks) then None else get k d.
Proof.
  revert d. induction ks as [|i ks IH]; intros d; simpl.
  - rewrite decide_False; [done|]. intros [_ ?%elem_of_nil]. done.
  - rewrite IH. destruct (decide ((k ∈ LADs ∨ k ∈ larger) ∧ k ∈ ks))
      as [[Hc Hin]|Hn].
    + rewrite decide_True; [done|]. split; [done|by right].
    + destruct (decide (i ∈ LADs ∨ i ∈ larger)) as [Hi|Hi].
      * rewrite get_del. destruct (decide (k = i)) as [-> |Hne].
        -- rewrite decide_True; [done|]. split; [done|by left].
        -- rewrite decide_False; [done|].
           intros [Hc [-> |?]%elem_of_cons]; [done|]. by apply Hn.
      * rewrite decide_False; [done|].
        intros [Hc [-> |?]%elem_of_cons]; [done|]. by apply Hn.
Qed.

(** Deleting duplicates removes exactly the keys that are names of the
    hierarchy. *)
Lemma get_lookup_dict k :
  get k table
  = if decide (k ∈ LADs ∨ k ∈ larger) then None else get k merged.
Proof.
  unfold lookup_dict, delete_duplicates. cbv zeta.
  rewrite get_delete_loop.
  destruct (decide (k ∈ LADs ∨ k ∈ larger)) as [Hc|Hc].
  - destruct (decide (k ∈ keys merged)) as [Hin|Hnin].
    + by rewrite decide_True.
    + rewrite decide_False by tauto.
      destruct (get k merged) eqn:E; [|done].
      exfalso. apply Hnin, get_is_Some_key. by rewrite E.
  - rewrite decide_False; [done|tauto].
Qed.

Lemma match_LAD depth n : n ∈ LADs → match_ lookup_df ward_df depth n = Some 1.
Proof. intros Hn. destruct depth; simpl; by rewrite decide_True. Qed.

Lemma match_larger depth n :
  n ∈ larger → match_ lookup_df ward_df depth n = Some 2.
Proof.
  intros Hn. assert (n ∉ LADs) by (unfold larger_than_LAD_set in Hn; set_solver).
  destruct depth; simpl; rewrite decide_False by done; by rewrite decide_True.
Qed.

End LookupTableFacts.

(** ** Splitting *)

Section SplitFacts.

Lemma prefix_app p s : String.prefix p s = true ↔ ∃ b, s = p +:+ b.
Proof.
  revert s. induction p as [|a p IH]; intros s.
  - split; [intros _; by exists s|by destruct s].
  - destruct s as [|c s]; simpl.
    + split; [done|by intros [b ?]].
    + destruct (Ascii.ascii_dec a c) as [-> |Hne].
      * rewrite IH. split; intros [b Hb]; exists b; [by rewrite Hb|].
        by injection Hb.
      * split; [done|]. intros [b Hb]. injection Hb as -> _. done.
Qed.

Lemma first_match_Some seps s sep :
  first_match seps s = Some sep → sep ∈ seps ∧ String.prefix sep s = true.
Proof.
  induction seps as [|x seps IH]; simpl; [done|].
  destruct (String.prefix x s) eqn:E.
  - intros [= <-]. split; [by left|done].
  - intros [? ?]%IH. split; [by right|done].
Qed.

Lemma first_match_None seps s sep :
  first_match seps s = None → sep ∈ seps → String.prefix sep s = false.
Proof.
  induction seps as [|x seps IH]; simpl; [by intros _ ?%elem_of_nil|].
  destruct (String.prefix x s) eqn:E; [done|].
  intros Hn [-> |Hin]%elem_of_cons; [done|by apply IH].
Qed.

Lemma split_from_length seps skip cur s :
  1 ≤ length (split_from seps skip cur s).
Proof.
  revert skip cur. induction s as [|c s IH]; intros skip cur; simpl; [lia|].
  destruct skip; [|apply IH].
  destruct (first_match seps (String c s)); [simpl; lia|apply IH].
Qed.

Lemma contains_cons sep c s :
  String.prefix sep (String c s) = false →
  contains sep (String c s) → contains sep s.
Proof.
  intros Hp (a & b & Heq). destruct a as [|c' a].
  - assert (String.prefix sep (String c s) = true); [|congruence].
    apply prefix_app. by exists b.
  - injection Heq as -> ->. by exists a, b.
Qed.

(** A separator that occurs gives at least two pieces. *)
Lemma split_from_contains seps sep cur s :
  sep ∈ seps → sep ≠ "" → contains sep s →
  2 ≤ length (split_from seps 0 cur s).
Proof.
  intros Hin Hne. revert cur. induction s as [|c s IH]; intros cur Hc.
  - destruct Hc as (a & b & Heq). destruct a, sep; simplify_eq/=.
  - cbn [split_from]. destruct (first_match seps (String c s)) eqn:E.
    + simpl. pose proof (split_from_length seps (String.length s0 - 1) "" s).
      lia.
    + apply IH. eapply contains_cons; [|done].
      by eapply first_match_None.
Qed.

(** [loc.split(sep)] has two pieces or more only if [sep] occurs. *)
Lemma str_split_contains sep cur s :
  2 ≤ length (split_from [sep] 0 cur s) → contains sep s.
Proof.
  revert cur. induction s as [|c s IH]; intros cur; [simpl; lia|].
  cbn [split_from]. destruct (first_match [sep] (String c s)) eqn:E.
  - intros _. apply first_match_Some in E as [Hin Hp].
    apply list_elem_of_singleton in Hin as ->.
    apply prefix_app in Hp as [b ->]. by exists "", b.
  - intros (a & b & ->)%IH. by exists (String c a), b.
Qed.

(** The guard of the splitting loops holds exactly for the names in which
    [" and "] occurs. *)
Lemma split_guard_contains loc :
  split_guard loc = true ↔ contains " and " loc.
Proof.
  unfold split_guard. rewrite andb_true_iff, !Nat.leb_le. split.
  - intros [H _]. by apply str_split_contains in H.
  - intros Hc. split.
    + apply (split_from_contains _ " and "); [by left|done|done].
    + apply (split_from_contains _ " and "); [by left|done|done].
Qed.

Import PyDict PyDictFacts.

Lemma get_split_step k d e :
  get k (split_step d e)
  = if decide (split_guard e.1 = true ∧ k ∈ re_split_and_comma e.1)
    then Some e.2 else get k d.
Proof.
  unfold split_step. destruct (split_guard e.1).
  - rewrite get_set_pieces. by repeat case_decide; try tauto.
  - case_decide; [|done]. naive_solver.
Qed.

(** Entries that do not write a key leave it as it is. *)
Lemma get_split_loop_other k d entries :
  (∀ e, e ∈ entries → split_guard e.1 = true →
        k ∉ re_split_and_comma e.1) →
  get k (foldl split_step d entries) = get k d.
Proof.
  revert d. induction entries as [|e entries IH]; intros d Hno; [done|].
  cbn [foldl]. rewrite IH.
  - rewrite get_split_step. case_decide as H; [|done].
    destruct H as [Hg Hin]. exfalso. by eapply (Hno e); [left| |].
  - intros e' ?. apply Hno. by right.
Qed.

(** A piece written by some entry ends with the target of an entry that
    writes it. *)
Lemma get_split_dict_entry k entries e :
  e ∈ entries → split_guard e.1 = true → k ∈ re_split_and_comma e.1 →
  ∃ e', e' ∈ entries ∧ split_guard e'.1 = true
        ∧ k ∈ re_split_and_comma e'.1
        ∧ get k (split_dict entries) = Some e'.2.
Proof.
  unfold split_dict. revert e.
  induction entries as [|x entries IH] using rev_ind; intros e He Hg Hk.
  - by apply elem_of_nil in He.
  - rewrite foldl_app. cbn [foldl]. rewrite get_split_step.
    case_decide as Hx.
    + exists x. split; [set_solver|tauto].
    + apply elem_of_app in He as [He|He]; [|set_solver].
      destruct (IH e He Hg Hk) as (e' & ? & ? & ? & ?).
      exists e'. split; [set_solver|done].
Qed.

Lemma Forall_split_step (P : string * string → Prop)
    (Q : string → Prop) d e :
  (∀ k v, Q v → P (k, v)) → Forall P d → Q e.2 → Forall P (split_step d e).
Proof.
  intros HQ Hd He. unfold split_step. destruct (split_guard e.1); [|done].
  generalize (re_split_and_comma e.1) as pieces. intros pieces.
  revert d Hd. induction pieces as [|p pieces IH]; intros d Hd; [done|].
  cbn [foldl]. apply IH, Forall_set; [done|by apply HQ].
Qed.

(** Every value of a split table is the target of one of its entries. *)
Lemma Forall_split_loop (P : string * string → Prop)
    (Q : string → Prop) d entries :
  (∀ k v, Q v → P (k, v)) → Forall P d → Forall (fun e => Q e.2) entries →
  Forall P (foldl split_step d entries).
Proof.
  intros HQ Hd He. revert d Hd.
  induction He as [|e entries He Hes IH]; intros d Hd; [done|].
  cbn [foldl]. by apply IH, (Forall_split_step P Q).
Qed.

End SplitFacts.

Lemma NoDup_keys_split_step d e :
  NoDup (PyDict.keys d) → NoDup (PyDict.keys (split_step d e)).
Proof.
  intros Hd. unfold split_step. destruct (split_guard e.1); [|exact Hd].
  revert d Hd. induction (re_split_and_comma e.1) as [|p ps IH]; intros d Hd;
    [exact Hd|].
  cbn [foldl]. apply IH, PyDictKeys.NoDup_keys_set, Hd.
Qed.

Lemma NoDup_keys_split_dict entries :
  NoDup (PyDict.keys (split_dict entries)).
Proof.
  unfold split_dict.
  assert (H : NoDup (PyDict.keys [])) by apply NoDup_nil_2.
  revert H. generalize (@nil (string * string)).
  induction entries as [|e entries IH]; intros d Hd; [exact Hd|].
  cbn [foldl]. apply IH, NoDup_keys_split_step, Hd.
Qed.

(** ** The lookup table against its specification *)

(** Closes a decidable goal on concrete data by evaluating its decision
    procedure. *)
Ltac by_computation :=
  lazymatch goal with
  | |- ?P =>
      let d := constr:(_ : Decision P) in
      apply (@bool_decide_unpack P d); vm_compute; exact I
  end.

Section LookupTableSpec.
Import PyDict PyDictFacts.

Variable lookup_df : list lookup_row.
Variable ward_df : list (string * string).

Local Abbreviation LADs := (LAD_set lookup_df).
Local Abbreviation larger := (larger_than_LAD_set lookup_df).
Local Abbreviation table := (lookup_dict lookup_df ward_df).
Local Abbreviation merged := (merged_lookup_dict lookup_df ward_df).

Lemma canonical_name_sets n :
  canonical_name lookup_df n ↔ n ∈ LADs ∨ n ∈ larger.
Proof.
  unfold canonical_name, larger_than_LAD_set, LAD_set.
  destruct (decide (n ∈ LAD21NM <$> lookup_df)) as [Hin|Hnin].
  - split; [intros _; left; set_solver|]. intros _.
    apply list_elem_of_fmap in Hin as (row & -> & Hrow). eauto.
  - split.
    + intros (row & Hrow & Hn). right.
      apply elem_of_difference. split; [|set_solver].
      rewrite !elem_of_union, !elem_of_list_to_set, !list_elem_of_fmap.
      destruct Hn as [-> | [-> | [-> | [-> | ->]]]];
        [set_solver|eauto 10..].
    + intros [?|Hd]; [set_solver|].
      apply elem_of_difference in Hd as [Hu _].
      rewrite !elem_of_union, !elem_of_list_to_set, !list_elem_of_fmap in Hu.
      destruct Hu as [[[(row & -> & ?)|(row & -> & ?)]|(row & -> & ?)]
                      |(row & -> & ?)]; exists row; tauto.
Qed.

Lemma match_eq depth location :
  match_ lookup_df ward_df depth location
  = if decide (location ∈ LADs) then Some 1
    else if decide (location ∈ larger) then Some 2
    else match get location table with
         | Some target =>
             match depth with
             | O => None
             | S depth' => match_ lookup_df ward_df depth' target
             end
         | None => Some 0
         end.
Proof. by destruct depth. Qed.

Lemma coarser_name_larger n :
  coarser_name lookup_df n → n ∉ LADs → n ∈ larger.
Proof.
  intros (row & Hrow & Hn) Hnot. unfold larger_than_LAD_set.
  apply elem_of_difference. split; [|done].
  rewrite !elem_of_union, !elem_of_list_to_set, !list_elem_of_fmap.
  destruct Hn as [-> | [-> | [-> | ->]]]; eauto 10.
Qed.

(** C4 (amended): after construction no key of the lookup table is a name
    of the hierarchy, at the district level or above; so [match] gives 1
    for every district name and [change_place_name] returns it unchanged.
    For a name of a level above the districts, [match] gives 2 when the
    name is not also a district name and 1 when it is, and
    [change_place_name] returns it unchanged. *)
Theorem canonical_names_resolve (depth : nat) (n : string) :
  (canonical_name lookup_df n → get n table = None)
  ∧ (n ∈ LADs →
     match_ lookup_df ward_df depth n = Some 1
     ∧ change_place_name lookup_df ward_df depth n = Some n)
  ∧ (coarser_name lookup_df n →
     match_ lookup_df ward_df depth n
     = Some (if decide (n ∈ LADs) then 1 else 2)
     ∧ change_place_name lookup_df ward_df depth n = Some n).
Proof.
  assert (Hkey : n ∈ LADs ∨ n ∈ larger → get n table = None).
  { intros Hc. rewrite get_lookup_dict. by case_decide. }
  split; [|split].
  - intros Hc%canonical_name_sets. by apply Hkey.
  - intros Hn. split; [by apply match_LAD|].
    unfold change_place_name. rewrite Hkey by by left.
    by rewrite match_LAD.
  - intros Hn. unfold change_place_name.
    destruct (decide (n ∈ LADs)) as [Hl | Hl].
    + rewrite Hkey by by left. by rewrite match_LAD.
    + pose proof (coarser_name_larger n Hn Hl) as Hlarger.
      rewrite Hkey by by right. by rewrite match_larger.
Qed.

Lemma manual_alias_values : Forall (alias_value lookup_df) manual_lookup_dict.
Proof.
  unfold manual_lookup_dict.
  repeat (apply Forall_cons_2; [left; reflexivity|]). apply Forall_nil_2.
Qed.

Lemma manual_values_not_keys k v :
  get k manual_lookup_dict = Some v → get v manual_lookup_dict = None.
Proof.
  intros Hget%get_elem_of. revert Hget.
  assert (Forall (fun kv => get kv.2 manual_lookup_dict = None)
            manual_lookup_dict) as H.
  { unfold manual_lookup_dict.
    repeat (apply Forall_cons_2; [reflexivity|]). apply Forall_nil_2. }
  intros Hin. by apply (proj1 (Forall_forall _ _) H (k, v)).
Qed.

Section WardParents.

(** Every district named by the ward table is a district of the
    hierarchy. *)
Hypothesis ward_parents : Forall (fun wp => wp.2 ∈ LADs) ward_df.

Lemma ward_dict_values :
  Forall (fun kv => kv.2 ∈ LADs) (ward_dict ward_df).
Proof.
  unfold ward_dict, of_rows. by apply Forall_update.
Qed.

Lemma merged_alias_values : Forall (alias_value lookup_df) merged.
Proof.
  unfold merged_lookup_dict.
  apply Forall_update; [apply Forall_update; [apply Forall_update|]|].
  - apply manual_alias_values.
  - apply (Forall_split_loop _ (fun v => v ∈ LADs));
      [by right|done|].
    apply Forall_fmap, Forall_forall. intros loc Hloc. simpl.
    by apply elem_of_elements in Hloc.
  - eapply Forall_impl; [apply ward_dict_values|]. by right.
  - apply (Forall_split_loop _ (fun v => v ∈ LADs));
      [by right|done|apply ward_dict_values].
Qed.

Lemma table_alias_value k v :
  get k table = Some v → alias_value lookup_df (k, v).
Proof.
  rewrite get_lookup_dict. case_decide; [done|].
  apply Forall_get, merged_alias_values.
Qed.

(** C9 (amended): when every district named by the ward table is a
    district of the hierarchy, [match] returns for every input string
    after following at most two aliases: a nesting depth of 2 is
    enough, and the level does not depend on the depth allowed. *)
Theorem match_terminates (location : string) :
  ∃ level, level ≤ 2 ∧
    ∀ depth, 2 ≤ depth →
      match_ lookup_df ward_df depth location = Some level.
Proof.
  destruct (decide (location ∈ LADs)) as [?|HnL].
  { exists 1. split; [lia|]. intros. by apply match_LAD. }
  destruct (decide (location ∈ larger)) as [?|Hnl].
  { exists 2. split; [lia|]. intros. by apply match_larger. }
  destruct (get location table) as [t1|] eqn:E1; cycle 1.
  { exists 0. split; [lia|]. intros depth _. rewrite match_eq.
    rewrite !decide_False by done. by rewrite E1. }
  destruct (decide (t1 ∈ LADs)) as [?|HnL1].
  { exists 1. split; [lia|]. intros [|depth] ?; [lia|].
    rewrite match_eq, !decide_False by done. rewrite E1.
    by apply match_LAD. }
  destruct (decide (t1 ∈ larger)) as [?|Hnl1].
  { exists 2. split; [lia|]. intros [|depth] ?; [lia|].
    rewrite match_eq, !decide_False by done. rewrite E1.
    by apply match_larger. }
  destruct (get t1 table) as [t2|] eqn:E2; cycle 1.
  { exists 0. split; [lia|]. intros [|depth] ?; [lia|].
    rewrite match_eq, !decide_False by done. rewrite E1.
    rewrite match_eq, !decide_False by done. by rewrite E2. }
  exists 1. split; [lia|]. intros [|[|depth]] ?; [lia..|].
  rewrite match_eq, !decide_False by done. rewrite E1.
  rewrite match_eq, !decide_False by done. rewrite E2.
  apply match_LAD.
  destruct (table_alias_value _ _ E1) as [Hm1|?]; [|done].
  destruct (table_alias_value _ _ E2) as [Hm2|?]; [|done].
  cbn [fst snd] in Hm1, Hm2.
  apply manual_values_not_keys in Hm1. congruence.
Qed.

End WardParents.

Lemma snoc_eq_middle {A} (l before after : list A) (x e : A) :
  l ++ [x] = before ++ e :: after →
  (after = [] ∧ l = before ∧ x = e)
  ∨ ∃ after', after = after' ++ [x] ∧ l = before ++ e :: after'.
Proof.
  destruct after as [|a after _] using rev_ind.
  - intros [-> ->]%app_inj_tail. by left.
  - rewrite app_comm_cons, app_assoc. intros [-> ->]%app_inj_tail.
    right. by exists after.
Qed.

(** The value of a key of a split table is the target of the last
    decomposed name that has the key as a piece; a string that is a piece
    of no decomposed name is no key. *)
Lemma get_split_dict_last entries k v :
  get k (split_dict entries) = Some v
  ↔ ∃ before e after,
      entries = before ++ e :: after
      ∧ contains " and " e.1 ∧ k ∈ re_split_and_comma e.1 ∧ e.2 = v
      ∧ ∀ e', e' ∈ after → contains " and " e'.1 →
              k ∉ re_split_and_comma e'.1.
Proof.
  induction entries as [|x entries IH] using rev_ind.
  - split; [done|]. intros (before & e & after & Heq & _).
    by destruct before.
  - unfold split_dict. rewrite foldl_app. cbn [foldl].
    rewrite get_split_step. fold (split_dict entries).
    destruct (decide (split_guard x.1 = true ∧ k ∈ re_split_and_comma x.1))
      as [[Hg Hk] | Hno].
    + split.
      * intros [= <-]. exists entries, x, [].
        split; [done|]. split; [by apply split_guard_contains|].
        repeat split; [done|]. by intros e' []%elem_of_nil.
      * intros (before & e & after & Heq & _ & _ & <- & Hafter).
        apply snoc_eq_middle in Heq as [(_ & _ & ->) | (after' & -> & _)];
          [done|].
        exfalso. apply (Hafter x); [|by apply split_guard_contains|done].
        apply elem_of_app. right. by apply list_elem_of_singleton.
    + rewrite IH. split.
      * intros (before & e & after & -> & Hc & Hk & Hv & Hafter).
        exists before, e, (after ++ [x]).
        split; [by rewrite <- app_assoc|]. repeat split; try done.
        intros e' [He' | ->%list_elem_of_singleton]%elem_of_app Hc' Hk';
          [by apply (Hafter e')|].
        apply Hno. split; [by apply split_guard_contains|done].
      * intros (before & e & after & Heq & Hc & Hk & Hv & Hafter).
        apply snoc_eq_middle in Heq as [(_ & _ & ->) | (after' & -> & ->)].
        -- exfalso. apply Hno. split; [by apply split_guard_contains|done].
        -- exists before, e, after'. repeat split; try done.
           intros e' He'. apply Hafter, elem_of_app. by left.
Qed.

(** The lookup table is the table of the three [update] calls without the
    names of the hierarchy, and in that table the last update that has a
    key gives its value. *)
Lemma get_table_layers k :
  get k table
  = if decide (k ∈ LADs ∨ k ∈ larger) then None
    else match get k (ward_split_dict ward_df) with
         | Some v => Some v
         | None =>
             match get k (ward_dict ward_df) with
             | Some v => Some v
             | None =>
                 match get k (LAD_split_dict lookup_df) with
                 | Some v => Some v
                 | None => get k manual_lookup_dict
                 end
             end
         end.
Proof.
  rewrite get_lookup_dict. case_decide; [done|].
  unfold merged_lookup_dict.
  rewrite !PyDictKeys.get_update_dict; [done| | |].
  - apply NoDup_keys_split_dict.
  - apply (PyDictKeys.NoDup_keys_update []), NoDup_nil_2.
  - apply NoDup_keys_split_dict.
Qed.

(** C3 (amended): the names that are decomposed are those in which
    [" and "] occurs, and only those.  A key of a split table is a piece
    (of the split on [" and "] and [", "]) of such a name of the loop, and
    its value is the target of the last such name that has the piece; so a
    piece of a name that has commas and no [" and "] is a key only if it
    is also a piece of a name with [" and "], whatever else the loop runs
    over.  In the lookup table, a piece of a decomposed district name or
    ward name that is a name of the hierarchy is no key; another piece of
    a decomposed ward name has the district of a decomposed ward with this
    piece; another piece of a decomposed district name has what
    [ward_split_dict] has for it, else what [ward_dict] has for it, else
    a decomposed district name with this piece.  A string that is a piece
    of no decomposed district or ward name is a key of the lookup table
    only as a ward name or as a key of the table written by hand. *)
Theorem split_aliases (entries : list (string * string))
    (k v loc target : string) :
  (get k (split_dict entries) = Some v
   ↔ ∃ before e after,
       entries = before ++ e :: after
       ∧ contains " and " e.1 ∧ k ∈ re_split_and_comma e.1 ∧ e.2 = v
       ∧ ∀ e', e' ∈ after → contains " and " e'.1 →
               k ∉ re_split_and_comma e'.1)
  ∧ (loc ∈ LADs → contains " and " loc →
     k ∈ re_split_and_comma loc →
     ∃ loc', loc' ∈ LADs ∧ contains " and " loc'
             ∧ k ∈ re_split_and_comma loc'
             ∧ get k (LAD_split_dict lookup_df) = Some loc'
             ∧ get k table
               = if decide (k ∈ LADs ∨ k ∈ larger) then None
                 else Some (default
                              (default loc' (get k (ward_dict ward_df)))
                              (get k (ward_split_dict ward_df))))
  ∧ ((loc, target) ∈ ward_dict ward_df → contains " and " loc →
     k ∈ re_split_and_comma loc →
     ∃ ward parent, (ward, parent) ∈ ward_dict ward_df
             ∧ contains " and " ward
             ∧ k ∈ re_split_and_comma ward
             ∧ get k (ward_split_dict ward_df) = Some parent
             ∧ get k table
               = if decide (k ∈ LADs ∨ k ∈ larger) then None
                 else Some parent)
  ∧ ((∀ l, l ∈ LADs → contains " and " l → k ∉ re_split_and_comma l) →
     (∀ w p, (w, p) ∈ ward_dict ward_df → contains " and " w →
             k ∉ re_split_and_comma w) →
     get k (LAD_split_dict lookup_df) = None
     ∧ get k (ward_split_dict ward_df) = None
     ∧ get k table
       = if decide (k ∈ LADs ∨ k ∈ larger) then None
         else match get k (ward_dict ward_df) with
              | Some parent => Some parent
              | None => get k manual_lookup_dict
              end).
Proof.
  split; [apply get_split_dict_last|]. split; [|split].
  - intros Hin Hc Hp.
    destruct (get_split_dict_entry k
                ((fun l => (l, l)) <$> elements LADs) (loc, loc))
      as (e' & He' & Hg' & Hp' & Hget).
    { apply list_elem_of_fmap. exists loc.
      split; [done|by apply elem_of_elements]. }
    { by apply split_guard_contains. }
    { done. }
    apply list_elem_of_fmap in He' as (loc' & -> & Hl').
    apply elem_of_elements in Hl'. cbn [fst snd] in *.
    exists loc'. split; [done|]. split; [by apply split_guard_contains|].
    split; [done|]. split; [done|].
    rewrite get_table_layers. unfold LAD_split_dict. rewrite Hget.
    case_decide; [done|].
    by destruct (get k (ward_split_dict ward_df)),
      (get k (ward_dict ward_df)).
  - intros Hin Hc Hp.
    destruct (get_split_dict_entry k (ward_dict ward_df) (loc, target))
      as ([ward parent] & He' & Hg' & Hp' & Hget);
      [done|by apply split_guard_contains|done|].
    cbn [fst snd] in *. exists ward, parent.
    split; [done|]. split; [by apply split_guard_contains|].
    split; [done|]. split; [done|].
    rewrite get_table_layers. unfold ward_split_dict. rewrite Hget.
    by case_decide.
  - intros HLAD Hward.
    assert (get k (LAD_split_dict lookup_df) = None) as H1.
    { unfold LAD_split_dict, split_dict. rewrite get_split_loop_other; [done|].
      intros e (l & -> & Hl)%list_elem_of_fmap Hg. cbn [fst] in *.
      apply HLAD; [by apply elem_of_elements|by apply split_guard_contains]. }
    assert (get k (ward_split_dict ward_df) = None) as H2.
    { unfold ward_split_dict, split_dict.
      rewrite get_split_loop_other; [done|].
      intros [w p] He Hg. cbn [fst] in *.
      apply (Hward w p); [done|by apply split_guard_contains]. }
    split; [done|]. split; [done|].
    rewrite get_table_layers, H1, H2. done.
Qed.

End LookupTableSpec.

(** ** The geocoding loop against its specification *)

Section GeocodingSpec.
Import PyDict PyDictFacts.

Variable lookup_df : list lookup_row.
Variable ward_df : list (string * string).
Variable depth : nat.
Variable special_loc_dict : PyDict.t.
Variable requests_get : string → result response.

Local Abbreviation table := (lookup_dict lookup_df ward_df).
Local Abbreviation row_step :=
  (geocode_row lookup_df ward_df depth special_loc_dict requests_get).
Local Abbreviation loop :=
  (geocoding_loop lookup_df ward_df depth special_loc_dict requests_get).

Lemma eqb_empty (s : string) : String.eqb s "" = true ↔ s = "".
Proof. apply String.eqb_eq. Qed.

Lemma geocode_row_skip r : locality r ≠ "" → row_step r = ([], ret r).
Proof.
  intros Hne. unfold geocode_row.
  destruct (String.eqb (locality r) "") eqn:E; [|done].
  by apply eqb_empty in E.
Qed.

Lemma geocode_row_call r :
  locality r = "" →
  row_step r
  = ([request_url (location r)],
     do resp <- requests_get (request_url (location r));
     if (status_code resp =? 200)%Z then
       if (estimatedTotal resp =? 0)%Z then ret r
       else resolve_answer lookup_df ward_df depth special_loc_dict r resp
     else ret r).
Proof.
  intros He. unfold geocode_row.
  destruct (String.eqb (locality r) "") eqn:E; [done|].
  apply eqb_empty in He. congruence.
Qed.

(** C7 (amended): the geocoder is called for a record exactly when
    [change_place_name] of its place string is the empty string.  For a
    place string that is not a key of the lookup table this is the case
    exactly when [match] of the string is 0 (or the string is empty); a
    place string that is a key of the table gets its alias as locality,
    and is not submitted when this alias is not empty, whatever level the
    alias has. *)
Theorem geocoder_called_iff (place loc : string) (b0 b1 b2 b3 : float) :
  change_place_name lookup_df ward_df depth place = Some loc →
  let r := {| location := place; locality := loc;
              bbox0 := b0; bbox1 := b1; bbox2 := b2; bbox3 := b3 |} in
  ((row_step r).1 = [request_url place] ↔ loc = "")
  ∧ ((row_step r).1 = [] ↔ loc ≠ "")
  ∧ (get place table = None →
     (loc = "" ↔
      match_ lookup_df ward_df depth place = Some 0 ∨ place = ""))
  ∧ (∀ target, get place table = Some target → loc = target).
Proof.
  intros Hc r. split; [|split; [|split]].
  - destruct (decide (loc = "")) as [-> |Hne].
    + by rewrite geocode_row_call.
    + by rewrite geocode_row_skip.
  - destruct (decide (loc = "")) as [-> |Hne].
    + by rewrite geocode_row_call.
    + by rewrite geocode_row_skip.
  - intros Hnone. unfold change_place_name in Hc. rewrite Hnone in Hc.
    destruct (match_ lookup_df ward_df depth place) as [level|]; [|done].
    injection Hc as <-. destruct level as [|level]; simpl.
    + split; [by left|done].
    + split; [by right|]. intros [?|?]; [done|done].
  - intros target Ht. unfold change_place_name in Hc. rewrite Ht in Hc.
    by injection Hc.
Qed.

(** C8 (amended): for a record submitted to the geocoder, an answer whose
    status is not 200, or that has no result, leaves the record as it was
    and the loop goes on with the records that follow; an exception
    raised by the HTTP request is not caught: it leaves the loop and the
    records that follow are not processed. *)
Theorem geocoding_failures (r : place_row) (df : list place_row) :
  locality r = "" →
  (∀ resp, requests_get (request_url (location r)) = inr resp →
     status_code resp ≠ 200%Z ∨ estimatedTotal resp = 0%Z →
     row_step r = ([request_url (location r)], ret r)
     ∧ loop (r :: df)
       = (request_url (location r) :: (loop df).1,
          do df' <- (loop df).2; ret (r :: df')))
  ∧ (∀ e, requests_get (request_url (location r)) = inl e →
     loop (r :: df) = ([request_url (location r)], raise e)).
Proof.
  intros Hloc. split.
  - intros resp Hresp Hfail.
    assert (row_step r = ([request_url (location r)], ret r)) as Hrow.
    { rewrite geocode_row_call by done. rewrite Hresp. cbn [bind].
      destruct (status_code resp =? 200)%Z eqn:Es; [|done].
      apply Z.eqb_eq in Es. destruct Hfail as [? | ->]; [done|done]. }
    split; [done|]. cbn [geocoding_loop]. by rewrite Hrow.
  - intros e He. cbn [geocoding_loop].
    rewrite geocode_row_call by done. by rewrite He.
Qed.

End GeocodingSpec.

(** ** Floats and series *)

Section FloatFacts.

Lemma Qlt_bool_iff p q : Qlt_bool p q = true ↔ (p < q)%Q.
Proof.
  unfold Qlt_bool. rewrite negb_true_iff. split.
  - intros H. apply Qnot_le_lt. intros Hle%Qle_bool_iff. congruence.
  - intros H. destruct (Qle_bool q p) eqn:E; [|done].
    apply Qle_bool_iff in E. by apply Qlt_not_le in H.
Qed.

Lemma Qlt_bool_false p q : Qlt_bool p q = false ↔ (q <= p)%Q.
Proof.
  unfold Qlt_bool. rewrite negb_false_iff. apply Qle_bool_iff.
Qed.

Lemma flt_irrefl x : flt x x = false.
Proof.
  destruct x as [|[]|q]; simpl; try done.
  apply Qlt_bool_false, Qle_refl.
Qed.

Lemma flt_not_nan x y : flt x y = true → isnan x = false.
Proof. by destruct x. Qed.

Lemma fdiv_pos a b : (0 < b)%Q → fdiv a b = Num (a / b).
Proof.
  intros Hb. unfold fdiv. destruct (Qeq_bool b 0) eqn:E; [|done].
  apply Qeq_bool_iff in E. rewrite E in Hb. by apply Qlt_irrefl in Hb.
Qed.

Lemma max_step_cases acc c : max_step acc c = acc ∨ max_step acc c = c.2.
Proof.
  unfold max_step. destruct (isnan c.2), (isnan acc), (flt acc c.2); auto.
Qed.

Lemma max_step_below acc c :
  isnan c.2 = false → acc = NaN ∨ flt acc c.2 = true →
  max_step acc c = c.2.
Proof.
  intros Hc [-> | Hlt]; unfold max_step; rewrite Hc; [done|].
  by rewrite Hlt, (flt_not_nan _ _ Hlt).
Qed.

(** The running maximum is the start value or the value of a cell. *)
Lemma max_fold_cell s acc :
  foldl max_step acc s = acc ∨ ∃ c, c ∈ s ∧ foldl max_step acc s = c.2.
Proof.
  revert acc. induction s as [|c s IH]; intros acc; [by left|].
  cbn [foldl]. destruct (IH (max_step acc c)) as [-> |(c' & Hc' & ->)].
  - destruct (max_step_cases acc c) as [-> | ->]; [by left|].
    right. exists c. split; [by left|done].
  - right. exists c'. split; [by right|done].
Qed.

Lemma max_fold_below s acc x :
  (acc = NaN ∨ flt acc x = true) →
  (∀ c, c ∈ s → isnan c.2 = true ∨ flt c.2 x = true) →
  foldl max_step acc s = NaN ∨ flt (foldl max_step acc s) x = true.
Proof.
  intros Hacc Hs. destruct (max_fold_cell s acc) as [-> |(c & Hc & ->)];
    [done|].
  destruct (Hs c Hc) as [Hn|?]; [|by right].
  left. by destruct c.2.
Qed.

Lemma max_fold_stays s x :
  isnan x = false →
  (∀ c, c ∈ s → isnan c.2 = true ∨ flt x c.2 = false) →
  foldl max_step x s = x.
Proof.
  intros Hx. induction s as [|c s IH]; intros Hs; [done|].
  cbn [foldl]. assert (max_step x c = x) as ->.
  { unfold max_step. destruct (Hs c) as [-> | ->]; [by left|done|].
    rewrite Hx. by destruct (isnan c.2). }
  apply IH. intros c' ?. apply Hs. by right.
Qed.

(** The first cell that holds the greatest value gives the maximum and
    its label. *)
Lemma series_first_max (before after : list (nat * float)) i x :
  isnan x = false →
  (∀ c, c ∈ before → isnan c.2 = true ∨ flt c.2 x = true) →
  (∀ c, c ∈ after → isnan c.2 = true ∨ flt x c.2 = false) →
  series_max (before ++ (i, x) :: after) = x
  ∧ series_idxmax (before ++ (i, x) :: after) = Some i.
Proof.
  intros Hx Hb Ha.
  assert (series_max (before ++ (i, x) :: after) = x) as Hmax.
  { unfold series_max. rewrite foldl_app. cbn [foldl].
    assert (max_step (foldl max_step NaN before) (i, x) = x) as ->.
    { apply max_step_below; [done|].
      apply max_fold_below; [by left|done]. }
    by apply max_fold_stays. }
  split; [done|]. unfold series_idxmax. rewrite Hmax, filter_app.
  assert (filter (fun cell : nat * float =>
                    negb (isnan cell.2) && negb (flt cell.2 x)) before
          = []) as ->.
  { clear -Hb. induction before as [|c before IH]; [done|].
    rewrite filter_cons_False.
    - apply IH. intros c' ?. apply Hb. by right.
    - destruct (Hb c) as [-> | ->]; [by left|by intros []|].
      destruct (isnan c.2); by intros []. }
  rewrite filter_cons_True; [done|].
  cbn [snd]. by rewrite Hx, flt_irrefl.
Qed.

Lemma series_max_not_above s t :
  (∀ c, c ∈ s → fgt c.2 t = false) → fgt (series_max s) t = false.
Proof.
  intros Hs. unfold series_max.
  destruct (max_fold_cell s NaN) as [-> |(c & Hc & ->)]; [done|by apply Hs].
Qed.

End FloatFacts.

(** ** The bounding-box intersection against its specification *)

Section SpatialMatcherSpec.

Variable geom : Type.
Variable intersects : geom → box → bool.
Variable intersection_area : geom → box → Q.
Variable LAD : list (string * geom).

Local Abbreviation IOU' := (IOU geom intersects intersection_area LAD).
Local Abbreviation ratio := (overlap_ratio geom intersection_area).
Local Abbreviation ratio_cells :=
  (ratio_cells geom intersects intersection_area).

Lemma ratio_cells_elem poly2 k l c :
  c ∈ ratio_cells poly2 k l →
  ∃ u, u ∈ l ∧ intersects u.2 poly2 = true ∧ c.2 = ratio u.2 poly2.
Proof.
  unfold ratio_cells. intros (row & -> & Hrow)%list_elem_of_fmap.
  apply list_elem_of_filter in Hrow as [Hi Hrow].
  apply elem_of_lookup_imap in Hrow as (i & u & -> & Hu).
  exists u. split; [by eapply list_elem_of_lookup_2|done].
Qed.

Lemma ratio_cells_app poly2 name g before after :
  intersects g poly2 = true →
  ratio_cells poly2 0 (before ++ (name, g) :: after)
  = ratio_cells poly2 0 before
    ++ (length before, ratio g poly2)
    :: ratio_cells poly2 (S (length before)) after.
Proof.
  intros Hi. unfold ratio_cells.
  rewrite imap_app, filter_app, fmap_app. f_equal.
  rewrite imap_cons, filter_cons_True by done.
  rewrite fmap_cons. cbn [fst snd]. rewrite Nat.add_0_r. f_equal.
  f_equal. f_equal. apply imap_ext. intros i x _. simpl. f_equal. lia.
Qed.

Lemma IOU_finite (south west north east : Q) :
  (north - south <= 2)%Q →
  let poly2 := {| minx := west; miny := south;
                  maxx := east; maxy := north |} in
  IOU' [Num south; Num west; Num north; Num east]
  = if fgt (series_max (ratio_cells poly2 0 LAD)) (6 # 10) then
      match series_idxmax (ratio_cells poly2 0 LAD) with
      | Some i => default "" (fst <$> LAD !! i)
      | None => ""
      end
    else "".
Proof.
  intros Hspan poly2. unfold IOU. cbn [isnan fsub orb fgt geometry_box].
  assert (Qlt_bool 2 (north - south) = false) as ->
    by by apply Qlt_bool_false.
  done.
Qed.

(** C6: [IOU] gives [''] when a bound of the box is missing (NaN) or when
    its vertical span is above 2.  For a box with four finite bounds and
    a span of at most 2: when the best ratio
    [area(unit ∩ box) / area(box)] among the units that intersect the box
    is above 0.6, [IOU] gives the name of the first unit that has this
    best ratio; when no unit that intersects the box has a ratio above
    0.6, it gives ['']; so a box of positive area that lies inside one
    unit (their intersection has the area of the box) and meets no other
    unit gives that unit. *)
Theorem IOU_best_overlap :
  (∀ y1 x1 y2 x2,
     isnan y1 = true ∨ isnan x1 = true ∨ isnan y2 = true
     ∨ isnan x2 = true ∨ fgt (fsub y2 y1) 2 = true →
     IOU' [y1; x1; y2; x2] = "")
  ∧ (∀ south west north east : Q,
       (north - south <= 2)%Q →
       let poly2 := {| minx := west; miny := south;
                       maxx := east; maxy := north |} in
       let se := [Num south; Num west; Num north; Num east] in
       let r := fun g => (intersection_area g poly2 / box_area poly2)%Q in
       (∀ before name g after,
          LAD = before ++ (name, g) :: after →
          (0 < box_area poly2)%Q →
          intersects g poly2 = true →
          (6 # 10 < r g)%Q →
          (∀ u, u ∈ before → intersects u.2 poly2 = true →
                (r u.2 < r g)%Q) →
          (∀ u, u ∈ after → intersects u.2 poly2 = true →
                (r u.2 <= r g)%Q) →
          IOU' se = name)
       ∧ ((∀ u, u ∈ LAD → intersects u.2 poly2 = true →
                fgt (ratio u.2 poly2) (6 # 10) = false) →
          IOU' se = "")
       ∧ (∀ before name g after,
            LAD = before ++ (name, g) :: after →
            (0 < box_area poly2)%Q →
            intersects g poly2 = true →
            (intersection_area g poly2 == box_area poly2)%Q →
            (∀ u, u ∈ before ++ after → intersects u.2 poly2 = false) →
            IOU' se = name)).
Proof.
  assert (∀ south west north east : Q,
       (north - south <= 2)%Q →
       let poly2 := {| minx := west; miny := south;
                       maxx := east; maxy := north |} in
       let se := [Num south; Num west; Num north; Num east] in
       let r := fun g => (intersection_area g poly2 / box_area poly2)%Q in
       ∀ before name g after,
          LAD = before ++ (name, g) :: after →
          (0 < box_area poly2)%Q →
          intersects g poly2 = true →
          (6 # 10 < r g)%Q →
          (∀ u, u ∈ before → intersects u.2 poly2 = true →
                (r u.2 < r g)%Q) →
          (∀ u, u ∈ after → intersects u.2 poly2 = true →
                (r u.2 <= r g)%Q) →
          IOU' se = name) as Hbest.
  { intros south west north east Hspan poly2 se r before name g after
      HLAD Harea Hi Hgt Hb Ha.
    unfold se. rewrite IOU_finite by done. fold poly2.
    assert (∀ g', ratio g' poly2 = Num (r g')) as Hratio.
    { intros g'. unfold overlap_ratio. by rewrite fdiv_pos. }
    rewrite HLAD. rewrite ratio_cells_app by done.
    destruct (series_first_max (ratio_cells poly2 0 before)
                (ratio_cells poly2 (S (length before)) after)
                (length before) (ratio g poly2)) as [-> ->].
    - by rewrite Hratio.
    - intros c (u & Hu & Hiu & ->)%ratio_cells_elem. right.
      rewrite !Hratio. cbn [flt]. apply Qlt_bool_iff. by apply Hb.
    - intros c (u & Hu & Hiu & ->)%ratio_cells_elem. right.
      rewrite !Hratio. cbn [flt]. apply Qlt_bool_false. by apply Ha.
    - rewrite Hratio. cbn [fgt].
      assert (Qlt_bool (6 # 10) (r g) = true) as ->
        by by apply Qlt_bool_iff.
      by rewrite list_lookup_middle. }
  split; [|intros south west north east Hspan poly2 se r;
           split; [|split]].
  - intros y1 x1 y2 x2 H. unfold IOU.
    destruct (isnan y1) eqn:E1; [done|].
    destruct (fgt (fsub y2 y1) 2) eqn:Espan; [done|]. cbn [orb].
    destruct H as [?|[H|[H|[H|?]]]]; try done;
      destruct x1, y1, y2, x2; done.
  - by apply Hbest.
  - intros Hlow. unfold se. rewrite IOU_finite by done. fold poly2.
    rewrite series_max_not_above; [done|].
    intros c (u & Hu & Hiu & ->)%ratio_cells_elem. by apply Hlow.
  - intros before name g after HLAD Harea Hi Hin Hothers.
    apply (Hbest south west north east Hspan before name g after);
      try done.
    + fold poly2. rewrite Hin. unfold Qdiv. rewrite Qmult_inv_r.
      * done.
      * intros H0. rewrite H0 in Harea. by apply Qlt_irrefl in Harea.
    + intros u Hu Hiu. rewrite Hothers in Hiu; [done|set_solver].
    + intros u Hu Hiu. rewrite Hothers in Hiu; [done|set_solver].
Qed.

End SpatialMatcherSpec.

(** ** pandas helpers *)

Lemma sum_list_cons (x : nat) (l : list nat) :
  sum_list (x :: l) = x + sum_list l.
Proof. done. Qed.

Section PandasFacts.
Context `{EqDecision A}.
Implicit Types l : list A.

Lemma elem_of_drop_duplicates l x : x ∈ drop_duplicates l ↔ x ∈ l.
Proof.
  unfold drop_duplicates.
  by rewrite elem_of_reverse, elem_of_remove_dups, elem_of_reverse.
Qed.

Lemma NoDup_drop_duplicates l : NoDup (drop_duplicates l).
Proof.
  unfold drop_duplicates. rewrite reverse_Permutation.
  apply NoDup_remove_dups.
Qed.

Lemma occurrences_cons x y l :
  occurrences x (y :: l)
  = (if decide (y = x) then 1 else 0) + occurrences x l.
Proof.
  unfold occurrences. rewrite filter_cons. by case_decide.
Qed.

Lemma occurrences_pos x l : x ∈ l → 1 ≤ occurrences x l.
Proof.
  induction 1 as [x l|x y l Hin IH]; rewrite occurrences_cons.
  - rewrite decide_True by done. lia.
  - lia.
Qed.

Lemma sum_indicator (y : A) (ks : list A) :
  NoDup ks →
  sum_list ((fun k => if decide (y = k) then 1 else 0) <$> ks)
  = if decide (y ∈ ks) then 1 else 0.
Proof.
  induction 1 as [|k ks Hk Hks IH]; [done|].
  rewrite fmap_cons, sum_list_cons, IH.
  destruct (decide (y = k)) as [->|Hne].
  - rewrite decide_False by done. rewrite decide_True; [done|by left].
  - destruct (decide (y ∈ ks)).
    + rewrite decide_True; [done|by right].
    + rewrite decide_False; [done|]. by intros [?|?]%elem_of_cons.
Qed.

Lemma sum_occurrences_cons (y : A) (ks : list A) l :
  sum_list ((fun k => occurrences k (y :: l)) <$> ks)
  = sum_list ((fun k => if decide (y = k) then 1 else 0) <$> ks)
    + sum_list ((fun k => occurrences k l) <$> ks).
Proof.
  induction ks as [|k ks IHk]; [done|].
  rewrite !fmap_cons, !sum_list_cons, IHk, occurrences_cons. lia.
Qed.

(** Counting by distinct values: the counts of the values that satisfy
    [P] add up to the number of elements that satisfy [P]. *)
Lemma sum_occurrences (P : A → Prop) `{∀ x, Decision (P x)} ks l :
  NoDup ks → (∀ k, k ∈ ks → P k) → (∀ x, x ∈ l → P x → x ∈ ks) →
  sum_list ((fun k => occurrences k l) <$> ks) = length (filter P l).
Proof.
  intros Hnd HP. induction l as [|y l IH]; intros Hall.
  - clear. induction ks as [|k ks IHk]; [done|].
    by rewrite fmap_cons, sum_list_cons, IHk.
  - rewrite sum_occurrences_cons, sum_indicator by done.
    rewrite IH by set_solver.
    rewrite filter_cons. destruct (decide (P y)) as [Hy|Hy].
    + rewrite decide_True by set_solver. done.
    + rewrite decide_False; [done|]. intros ?. by apply Hy, HP.
Qed.

#[global] Instance count_ge_trans {B} : Transitive (@count_ge B).
Proof. unfold count_ge. intros x y z ??. lia. Qed.

#[global] Instance count_ge_total {B} : Total (@count_ge B).
Proof. unfold count_ge. intros x y. lia. Qed.

Lemma value_counts_perm l :
  value_counts l ≡ₚ (fun x => (x, occurrences x l)) <$> drop_duplicates l.
Proof. apply merge_sort_Permutation. Qed.

Lemma value_counts_sorted l : StronglySorted count_ge (value_counts l).
Proof. apply StronglySorted_merge_sort; apply _. Qed.

Lemma elem_of_value_counts l x n :
  (x, n) ∈ value_counts l ↔ x ∈ l ∧ n = occurrences x l.
Proof.
  rewrite value_counts_perm, list_elem_of_fmap. split.
  - intros (y & Heq & Hy). injection Heq as -> ->.
    by rewrite elem_of_drop_duplicates in Hy.
  - intros [Hx ->]. exists x. by rewrite elem_of_drop_duplicates.
Qed.

Lemma NoDup_value_counts l : NoDup (fst <$> value_counts l).
Proof.
  rewrite value_counts_perm, <- list_fmap_compose.
  replace (fst ∘ (fun x : A => (x, occurrences x l)) <$> drop_duplicates l)
    with (drop_duplicates l).
  - apply NoDup_drop_duplicates.
  - induction (drop_duplicates l) as [|x k IH]; [done|].
    by rewrite fmap_cons, <- IH.
Qed.

End PandasFacts.

Section KeyedTables.
Context {A K : Type} `{EqDecision K} (key : A → K).
Implicit Types l : list A.

Lemma filter_key_absent l k :
  k ∉ key <$> l → filter (fun a => key a = k) l = [].
Proof.
  induction l as [|a l IH]; intros Hk; [done|].
  rewrite filter_cons_False; [|intros <-; set_solver].
  apply IH. set_solver.
Qed.

(** In a table with distinct keys the rows of a key are one row at
    most. *)
Lemma filter_key_NoDup l a :
  NoDup (key <$> l) → a ∈ l →
  filter (fun b => key b = key a) l = [a].
Proof.
  induction l as [|a' l IH]; intros Hnd Hin.
  - by apply elem_of_nil in Hin.
  - rewrite fmap_cons in Hnd. apply NoDup_cons in Hnd as [Hk' Hnd].
    rewrite filter_cons. apply elem_of_cons in Hin as [->|Hin].
    + rewrite decide_True by done. f_equal. by apply filter_key_absent.
    + rewrite decide_False; [by apply IH|].
      intros Heq. apply Hk'. rewrite Heq. apply list_elem_of_fmap.
      by exists a.
Qed.

Lemma filter_key_length l k :
  NoDup (key <$> l) → length (filter (fun b => key b = k) l) ≤ 1.
Proof.
  intros Hnd. destruct (filter (fun b => key b = k) l) as [|a r] eqn:E;
    [simpl; lia|].
  assert (a ∈ filter (fun b => key b = k) l) as Ha
    by (rewrite E; by left).
  apply list_elem_of_filter in Ha as [<- Ha].
  rewrite (filter_key_NoDup l a Hnd Ha) in E. by injection E as <-.
Qed.

End KeyedTables.

Lemma value_counts_filter_key `{EqDecision A} (l : list A) x :
  filter (fun a => a.1 = x) (value_counts l)
  = if decide (x ∈ l) then [(x, occurrences x l)] else [].
Proof.
  case_decide as Hx.
  - apply (filter_key_NoDup fst _ (x, occurrences x l));
      [apply NoDup_value_counts|].
    by apply elem_of_value_counts.
  - apply (filter_key_absent fst). intros ([y n] & -> & Hy)%list_elem_of_fmap.
    apply elem_of_value_counts in Hy as [? _]. done.
Qed.

(** ** The threshold loop *)

Section ThresholdLoop.

Variable count_df : list ((Z * string) * nat).

Lemma localize_userid r : userid (localize count_df r) = userid r.
Proof. unfold localize. by destruct (home r). Qed.

(** The loop rewrites the first [n] rows and leaves the others. *)
Lemma threshold_loop_take_drop n df :
  threshold_loop count_df n df
  = (localize count_df <$> take n df) ++ drop n df.
Proof.
  unfold threshold_loop. induction n as [|n IH]; [done|].
  rewrite seq_S, foldl_app, IH. cbn [foldl]. clear IH.
  destruct (df !! n) as [r|] eqn:E.
  - assert (length (localize count_df <$> take n df) = n) as Hlen.
    { rewrite length_fmap, length_take.
      apply lookup_lt_Some in E. lia. }
    rewrite lookup_app_r by lia. rewrite Hlen, Nat.sub_diag.
    rewrite (drop_S _ _ _ E). cbn [lookup list_lookup].
    rewrite (take_S_r _ _ _ E), fmap_app, <- app_assoc. cbn [fmap list_fmap app].
    assert (localize count_df r
            = match home r with
              | Some _ => r
              | None => with_home r
                          (Some (user_localization count_df (userid r)))
              end) as -> by done.
    destruct (home r) eqn:Eh; [done|].
    rewrite Nat.add_0_l, insert_app_r_alt by lia.
    by rewrite Hlen, Nat.sub_diag.
  - apply lookup_ge_None in E.
    rewrite lookup_ge_None_2
      by (rewrite length_app, length_fmap, length_take, length_drop; lia).
    by rewrite !take_ge, !drop_ge by lia.
Qed.

End ThresholdLoop.

Lemma filter_fmap {A B} (P : B → Prop) `{∀ x, Decision (P x)}
    (f : A → B) (l : list A) :
  filter P (f <$> l) = f <$> filter (fun a => P (f a)) l.
Proof.
  induction l as [|a l IH]; [done|].
  rewrite fmap_cons, !filter_cons, IH. by case_decide.
Qed.

Lemma filter_all {A} (P : A → Prop) `{∀ x, Decision (P x)} (l : list A) :
  Forall P l → filter P l = l.
Proof.
  induction 1 as [|x l Hx Hl IH]; [done|].
  by rewrite filter_cons_True, IH.
Qed.

Lemma filter_none {A} (P : A → Prop) `{∀ x, Decision (P x)} (l : list A) :
  Forall (fun x => ¬ P x) l → filter P l = [].
Proof.
  induction 1 as [|x l Hx Hl IH]; [done|].
  by rewrite filter_cons_False.
Qed.

Lemma filter_comm {A} (P Q : A → Prop)
    `{∀ x, Decision (P x), ∀ x, Decision (Q x)} (l : list A) :
  filter P (filter Q l) = filter Q (filter P l).
Proof.
  induction l as [|x l IH]; [done|].
  rewrite !filter_cons.
  destruct (decide (Q x)), (decide (P x));
    rewrite ?filter_cons_True, ?filter_cons_False, ?IH by done; done.
Qed.

(** In a table sorted by descending count, with no count below 2, the rows
    with count 2 come last. *)
Lemma sorted_twos_last {A} (l : list (A * nat)) :
  StronglySorted count_ge l → Forall (fun a => 1 < a.2) l →
  l = filter (fun a => a.2 ≠ 2) l ++ filter (fun a => a.2 = 2) l.
Proof.
  induction 1 as [|x l Hl IH Hx]; intros Hall; [done|].
  apply Forall_cons in Hall as [Hx1 Hall].
  destruct (decide (x.2 = 2)) as [Hx2|Hx2].
  - assert (Forall (fun a : A * nat => a.2 = 2) l) as Htwo.
    { apply Forall_forall. intros y Hy.
      pose proof (proj1 (Forall_forall _ _) Hx y Hy) as Hle.
      pose proof (proj1 (Forall_forall _ _) Hall y Hy) as Hlt.
      unfold count_ge in Hle. simpl in *. lia. }
    rewrite filter_cons_False by (intros ?; done).
    rewrite filter_cons_True by done.
    rewrite (filter_all (fun a : A * nat => a.2 = 2)) by done.
    rewrite filter_none; [done|].
    eapply Forall_impl; [apply Htwo|]. intros y Hy ?. done.
  - rewrite filter_cons_True by done. rewrite filter_cons_False by done.
    rewrite <- app_comm_cons. f_equal. by apply IH.
Qed.

(** A left merge against a table with at most one row per key. *)
Lemma merge_left_functional {A B} (key_l : A → Z) (key_r : B → Z)
    (left : list A) (right : list B) :
  (∀ a, a ∈ left →
        length (filter (fun b => key_r b = key_l a) right) ≤ 1) →
  merge_left key_l key_r left right
  = (fun a => (a, head (filter (fun b => key_r b = key_l a) right)))
      <$> left.
Proof.
  unfold merge_left. induction left as [|a left IH]; intros Hone; [done|].
  rewrite bind_cons, fmap_cons, IH by (intros; apply Hone; by right).
  pose proof (Hone a ltac:(by left)) as Ha.
  destruct (filter (fun b => key_r b = key_l a) right) as [|b [|b' bs]];
    [done|done|simpl in Ha; lia].
Qed.

Lemma occurrences_fst (u : Z) (l : list (Z * string)) :
  occurrences u (fst <$> l) = length (filter (fun b => b.1 = u) l).
Proof.
  induction l as [|b l IH]; [done|].
  rewrite fmap_cons, occurrences_cons, filter_cons, IH. by case_decide.
Qed.

Section UserHomeFacts.

Variable twitter_LAD : list (Z * string).

Local Abbreviation pairs := (user_loc_pair twitter_LAD).
Local Abbreviation count_df := (twitter_LAD_count_df twitter_LAD).

Lemma user_loc_count_rows u :
  filter (fun a => a.1 = u)
    (filter (fun r => r.2 = 1) (user_loc_count twitter_LAD))
  = if decide (length (filter (fun b => b.1 = u) pairs) = 1)
    then [(u, 1)] else [].
Proof.
  rewrite filter_comm. unfold user_loc_count. rewrite value_counts_filter_key.
  rewrite occurrences_fst. case_decide as Hin.
  - rewrite filter_cons, filter_nil. cbn [snd].
    repeat case_decide; try done; congruence.
  - rewrite filter_nil. rewrite decide_False; [done|].
    intros Hlen. apply Hin. rewrite <- occurrences_fst in Hlen.
    destruct (decide (u ∈ fst <$> pairs)) as [?|Hn]; [done|].
    exfalso. revert Hlen. unfold occurrences.
    rewrite filter_none; [done|].
    apply Forall_forall. intros y Hy ->. done.
Qed.

Lemma user_oneloc_eq :
  user_oneloc twitter_LAD
  = (fun a : Z * nat =>
       (a.1, snd <$> head (filter (fun b => b.1 = a.1) pairs)))
      <$> filter (fun r => r.2 = 1) (user_loc_count twitter_LAD).
Proof.
  unfold user_oneloc. rewrite merge_left_functional.
  - by rewrite <- list_fmap_compose.
  - intros [u n] [Hn Hin]%list_elem_of_filter. cbn [fst snd] in *. subst n.
    apply elem_of_value_counts in Hin as [_ Hocc].
    rewrite occurrences_fst in Hocc. by rewrite <- Hocc.
Qed.

(** The rows of [user_oneloc] for a user. *)
Lemma user_oneloc_rows u :
  filter (fun b => b.1 = u) (user_oneloc twitter_LAD)
  = match oneloc_home twitter_LAD u with
    | Some X => [(u, Some X)]
    | None => []
    end.
Proof.
  rewrite user_oneloc_eq, filter_fmap. cbn [fst].
  rewrite user_loc_count_rows. unfold oneloc_home.
  destruct (filter (fun b => b.1 = u) pairs) as [|b [|b' bs]] eqn:E;
    try done.
  rewrite decide_True by done. cbn [fmap list_fmap fst]. by rewrite E.
Qed.

(** The merged table, row by row. *)
Lemma user_LAD_merged_rows :
  user_LAD_merged twitter_LAD
  = merged_row twitter_LAD <$> user_LAD_counts twitter_LAD.
Proof.
  unfold user_LAD_merged. rewrite merge_left_functional.
  - rewrite <- list_fmap_compose. apply list_fmap_ext.
    intros i [u n] _. unfold merged_row. cbn [compose fst snd].
    f_equal. rewrite user_oneloc_rows.
    by destruct (oneloc_home twitter_LAD u).
  - intros [u n] _. cbn [fst]. rewrite user_oneloc_rows.
    destruct (oneloc_home twitter_LAD u); simpl; lia.
Qed.

End UserHomeFacts.

Lemma StronglySorted_filter {A} (R : relation A) (P : A → Prop)
    `{∀ x, Decision (P x)} (l : list A) :
  StronglySorted R l → StronglySorted R (filter P l).
Proof.
  induction 1 as [|x l Hl IH Hx]; [constructor|].
  rewrite filter_cons. case_decide; [|done].
  constructor; [done|]. apply Forall_forall.
  intros y [_ Hy]%list_elem_of_filter.
  by apply (proj1 (Forall_forall _ _) Hx).
Qed.

(** The head of a sorted table is related to all its rows. *)
Lemma StronglySorted_head {A} (R : relation A) (l : list A) x y :
  StronglySorted R l → head l = Some x → y ∈ l → y = x ∨ R x y.
Proof.
  intros Hs Hh Hy. destruct l as [|x' l]; [done|]. injection Hh as ->.
  apply StronglySorted_inv in Hs as [_ Hx].
  apply elem_of_cons in Hy as [->|Hy]; [by left|right].
  by apply (proj1 (Forall_forall _ _) Hx).
Qed.

Section UserHomeTable.

Variable twitter_LAD : list (Z * string).

Local Abbreviation count_df := (twitter_LAD_count_df twitter_LAD).
Local Abbreviation row := (merged_row twitter_LAD).
Local Abbreviation final := (final_row twitter_LAD).

Lemma threshold_split (L1 L2 : list (Z * nat)) :
  Forall (fun a => a.2 ≠ 2) L1 → Forall (fun a => a.2 = 2) L2 →
  threshold_loop count_df
    (length (row <$> L1 ++ L2)
     - length (filter (fun r => counts r = 2) (row <$> L1 ++ L2)))
    (row <$> L1 ++ L2)
  = final <$> (row <$> L1 ++ L2).
Proof.
  intros H1 H2. rewrite threshold_loop_take_drop.
  assert (filter (fun r => counts r = 2) (row <$> L1 ++ L2) = row <$> L2)
    as ->.
  { rewrite fmap_app, filter_app.
    rewrite (filter_none _ (row <$> L1)), (filter_all _ (row <$> L2)).
    - done.
    - apply Forall_fmap. eapply Forall_impl; [apply H2|]. by intros [].
    - apply Forall_fmap. eapply Forall_impl; [apply H1|]. by intros [].
  }
  rewrite !fmap_app, length_app, !length_fmap.
  replace (length L1 + length L2 - length L2) with (length L1) by lia.
  rewrite take_app_length', drop_app_length' by by rewrite length_fmap.
  f_equal.
  - apply list_fmap_ext. intros i r [a [-> Ha]]%list_lookup_fmap_Some.
    unfold final_row. rewrite decide_False; [done|].
    apply list_elem_of_lookup_2 in Ha.
    by apply (proj1 (Forall_forall _ _) H1) in Ha.
  - rewrite <- (list_fmap_id (row <$> L2)) at 1.
    apply list_fmap_ext. intros i r [a [-> Ha]]%list_lookup_fmap_Some.
    unfold final_row. rewrite decide_True; [done|].
    apply list_elem_of_lookup_2 in Ha.
    by apply (proj1 (Forall_forall _ _) H2) in Ha.
Qed.

Lemma user_LAD_counts_sorted :
  StronglySorted count_ge (user_LAD_counts twitter_LAD).
Proof. apply StronglySorted_filter, value_counts_sorted. Qed.

Lemma user_LAD_counts_above_one :
  Forall (fun a => 1 < a.2) (user_LAD_counts twitter_LAD).
Proof.
  apply Forall_forall. by intros a [? _]%list_elem_of_filter.
Qed.

(** The table written for the month, row by row: the rows with count 2
    are those the loop does not reach. *)
Lemma user_home_rows :
  user_home twitter_LAD = final <$> user_LAD_merged twitter_LAD.
Proof.
  unfold user_home, endline. rewrite user_LAD_merged_rows.
  rewrite (sorted_twos_last (user_LAD_counts twitter_LAD)
             user_LAD_counts_sorted user_LAD_counts_above_one).
  apply threshold_split; apply Forall_forall;
    by intros a [? _]%list_elem_of_filter.
Qed.

Lemma user_home_every_row_rows :
  user_home_every_row twitter_LAD
  = localize count_df <$> user_LAD_merged twitter_LAD.
Proof.
  unfold user_home_every_row. rewrite threshold_loop_take_drop.
  by rewrite take_ge, drop_ge, app_nil_r by lia.
Qed.

(** The row of a user in [user_LAD]: there is one when the user has more
    than one post. *)
Lemma user_LAD_counts_rows u :
  filter (fun a => a.1 = u) (user_LAD_counts twitter_LAD)
  = if decide (1 < posts_of u twitter_LAD)
    then [(u, posts_of u twitter_LAD)] else [].
Proof.
  unfold user_LAD_counts, posts_of. rewrite filter_comm.
  rewrite value_counts_filter_key. case_decide as Hin.
  - rewrite filter_cons, filter_nil. cbn [snd]. by repeat case_decide.
  - rewrite filter_nil. rewrite decide_False; [done|].
    unfold occurrences. rewrite filter_none; [simpl; lia|].
    apply Forall_forall. by intros y Hy ->.
Qed.

(** The home written for a user. *)
Lemma home_of_user_home u :
  home_of (user_home twitter_LAD) u
  = if decide (1 < posts_of u twitter_LAD)
    then home (final (row (u, posts_of u twitter_LAD)))
    else None.
Proof.
  unfold home_of. rewrite user_home_rows, user_LAD_merged_rows.
  rewrite <- list_fmap_compose, filter_fmap.
  assert (filter (fun a => userid ((final ∘ row) a) = u)
            (user_LAD_counts twitter_LAD)
          = filter (fun a => a.1 = u) (user_LAD_counts twitter_LAD)) as ->.
  { apply list_filter_iff. intros a. unfold compose, final_row.
    case_decide; [done|]. by rewrite localize_userid. }
  rewrite user_LAD_counts_rows. by case_decide.
Qed.

End UserHomeTable.

(** ** [user_localization] *)

(** The float comparison on a share, on the counts themselves. *)
Lemma share_exceeds_65 (mx sm : nat) :
  0 < sm → share_exceeds mx sm (65 # 100) = true ↔ 65 * sm < 100 * mx.
Proof.
  intros Hsm. unfold share_exceeds. rewrite Qlt_bool_iff.
  destruct sm as [|k]; [lia|].
  unfold Qlt, Qdiv, Qmult, Qinv, inject_Z.
  rewrite Nat2Z.inj_succ. unfold Z.succ.
  destruct (Z.of_nat k + 1)%Z as [|p|p] eqn:E; [lia| |lia].
  cbn [Qnum Qden]. rewrite Pos.mul_1_l. lia.
Qed.

Lemma length_le_sum_list {A} (f : A → nat) (l : list A) :
  (∀ x, x ∈ l → 1 ≤ f x) → length l ≤ sum_list (f <$> l).
Proof.
  induction l as [|x l IH]; intros Hf; [done|].
  rewrite fmap_cons, sum_list_cons. cbn [length].
  pose proof (Hf x ltac:(by left)). pose proof (IH ltac:(set_solver)). lia.
Qed.

(** A list without repetition that is not a single element has an element
    other than any given one. *)
Lemma NoDup_other `{EqDecision A} (l : list A) x :
  NoDup l → x ∈ l → (∀ y, l ≠ [y]) → ∃ y, y ∈ l ∧ y ≠ x.
Proof.
  intros Hnd Hx Hns. destruct l as [|a [|b l]].
  - by apply elem_of_nil in Hx.
  - by destruct (Hns a).
  - apply NoDup_cons in Hnd as [Hab _].
    destruct (decide (a = x)) as [->|Hne].
    + exists b. split; [set_solver|]. intros ->. set_solver.
    + exists a. split; [set_solver|done].
Qed.

Lemma NoDup_single {A} (l : list A) x :
  NoDup l → x ∈ l → (∀ y, y ∈ l → y = x) → l = [x].
Proof.
  intros Hnd Hx Hall. destruct l as [|a [|b l]].
  - by apply elem_of_nil in Hx.
  - by rewrite (Hall a) by set_solver.
  - apply NoDup_cons in Hnd as [Hab _]. exfalso. apply Hab.
    rewrite (Hall a), (Hall b) by set_solver. by left.
Qed.

Section UserLocalization.

Variable twitter_LAD : list (Z * string).
Variable u : Z.

Local Abbreviation count_df := (twitter_LAD_count_df twitter_LAD).
Local Abbreviation pairs := (user_loc_pair twitter_LAD).
Local Abbreviation total := (posts_of u twitter_LAD).

Local Abbreviation temp_rows := (temp_rows twitter_LAD u).
Local Abbreviation user_pairs := (user_pairs twitter_LAD u).

Lemma temp_rows_perm :
  temp_rows
  ≡ₚ (fun x => (x, occurrences x twitter_LAD)) <$> user_pairs.
Proof.
  unfold temp_rows, twitter_LAD_count_df, user_pairs.
  rewrite value_counts_perm. by rewrite filter_fmap.
Qed.

Lemma elem_of_user_pairs x : x ∈ user_pairs ↔ x.1 = u ∧ x ∈ twitter_LAD.
Proof.
  unfold user_pairs, user_loc_pair.
  by rewrite list_elem_of_filter, elem_of_drop_duplicates.
Qed.

Lemma NoDup_user_pairs : NoDup user_pairs.
Proof. apply NoDup_filter, NoDup_drop_duplicates. Qed.

Lemma elem_of_temp_rows x c :
  (x, c) ∈ temp_rows
  ↔ x.1 = u ∧ x ∈ twitter_LAD ∧ c = occurrences x twitter_LAD.
Proof.
  unfold temp_rows, twitter_LAD_count_df.
  rewrite list_elem_of_filter, elem_of_value_counts. naive_solver.
Qed.

Lemma temp_rows_sorted : StronglySorted count_ge temp_rows.
Proof. apply StronglySorted_filter, value_counts_sorted. Qed.

(** [temp_df.counts.sum()] is the number of posts of the user. *)
Lemma temp_rows_sum : sum_list (snd <$> temp_rows) = total.
Proof.
  rewrite temp_rows_perm, <- list_fmap_compose.
  unfold posts_of. rewrite occurrences_fst.
  apply (sum_occurrences (fun x : Z * string => x.1 = u)).
  - apply NoDup_user_pairs.
  - by intros k [? _]%elem_of_user_pairs.
  - intros x ??. by apply elem_of_user_pairs.
Qed.

Lemma user_pairs_length_le : length user_pairs ≤ total.
Proof.
  rewrite <- temp_rows_sum, temp_rows_perm, <- list_fmap_compose.
  apply length_le_sum_list. intros x [_ Hx]%elem_of_user_pairs.
  by apply occurrences_pos.
Qed.

Lemma user_pairs_nonempty : 0 < total → user_pairs ≠ [].
Proof.
  intros Htot He. rewrite <- temp_rows_sum, temp_rows_perm, He in Htot.
  simpl in Htot. lia.
Qed.

(** Two localities of the user share its posts. *)
Lemma two_localities x y :
  x ≠ y → x.1 = u → y.1 = u →
  occurrences x twitter_LAD + occurrences y twitter_LAD ≤ total.
Proof.
  intros Hne Hx Hy. unfold posts_of.
  induction twitter_LAD as [|p l IH]; [done|].
  rewrite fmap_cons, !occurrences_cons.
  repeat case_decide; simplify_eq; lia.
Qed.

Lemma max_count_row :
  temp_rows ≠ [] →
  ∃ X, (u, X) ∈ twitter_LAD
       ∧ max_list (snd <$> temp_rows) = occurrences (u, X) twitter_LAD.
Proof.
  intros Hne.
  assert (max_list (snd <$> temp_rows) ∈ snd <$> temp_rows) as Hin.
  { apply max_list_elem_of. by destruct temp_rows. }
  apply list_elem_of_fmap in Hin as ([[u' X] c] & Hc & Hin).
  apply elem_of_temp_rows in Hin as (Hu & Hin & ->).
  cbn [fst snd] in *. subst u'. by exists X.
Qed.

(** A locality with more than 65% of the user's posts is what
    [user_localization] returns, when the user has more than one post. *)
Lemma user_localization_modal X :
  1 < total → 65 * total < 100 * occurrences (u, X) twitter_LAD →
  user_localization count_df u = X.
Proof.
  intros Htot Hshare. unfold user_localization. fold temp_rows.
  rewrite temp_rows_sum.
  assert ((u, X) ∈ twitter_LAD) as HX.
  { destruct (decide ((u, X) ∈ twitter_LAD)) as [|Hn]; [done|].
    exfalso. unfold occurrences in Hshare.
    rewrite filter_none in Hshare; [simpl in Hshare; lia|].
    apply Forall_forall. by intros y Hy ->. }
  assert (((u, X), occurrences (u, X) twitter_LAD) ∈ temp_rows) as Hrow
    by by apply elem_of_temp_rows.
  assert ((1 <? total) = true) as -> by by apply Nat.ltb_lt.
  assert (share_exceeds (max_list (snd <$> temp_rows)) total (65 # 100)
          = true) as ->.
  { apply share_exceeds_65; [lia|].
    assert (occurrences (u, X) twitter_LAD
            ≤ max_list (snd <$> temp_rows)); [|lia].
    apply max_list_elem_of_le, list_elem_of_fmap.
    by exists ((u, X), occurrences (u, X) twitter_LAD). }
  cbn [andb]. destruct (head temp_rows) as [[x0 c0]|] eqn:Eh; cycle 1.
  { apply head_None in Eh. rewrite Eh in Hrow. by apply elem_of_nil in Hrow. }
  cbn [fmap option_fmap option_map default fst snd].
  pose proof (head_Some_elem_of _ _ Eh) as Hx0.
  apply elem_of_temp_rows in Hx0 as (Hu0 & Hin0 & ->).
  destruct (StronglySorted_head _ _ _ _ temp_rows_sorted Eh Hrow)
    as [Heq|Hge].
  - by injection Heq as <-.
  - unfold count_ge in Hge. cbn [snd] in Hge.
    destruct (decide (x0 = (u, X))) as [->|Hne]; [done|].
    pose proof (two_localities x0 (u, X) Hne Hu0 eq_refl). lia.
Qed.

(** When no locality has more than 65% of the user's posts,
    [user_localization] returns the empty string. *)
Lemma user_localization_none :
  (∀ X, 100 * occurrences (u, X) twitter_LAD ≤ 65 * total) →
  user_localization count_df u = "".
Proof.
  intros Hlow. unfold user_localization. fold temp_rows.
  rewrite temp_rows_sum.
  destruct (1 <? total) eqn:Et; [|done]. apply Nat.ltb_lt in Et.
  destruct (share_exceeds (max_list (snd <$> temp_rows)) total (65 # 100))
    eqn:Es; [|done].
  apply share_exceeds_65 in Es; [|lia]. exfalso.
  destruct (decide (temp_rows = [])) as [He|Hne].
  - rewrite He in Es. simpl in Es. lia.
  - destruct (max_count_row Hne) as (X & _ & Hmax).
    rewrite Hmax in Es. specialize (Hlow X). lia.
Qed.

Lemma oneloc_home_None_iff :
  oneloc_home twitter_LAD u = None ↔ ∀ y, user_pairs ≠ [y].
Proof.
  unfold oneloc_home. fold user_pairs.
  destruct user_pairs as [|a [|b l]]; split; try done.
  intros H. by destruct (H a).
Qed.

(** A user with two posts and no single locality gets the empty string:
    each of its two localities has half of the posts. *)
Lemma user_localization_two_posts :
  total = 2 → oneloc_home twitter_LAD u = None →
  user_localization count_df u = "".
Proof.
  intros Htot Hnone. apply user_localization_none. intros X.
  destruct (decide ((u, X) ∈ twitter_LAD)) as [HX|HX]; cycle 1.
  { unfold occurrences. rewrite filter_none; [simpl; lia|].
    apply Forall_forall. by intros y Hy ->. }
  destruct (NoDup_other user_pairs (u, X)) as (y & Hy & Hne).
  - apply NoDup_user_pairs.
  - by apply elem_of_user_pairs.
  - by apply oneloc_home_None_iff.
  - apply elem_of_user_pairs in Hy as [Hyu Hy].
    pose proof (occurrences_pos _ _ Hy).
    pose proof (two_localities (u, X) y ltac:(done) eq_refl Hyu). lia.
Qed.

(** A user all of whose posts are in [X]. *)
Lemma oneloc_home_single X :
  0 < total → (∀ p, p ∈ twitter_LAD → p.1 = u → p.2 = X) →
  oneloc_home twitter_LAD u = Some X.
Proof.
  intros Htot Hall.
  assert (user_pairs = [(u, X)]) as Hp.
  { assert (∀ y, y ∈ user_pairs → y = (u, X)) as Hy.
    { intros [u' X'] [Hu Hin]%elem_of_user_pairs.
      cbn [fst] in Hu. subst u'. f_equal. by apply (Hall _ Hin). }
    apply NoDup_single; [apply NoDup_user_pairs| |done].
    destruct user_pairs as [|y l] eqn:E.
    - by destruct (user_pairs_nonempty Htot).
    - rewrite <- (Hy y); [by left|by left]. }
  unfold oneloc_home. fold user_pairs. by rewrite Hp.
Qed.

(** For a user with more than one post, all in one locality,
    [user_localization] returns this locality. *)
Lemma user_localization_oneloc X :
  1 < total → oneloc_home twitter_LAD u = Some X →
  user_localization count_df u = X.
Proof.
  intros Htot Hone. apply user_localization_modal; [done|].
  unfold oneloc_home in Hone. fold user_pairs in Hone.
  destruct user_pairs as [|[u' X'] [|b l]] eqn:E; try done.
  injection Hone as ->.
  assert ((u', X) ∈ user_pairs) as Hin by (rewrite E; by left).
  apply elem_of_user_pairs in Hin as [Hu _]. cbn [fst] in Hu. subst u'.
  pose proof temp_rows_sum as Hsum.
  rewrite temp_rows_perm, E in Hsum. cbn in Hsum. lia.
Qed.

End UserLocalization.

(** ** The monthly home against its specification *)

Section UserHomeSpec.

Variable twitter_LAD : list (Z * string).

Local Abbreviation count_df := (twitter_LAD_count_df twitter_LAD).

(** C1 (amended): a user with at least two posts in the month, all in one
    locality [X], gets [home = X]; a user with a single post has no row
    in the month's table. *)
Theorem one_locality_home (u : Z) (X : string) :
  (1 < posts_of u twitter_LAD →
   (∀ p, p ∈ twitter_LAD → p.1 = u → p.2 = X) →
   home_of (user_home twitter_LAD) u = Some X)
  ∧ (posts_of u twitter_LAD ≤ 1 →
     filter (fun r => userid r = u) (user_home twitter_LAD) = []).
Proof.
  split.
  - intros Htot Hall. rewrite home_of_user_home, decide_True by done.
    unfold final_row, merged_row, localize. cbn [counts home fst snd].
    rewrite (oneloc_home_single twitter_LAD u X) by (done || lia).
    by case_decide.
  - intros Htot. rewrite user_home_rows, user_LAD_merged_rows.
    rewrite <- list_fmap_compose, filter_fmap.
    rewrite (list_filter_iff _ (fun a : Z * nat => a.1 = u)).
    + rewrite user_LAD_counts_rows. rewrite decide_False; [done|lia].
    + intros a. unfold compose, final_row.
      case_decide; [done|]. by rewrite localize_userid.
Qed.

(** C2: for a user with more than one distinct locality in the month (who
    then has more than one post), a locality [X] whose share of the
    user's posts is above 0.65 (it is then the modal one) is the home, and
    when no locality has a share above 0.65 no home is assigned: the cell
    is NaN or the empty string. *)
Theorem threshold_home (u : Z) :
  2 ≤ length (filter (fun b => b.1 = u) (user_loc_pair twitter_LAD)) →
  1 < posts_of u twitter_LAD
  ∧ (∀ X, 65 * posts_of u twitter_LAD
          < 100 * occurrences (u, X) twitter_LAD →
          home_of (user_home twitter_LAD) u = Some X
          ∧ ∀ Y, occurrences (u, Y) twitter_LAD
                 ≤ occurrences (u, X) twitter_LAD)
  ∧ ((∀ X, 100 * occurrences (u, X) twitter_LAD
           ≤ 65 * posts_of u twitter_LAD) →
     home_of (user_home twitter_LAD) u = None
     ∨ home_of (user_home twitter_LAD) u = Some "").
Proof.
  intros Hloc. fold (user_pairs twitter_LAD u) in Hloc.
  pose proof (user_pairs_length_le twitter_LAD u) as Hle.
  assert (1 < posts_of u twitter_LAD) as Htot by lia.
  assert (oneloc_home twitter_LAD u = None) as Hnone.
  { apply oneloc_home_None_iff. intros y Hy. rewrite Hy in Hloc.
    simpl in Hloc. lia. }
  split; [done|]. rewrite home_of_user_home, decide_True by done.
  unfold final_row, merged_row, localize. cbn [counts home userid fst snd].
  rewrite Hnone. split.
  - intros X Hshare. split; cycle 1.
    { intros Y. destruct (decide (Y = X)) as [->|Hne]; [done|].
      pose proof (two_localities twitter_LAD u (u, Y) (u, X)
                    ltac:(congruence) eq_refl eq_refl). lia. }
    assert (posts_of u twitter_LAD ≠ 2) as Hn2.
    { intros H2.
      pose proof (user_localization_two_posts twitter_LAD u H2 Hnone) as He.
      pose proof (user_localization_modal twitter_LAD u X Htot Hshare)
        as HX.
      rewrite He in HX. subst X.
      destruct (NoDup_other (user_pairs twitter_LAD u) (u, ""))
        as (y & Hy & Hne).
      - apply NoDup_user_pairs.
      - apply elem_of_user_pairs. split; [done|].
        destruct (decide ((u, "") ∈ twitter_LAD)) as [|Hn]; [done|].
        exfalso. unfold occurrences in Hshare.
        rewrite filter_none in Hshare; [simpl in Hshare; lia|].
        apply Forall_forall. by intros z Hz ->.
      - by apply oneloc_home_None_iff.
      - apply elem_of_user_pairs in Hy as [Hyu Hy].
        pose proof (occurrences_pos _ _ Hy).
        pose proof (two_localities twitter_LAD u (u, "") y
                      ltac:(done) eq_refl Hyu). lia. }
    rewrite decide_False by done. cbn [home with_home].
    by rewrite (user_localization_modal twitter_LAD u X).
  - intros Hlow. case_decide; [by left|right]. cbn [home with_home].
    by rewrite user_localization_none.
Qed.

(** C10: stopping the threshold loop before the rows with count 2 writes
    the same user-home file as running it over every row, and as applying
    [user_localization] to every user of the table: a user with two posts
    and no single locality has two localities with one post each, and
    [user_localization] gives it the empty string, which is written as the
    empty field that a missing home is written as. *)
Theorem skipping_two_post_users :
  to_csv (user_home twitter_LAD) = to_csv (user_home_every_row twitter_LAD)
  ∧ to_csv (user_home twitter_LAD)
    = to_csv (user_home_every_user twitter_LAD)
  ∧ ∀ r, r ∈ user_LAD_merged twitter_LAD → counts r = 2 →
         home r = None → user_localization count_df (userid r) = "".
Proof.
  assert (∀ r, r ∈ user_LAD_merged twitter_LAD →
               1 < posts_of (userid r) twitter_LAD
               ∧ counts r = posts_of (userid r) twitter_LAD
               ∧ home r = oneloc_home twitter_LAD (userid r)) as Hrow.
  { intros r Hr. rewrite user_LAD_merged_rows in Hr.
    apply list_elem_of_fmap in Hr as ([v n] & -> & Ha).
    cbn [merged_row counts home userid fst snd] in *.
    apply list_elem_of_filter in Ha as [Hn1 Ha].
    apply elem_of_value_counts in Ha as [_ Hn].
    cbn [snd] in Hn1. unfold posts_of. by rewrite <- Hn. }
  assert (∀ r, r ∈ user_LAD_merged twitter_LAD → counts r = 2 →
               home r = None →
               user_localization count_df (userid r) = "") as Htwo.
  { intros r Hr Hc Hh. destruct (Hrow r Hr) as (_ & Hn & Hone).
    apply user_localization_two_posts; congruence. }
  split; [|split; [|done]].
  - rewrite user_home_rows, user_home_every_row_rows. unfold to_csv.
    rewrite <- !list_fmap_compose. apply list_fmap_ext.
    intros i r Hr%list_elem_of_lookup_2. unfold compose, final_row.
    case_decide as Hc; [|done].
    unfold localize. destruct (home r) eqn:Hh; [by rewrite Hh|].
    cbn [userid counts home with_home csv_home default].
    by rewrite Htwo.
  - rewrite user_home_rows. unfold user_home_every_user, to_csv.
    rewrite <- !list_fmap_compose. apply list_fmap_ext.
    intros i r Hr%list_elem_of_lookup_2. unfold compose, final_row.
    destruct (Hrow r Hr) as (Hn1 & Hn & Hone).
    cbn [userid counts home with_home].
    destruct (home r) as [X|] eqn:Hh.
    + rewrite (user_localization_oneloc twitter_LAD (userid r) X)
        by congruence.
      unfold localize. rewrite Hh. case_decide; by rewrite Hh.
    + case_decide as Hc.
      * rewrite Hh. by rewrite Htwo.
      * unfold localize. by rewrite Hh.
Qed.

(** X1: the month's table has one row per user. *)
Lemma user_home_one_row_per_user :
  NoDup (userid <$> user_home twitter_LAD).
Proof.
  rewrite user_home_rows, user_LAD_merged_rows.
  assert (userid <$> (final_row twitter_LAD
                        <$> (merged_row twitter_LAD
                               <$> user_LAD_counts twitter_LAD))
          = fst <$> user_LAD_counts twitter_LAD) as ->.
  { rewrite <- !list_fmap_compose.
    apply list_fmap_ext. intros i a _. unfold compose, final_row.
    case_decide; [done|]. by rewrite localize_userid. }
  unfold user_LAD_counts.
  eapply sublist_NoDup; [apply NoDup_value_counts|].
  apply fmap_sublist, sublist_filter.
Qed.

End UserHomeSpec.

(** ** Migration *)

Lemma length_filter_sum {A} (P : A → Prop) `{∀ x, Decision (P x)}
    (l : list A) :
  length (filter P l)
  = sum_list ((fun x => if decide (P x) then 1 else 0) <$> l).
Proof.
  induction l as [|x l IH]; [done|].
  rewrite filter_cons, fmap_cons, sum_list_cons, <- IH. by case_decide.
Qed.

Lemma occurrences_absent `{EqDecision A} (x : A) (l : list A) :
  x ∉ l → occurrences x l = 0.
Proof.
  intros Hx. unfold occurrences. rewrite filter_none; [done|].
  apply Forall_forall. by intros y Hy ->.
Qed.

Section MigrationFacts.

Variable read_userhome : nat → nat → list user_row.
Variables year1 month1 year2 month2 : nat.

Local Abbreviation df1 := (read_userhome year1 month1).
Local Abbreviation df2 := (read_userhome year2 month2).
Local Abbreviation mdf :=
  (migration_df read_userhome year1 month1 year2 month2).
Local Abbreviation flows :=
  (migration read_userhome year1 month1 year2 month2).

(** The flow of a pair of homes is the number of rows of [migration_df]
    with this pair. *)
Lemma flow_between_occurrences o d :
  flow_between o d flows = occurrences (o, d) mdf.
Proof.
  unfold flow_between, migration. rewrite filter_fmap.
  cbn [origin_LAD destination_LAD].
  rewrite <- list_fmap_compose.
  rewrite (list_filter_iff _ (fun k : string * string => id k = (o, d)));
    cycle 1.
  { intros [k1 k2]. cbn. naive_solver. }
  assert (NoDup (id <$> merge_sort key_le (drop_duplicates mdf))) as Hnd.
  { rewrite list_fmap_id, merge_sort_Permutation.
    apply NoDup_drop_duplicates. }
  destruct (decide ((o, d) ∈ mdf)) as [Hin|Hin].
  - rewrite (filter_key_NoDup id _ (o, d) Hnd).
    + cbn. lia.
    + by rewrite merge_sort_Permutation, elem_of_drop_duplicates.
  - rewrite (filter_key_absent id).
    + by rewrite occurrences_absent.
    + by rewrite list_fmap_id, merge_sort_Permutation,
        elem_of_drop_duplicates.
Qed.

(** The rows of [migration_df] with a given pair, in the merged table. *)
Lemma migration_df_occurrences o d :
  occurrences (o, d) mdf
  = length (filter (fun m => home_x m = Some o ∧ home_y m = Some d ∧ o ≠ d)
              (merged_months read_userhome year1 month1 year2 month2)).
Proof.
  unfold migration_df.
  generalize (merged_months read_userhome year1 month1 year2 month2).
  intros l. unfold occurrences. induction l as [|m l IH]; [done|].
  rewrite !(filter_cons _ m).
  destruct (home_x m) as [x|] eqn:Ex, (home_y m) as [y|] eqn:Ey.
  - rewrite decide_True by (split; by eexists).
    rewrite filter_cons, Ex, Ey.
    destruct (decide (Some x ≠ Some y)) as [Hxy|Hxy].
    + cbn [omap list_omap]. rewrite Ex, Ey. cbn [mbind option_bind].
      rewrite filter_cons. repeat case_decide; simplify_eq;
        cbn [length]; rewrite ?IH; try done; naive_solver.
    + rewrite IH. apply dec_stable in Hxy. injection Hxy as ->.
      rewrite decide_False; [done|]. naive_solver.
  - rewrite decide_False by (intros [_ [? ?]]; done).
    rewrite IH, decide_False; [done|]. naive_solver.
  - rewrite decide_False by (intros [[? ?] _]; done).
    rewrite IH, decide_False; [done|]. naive_solver.
  - rewrite decide_False by (intros [[? ?] _]; done).
    rewrite IH, decide_False; [done|]. naive_solver.
Qed.

(** C5: when each month's table has one row per user, the flow from [o]
    to [d] is the sum over the users of the first month of what each
    contributes: one, when the user has home [o] in the first month and
    home [d] in the second and these differ; nothing when the homes are
    the same, or when the user has no home, or no row, in one of the two
    months. *)
Theorem flow_counts_changed_homes (o d : string) :
  NoDup (userid <$> df1) → NoDup (userid <$> df2) →
  flow_between o d flows
  = sum_list (contribution df1 df2 o d <$> (userid <$> df1)).
Proof.
  intros Hnd1 Hnd2.
  rewrite flow_between_occurrences, migration_df_occurrences.
  unfold merged_months. rewrite merge_left_functional
    by (intros; by apply filter_key_length).
  rewrite filter_fmap, length_fmap, length_filter_sum.
  rewrite <- list_fmap_compose. f_equal. apply list_fmap_ext.
  intros i a Ha%list_elem_of_lookup_2. unfold compose, contribution.
  assert (home_of df1 (userid a) = home a) as H1.
  { unfold home_of. by rewrite (filter_key_NoDup userid _ a). }
  rewrite H1. unfold home_x, home_y, home_of. cbn [fst snd].
  by repeat case_decide.
Qed.

End MigrationFacts.

(** * Examples *)

(** ** Lookup table *)

Example example_splits :
  str_split " and " "Bournemouth, Christchurch and Poole"
  = ["Bournemouth, Christchurch"; "Poole"]
  ∧ re_split_and_comma "Bournemouth, Christchurch and Poole"
    = ["Bournemouth"; "Christchurch"; "Poole"]
  ∧ str_split " and " "Bristol, City of" = ["Bristol, City of"]
  ∧ re_split_and_comma "Bristol, City of" = ["Bristol"; "City of"]
  ∧ str_split " and " " and " = [""; ""]
  ∧ split_guard "Bournemouth, Christchurch and Poole" = true
  ∧ split_guard "Bristol, City of" = false.
Proof. repeat split. Qed.

Example example_lookup_values :
  LAD_split_dict example_lookup_df
  = [ ("Bournemouth", "Bournemouth, Christchurch and Poole");
      ("Christchurch", "Bournemouth, Christchurch and Poole");
      ("Poole", "Bournemouth, Christchurch and Poole") ]
  ∧ match_ example_lookup_df example_ward_df 1000 "Whitchurch Park" = Some 1
  ∧ match_ example_lookup_df example_ward_df 1000 "Dundee" = Some 1
  ∧ match_ example_lookup_df example_ward_df 1000 "Scotland" = Some 2
  ∧ match_ example_lookup_df example_ward_df 1000 "Atlantis" = Some 0
  ∧ change_place_name example_lookup_df example_ward_df 1000 "Bristol"
    = Some "Bristol, City of"
  ∧ change_place_name example_lookup_df example_ward_df 1000 "Atlantis"
    = Some "".
Proof. vm_compute. repeat split. Qed.

Lemma canonical_names_resolve_witness :
  PyDict.get "Scotland" (lookup_dict example_lookup_df example_ward_df) = None
  ∧ (match_ example_lookup_df example_ward_df 0 "Dundee City" = Some 1
     ∧ change_place_name example_lookup_df example_ward_df 0 "Dundee City"
       = Some "Dundee City")
  ∧ (match_ example_lookup_df example_ward_df 0 "Scotland"
     = Some (if decide ("Scotland" ∈ LAD_set example_lookup_df) then 1
             else 2)
     ∧ change_place_name example_lookup_df example_ward_df 0 "Scotland"
       = Some "Scotland").
Proof.
  assert (Hrow : hierarchy_row "Dundee City" "Dundee City"
                   "Angus and Dundee City" "Eastern Scotland" "Scotland"
                 ∈ example_lookup_df) by by_computation.
  split; [|split].
  - apply (proj1 (canonical_names_resolve example_lookup_df example_ward_df
                    0 "Scotland")).
    eexists. split; [exact Hrow|]. repeat right. reflexivity.
  - apply (proj1 (proj2 (canonical_names_resolve example_lookup_df
                           example_ward_df 0 "Dundee City"))).
    by_computation.
  - apply (proj2 (proj2 (canonical_names_resolve example_lookup_df
                           example_ward_df 0 "Scotland"))).
    eexists. split; [exact Hrow|]. repeat right. reflexivity.
Defined.

Example example_coarser_levels :
  match_ example_lookup_df example_ward_df 0 "Scotland" = Some 2
  ∧ match_ example_lookup_df example_ward_df 0 "Herefordshire, County of"
    = Some 1.
Proof. by vm_compute. Qed.

(** A name of the column [LAU121NM], a level above the districts, that is
    also a district name: [match] gives 1 for it, not 2. *)
Lemma coarser_name_at_district_level :
  coarser_name example_lookup_df "Bristol, City of"
  ∧ (∀ depth,
       match_ example_lookup_df example_ward_df depth "Bristol, City of"
       = Some 1)
  ∧ ¬ (∀ lookup_df ward_df depth n,
         coarser_name lookup_df n →
         match_ lookup_df ward_df depth n = Some 2).
Proof.
  assert (Hc : coarser_name example_lookup_df "Bristol, City of").
  { exists (hierarchy_row "Bristol, City of" "Bristol, City of"
              "Bristol, City of"
              "Gloucestershire, Wiltshire and Bath/Bristol area"
              "South West (England)").
    split; [by_computation|]. by left. }
  assert (Hm : ∀ depth,
             match_ example_lookup_df example_ward_df depth "Bristol, City of"
             = Some 1).
  { intros depth. apply match_LAD. by_computation. }
  split; [exact Hc|]. split; [exact Hm|].
  intros H. specialize (H example_lookup_df example_ward_df 0 _ Hc).
  rewrite Hm in H. discriminate.
Qed.

Lemma match_terminates_witness :
  ∃ level, level ≤ 2 ∧
    ∀ depth, 2 ≤ depth →
      match_ example_lookup_df example_ward_df depth "Whitchurch Park"
      = Some level.
Proof.
  apply (match_terminates example_lookup_df example_ward_df).
  by_computation.
Defined.

(** With a ward table that names as districts two places that are not
    districts of the hierarchy, and that are wards of each other, [match]
    does not return for either, whatever depth it is allowed. *)
Lemma cyclic_aliases_never_return :
  ¬ ∃ depth level,
      match_ example_lookup_df cyclic_ward_df depth "Northtown" = Some level.
Proof.
  assert (∀ depth,
            match_ example_lookup_df cyclic_ward_df depth "Northtown" = None
            ∧ match_ example_lookup_df cyclic_ward_df depth "Southtown"
              = None) as H.
  { induction depth as [|depth [IH1 IH2]]; [by vm_compute|].
    split.
    - rewrite match_eq.
      change (match_ example_lookup_df cyclic_ward_df depth "Southtown")
        with (match_ example_lookup_df cyclic_ward_df depth
                (default "" (PyDict.get "Northtown"
                   (lookup_dict example_lookup_df cyclic_ward_df)))) in IH2.
      assert (PyDict.get "Northtown"
                (lookup_dict example_lookup_df cyclic_ward_df)
              = Some "Southtown") as -> by by vm_compute.
      rewrite !decide_False by by_computation. done.
    - rewrite match_eq.
      assert (PyDict.get "Southtown"
                (lookup_dict example_lookup_df cyclic_ward_df)
              = Some "Northtown") as -> by by vm_compute.
      rewrite !decide_False by by_computation. done. }
  intros (depth & level & Hm). destruct (H depth) as [H1 _]. congruence.
Qed.

Lemma split_aliases_witness :
  PyDict.get "Whitchurch Park"
    (split_dict
       [ ("Herefordshire, County of", "Herefordshire, County of");
         ("Hengrove and Whitchurch Park", "Bristol, City of");
         ("Poole Town", "Bournemouth, Christchurch and Poole") ])
  = Some "Bristol, City of"
  ∧ (∃ loc', loc' ∈ LAD_set example_lookup_df ∧ contains " and " loc'
             ∧ "Poole" ∈ re_split_and_comma loc'
             ∧ PyDict.get "Poole" (LAD_split_dict example_lookup_df)
               = Some loc'
             ∧ PyDict.get "Poole"
                 (lookup_dict example_lookup_df example_ward_df)
               = if decide ("Poole" ∈ LAD_set example_lookup_df
                            ∨ "Poole" ∈ larger_than_LAD_set example_lookup_df)
                 then None
                 else Some (default
                              (default loc'
                                 (PyDict.get "Poole"
                                    (ward_dict example_ward_df)))
                              (PyDict.get "Poole"
                                 (ward_split_dict example_ward_df))))
  ∧ (∃ ward parent, (ward, parent) ∈ ward_dict example_ward_df
             ∧ contains " and " ward
             ∧ "Hengrove" ∈ re_split_and_comma ward
             ∧ PyDict.get "Hengrove" (ward_split_dict example_ward_df)
               = Some parent
             ∧ PyDict.get "Hengrove"
                 (lookup_dict example_lookup_df example_ward_df)
               = if decide ("Hengrove" ∈ LAD_set example_lookup_df
                            ∨ "Hengrove"
                              ∈ larger_than_LAD_set example_lookup_df)
                 then None
                 else Some parent)
  ∧ (PyDict.get "County of" (LAD_split_dict example_lookup_df) = None
     ∧ PyDict.get "County of" (ward_split_dict example_ward_df) = None
     ∧ PyDict.get "County of" (lookup_dict example_lookup_df example_ward_df)
       = if decide ("County of" ∈ LAD_set example_lookup_df
                    ∨ "County of" ∈ larger_than_LAD_set example_lookup_df)
         then None
         else match PyDict.get "County of" (ward_dict example_ward_df) with
              | Some parent => Some parent
              | None => PyDict.get "County of" manual_lookup_dict
              end).
Proof.
  split; [|split; [|split]].
  - apply (split_aliases example_lookup_df example_ward_df
             [ ("Herefordshire, County of", "Herefordshire, County of");
               ("Hengrove and Whitchurch Park", "Bristol, City of");
               ("Poole Town", "Bournemouth, Christchurch and Poole") ]
             "Whitchurch Park" "Bristol, City of" "" "").
    exists [("Herefordshire, County of", "Herefordshire, County of")],
      ("Hengrove and Whitchurch Park", "Bristol, City of"),
      [("Poole Town", "Bournemouth, Christchurch and Poole")].
    split; [done|]. split; [by exists "Hengrove", "Whitchurch Park"|].
    split; [by_computation|]. split; [done|].
    intros e He _. apply list_elem_of_singleton in He as ->.
    by_computation.
  - apply (split_aliases example_lookup_df example_ward_df [] "Poole" ""
             "Bournemouth, Christchurch and Poole" "").
    + by_computation.
    + by exists "Bournemouth, Christchurch", "Poole".
    + by_computation.
  - apply (split_aliases example_lookup_df example_ward_df [] "Hengrove" ""
             "Hengrove and Whitchurch Park" "Bristol, City of").
    + by_computation.
    + by exists "Hengrove", "Whitchurch Park".
    + by_computation.
  - apply (split_aliases example_lookup_df example_ward_df [] "County of" ""
             "" "").
    + intros l Hl Hc%split_guard_contains. unfold LAD_set in Hl.
      apply elem_of_list_to_set in Hl.
      repeat (apply elem_of_cons in Hl as [-> | Hl]);
        [first [by_computation | by vm_compute in Hc]..
        |by apply elem_of_nil in Hl].
    + intros w p Hwp Hc%split_guard_contains.
      assert (Hw : w ∈ (ward_dict example_ward_df).*1)
        by (change w with (w, p).1; by apply list_elem_of_fmap_2).
      vm_compute in Hw.
      repeat (apply elem_of_cons in Hw as [-> | Hw]);
        [first [by_computation | by vm_compute in Hc]..
        |by apply elem_of_nil in Hw].
Defined.

Example example_split_values :
  PyDict.get "Poole" (lookup_dict example_lookup_df example_ward_df)
  = Some "Bournemouth, Christchurch and Poole"
  ∧ PyDict.get "Hengrove" (lookup_dict example_lookup_df example_ward_df)
    = Some "Bristol, City of"
  ∧ PyDict.get "County of" (lookup_dict example_lookup_df example_ward_df)
    = None.
Proof. by vm_compute. Qed.

(** A district name with a comma and no [" and "] has two parts, and its
    parts are not made aliases: ["County of"] is a key neither of
    [LAD_split_dict] nor of the lookup table.  And a part of a decomposed
    district name need not be an alias of that name: with a ward of the
    name ["Poole"], the lookup table has the ward's district for it. *)
Lemma comma_list_not_split :
  "Herefordshire, County of" ∈ LAD_set example_lookup_df
  ∧ str_split ", " "Herefordshire, County of"
    = ["Herefordshire"; "County of"]
  ∧ "County of" ∈ re_split_and_comma "Herefordshire, County of"
  ∧ PyDict.get "County of" (LAD_split_dict example_lookup_df) = None
  ∧ PyDict.get "County of" (lookup_dict example_lookup_df example_ward_df)
    = None
  ∧ "Bournemouth, Christchurch and Poole" ∈ LAD_set example_lookup_df
  ∧ "Poole" ∈ re_split_and_comma "Bournemouth, Christchurch and Poole"
  ∧ PyDict.get "Poole" (lookup_dict example_lookup_df overriding_ward_df)
    = Some "Dorset".
Proof.
  split; [by_computation|]. split; [by vm_compute|].
  split; [by_computation|]. split; [by vm_compute|].
  split; [by vm_compute|]. split; [by_computation|].
  split; [by_computation|]. by vm_compute.
Qed.

(** ** Geocoding loop *)

Lemma geocoder_called_iff_witness :
  (geocode_row example_lookup_df example_ward_df 1000 [] empty_service
     (unresolved_row "Atlantis")).1
  = [request_url "Atlantis"]
  ∧ (geocode_row example_lookup_df example_ward_df 1000 [] empty_service
       {| location := "Bristol"; locality := "Bristol, City of";
          bbox0 := NaN; bbox1 := NaN; bbox2 := NaN; bbox3 := NaN |}).1
    = [].
Proof.
  split.
  - apply (geocoder_called_iff example_lookup_df example_ward_df 1000 []
             empty_service "Atlantis" "" NaN NaN NaN NaN);
      by vm_compute.
  - apply (geocoder_called_iff example_lookup_df example_ward_df 1000 []
             empty_service "Bristol" "Bristol, City of" NaN NaN NaN NaN);
      by vm_compute.
Defined.

(** ['Saint Helier'] is a key of the lookup table; its alias ['Jersey'] is
    no name of the hierarchy, so that [match] of the canonicalized string
    is 0, and yet the record is not sent to the geocoder. *)
Lemma alias_to_unmatched_not_geocoded :
  initial_row example_lookup_df example_ward_df 1000 "Saint Helier"
  = ret {| location := "Saint Helier"; locality := "Jersey";
           bbox0 := NaN; bbox1 := NaN; bbox2 := NaN; bbox3 := NaN |}
  ∧ match_ example_lookup_df example_ward_df 1000 "Jersey" = Some 0
  ∧ geocode_row example_lookup_df example_ward_df 1000 [] empty_service
      {| location := "Saint Helier"; locality := "Jersey";
         bbox0 := NaN; bbox1 := NaN; bbox2 := NaN; bbox3 := NaN |}
    = ([], ret {| location := "Saint Helier"; locality := "Jersey";
                  bbox0 := NaN; bbox1 := NaN; bbox2 := NaN;
                  bbox3 := NaN |}).
Proof. repeat split; by vm_compute. Qed.

Lemma geocoding_failures_witness :
  geocoding_loop example_lookup_df example_ward_df 1000 [] empty_service
    [unresolved_row "Atlantis"; unresolved_row "Lyonesse"]
  = ([request_url "Atlantis"; request_url "Lyonesse"],
     ret [unresolved_row "Atlantis"; unresolved_row "Lyonesse"])
  ∧ geocoding_loop example_lookup_df example_ward_df 1000 []
      unreachable_service
      [unresolved_row "Atlantis"; unresolved_row "Lyonesse"]
    = ([request_url "Atlantis"], raise ConnectionError).
Proof.
  split.
  - destruct (geocoding_failures example_lookup_df example_ward_df 1000 []
                empty_service (unresolved_row "Atlantis")
                [unresolved_row "Lyonesse"] eq_refl) as [H _].
    destruct (H {| status_code := 200; estimatedTotal := 0;
                   resources := [] |} eq_refl) as [_ ->]; [by right|].
    reflexivity.
  - destruct (geocoding_failures example_lookup_df example_ward_df 1000 []
                unreachable_service (unresolved_row "Atlantis")
                [unresolved_row "Lyonesse"] eq_refl) as [_ H].
    apply (H ConnectionError). reflexivity.
Defined.

(** An exception of the HTTP request leaves the loop: the second record is
    never submitted.  So does the [KeyError] of an address that has neither
    a [locality] nor a [formattedAddress]. *)
Lemma request_error_leaves_loop :
  geocoding_loop example_lookup_df example_ward_df 1000 []
    unreachable_service
    [unresolved_row "Atlantis"; unresolved_row "Lyonesse"]
  = ([request_url "Atlantis"], raise ConnectionError)
  ∧ geocoding_loop example_lookup_df example_ward_df 1000 []
      malformed_service
      [unresolved_row "Atlantis"; unresolved_row "Lyonesse"]
    = ([request_url "Atlantis"], raise KeyError).
Proof. split; by vm_compute. Qed.

(** ** Bounding-box intersection *)

Lemma IOU_best_overlap_witness :
  IOU box rect_intersects rect_intersection_area example_LAD
    [NaN; NaN; NaN; NaN] = ""
  ∧ IOU box rect_intersects rect_intersection_area example_LAD
      [Num 0; Num 0; Num 3; Num 5] = ""
  ∧ IOU box rect_intersects rect_intersection_area example_LAD
      [Num 1; Num 7; Num 2; Num 11] = "Westshire"
  ∧ IOU box rect_intersects rect_intersection_area example_LAD
      [Num 1; Num 8; Num 2; Num 12] = ""
  ∧ IOU box rect_intersects rect_intersection_area example_LAD
      [Num 1; Num 12; Num 2; Num 15] = "Midshire".
Proof.
  pose proof (IOU_best_overlap box rect_intersects rect_intersection_area
                example_LAD) as [Hreject Haccept].
  split; [|split; [|split; [|split]]].
  - apply Hreject. by left.
  - apply Hreject. by repeat right.
  - apply (proj1 (Haccept 1%Q 7%Q 2%Q 11%Q ltac:(by vm_compute))
             [] "Westshire" (rect 0 0 10 10)
             [("Midshire", rect 10 0 20 10);
              ("Eastshire", rect 20 0 30 10)]); try by vm_compute.
    + intros u Hu. by apply elem_of_nil in Hu.
    + intros u Hu _. repeat (apply elem_of_cons in Hu as [->|Hu]);
        [by vm_compute..|by apply elem_of_nil in Hu].
  - apply (proj1 (proj2 (Haccept 1%Q 8%Q 2%Q 12%Q ltac:(by vm_compute)))).
    intros u Hu _. repeat (apply elem_of_cons in Hu as [->|Hu]);
      [by vm_compute..|by apply elem_of_nil in Hu].
  - apply (proj2 (proj2 (Haccept 1%Q 12%Q 2%Q 15%Q ltac:(by vm_compute)))
             [("Westshire", rect 0 0 10 10)] "Midshire" (rect 10 0 20 10)
             [("Eastshire", rect 20 0 30 10)]); try by vm_compute.
    intros u Hu. repeat (apply elem_of_cons in Hu as [->|Hu]);
      [by vm_compute..|by apply elem_of_nil in Hu].
Defined.

(** ** Monthly home *)

Example example_user_home :
  user_home example_posts
  = [ {| userid := 1; counts := 10; home := Some "Bristol, City of" |};
      {| userid := 2; counts := 10; home := Some "" |};
      {| userid := 5; counts := 2; home := None |};
      {| userid := 3; counts := 2; home := Some "Dundee City" |} ].
Proof. by vm_compute. Qed.

Lemma one_locality_home_witness :
  home_of (user_home example_posts) 3 = Some "Dundee City"
  ∧ filter (fun r => userid r = 4%Z) (user_home example_posts) = [].
Proof.
  split.
  - apply (one_locality_home example_posts 3 "Dundee City").
    + vm_compute. lia.
    + intros p Hp Hu. unfold example_posts in Hp. cbn in Hp.
      repeat (apply elem_of_cons in Hp as [->|Hp]; [done|]).
      by apply elem_of_nil in Hp.
  - apply (one_locality_home example_posts 4 "Bristol, City of").
    vm_compute. lia.
Defined.

(** A user whose only post of the month is in ["Bristol, City of"] has all
    its posts in one locality, and gets no home: the user has no row in the
    month's table. *)
Lemma single_post_user_has_no_home :
  (∀ p, p ∈ [(4%Z, "Bristol, City of")] → p.1 = 4%Z →
        p.2 = "Bristol, City of")
  ∧ user_home [(4%Z, "Bristol, City of")] = []
  ∧ home_of (user_home [(4%Z, "Bristol, City of")]) 4 = None
  ∧ home_of (user_home example_posts) 4 = None.
Proof.
  split.
  - by intros p ->%list_elem_of_singleton.
  - repeat split; by vm_compute.
Qed.

(** No locality has more than six of the ten posts of user 2. *)
Lemma second_user_shares (X : string) :
  100 * occurrences (2%Z, X) example_posts ≤ 65 * 10.
Proof.
  destruct (decide (X = "Bristol, City of")) as [->|H1]; [vm_compute; lia|].
  destruct (decide (X = "Dundee City")) as [->|H2]; [vm_compute; lia|].
  rewrite occurrences_absent; [lia|]. unfold example_posts. cbn.
  intros Hp.
  repeat (apply elem_of_cons in Hp as [Hp|Hp]; [by injection Hp|]).
  by apply elem_of_nil in Hp.
Defined.

Lemma threshold_home_witness :
  1 < posts_of 1 example_posts
  ∧ home_of (user_home example_posts) 1 = Some "Bristol, City of"
  ∧ (home_of (user_home example_posts) 2 = None
     ∨ home_of (user_home example_posts) 2 = Some "").
Proof.
  split; [|split].
  - apply (threshold_home example_posts 1). vm_compute. lia.
  - apply (threshold_home example_posts 1); vm_compute; lia.
  - apply (threshold_home example_posts 2); [vm_compute; lia|].
    intros X. apply (second_user_shares X).
Defined.

Lemma skipping_two_post_users_witness :
  to_csv (user_home example_posts)
  = to_csv (user_home_every_row example_posts)
  ∧ user_localization (twitter_LAD_count_df example_posts) 5 = "".
Proof.
  destruct (skipping_two_post_users example_posts) as (Hcsv & _ & Htwo).
  split; [exact Hcsv|].
  apply (Htwo {| userid := 5; counts := 2; home := None |});
    [by_computation|reflexivity|reflexivity].
Defined.

(** ** Migration *)

Example example_migration :
  migration example_userhome 2019 6 2020 6
  = [ {| origin_LAD := "Bristol, City of"; destination_LAD := "Dundee City";
         flow := 1; month_start := "2019-06"; month_end := "2020-06" |} ].
Proof. by vm_compute. Qed.

Lemma flow_counts_changed_homes_witness :
  flow_between "Bristol, City of" "Dundee City"
    (migration example_userhome 2019 6 2020 6)
  = sum_list
      (contribution (example_userhome 2019 6) (example_userhome 2020 6)
         "Bristol, City of" "Dundee City"
       <$> (userid <$> example_userhome 2019 6))
  ∧ flow_between "Dundee City" "Dundee City"
      (migration example_userhome 2019 6 2020 6)
    = sum_list
        (contribution (example_userhome 2019 6) (example_userhome 2020 6)
           "Dundee City" "Dundee City"
         <$> (userid <$> example_userhome 2019 6)).
Proof.
  split.
  - apply (flow_counts_changed_homes example_userhome 2019 6 2020 6);
      by_computation.
  - apply (flow_counts_changed_homes example_userhome 2019 6 2020 6);
      by_computation.
Defined.

Example example_contributions :
  contribution (example_userhome 2019 6) (example_userhome 2020 6)
    "Bristol, City of" "Dundee City" <$> [1; 2; 3; 6; 7]%Z
  = [1; 0; 0; 0; 0]
  ∧ contribution (example_userhome 2019 6) (example_userhome 2020 6)
      "Dundee City" "Dundee City" <$> [1; 2; 3; 6; 7]%Z
    = [0; 0; 0; 0; 0].
Proof. split; by vm_compute. Qed.

(** * Further properties

    The lookup table as a whole, the geocoding loop, the pass of [IOU] over
    the place table, the user-home table of a month, the flow table, and
    the way from the located posts of two months to the flows. *)

(** ** The lookup table as a whole *)

(** X2: after the three [update] calls a key has the value of the last
    table that has it: [ward_split_dict], else [ward_dict], else
    [LAD_split_dict], else the table written by hand. *)
Theorem merged_lookup_precedence lookup_df ward_df k :
  PyDict.get k (merged_lookup_dict lookup_df ward_df) =
    match PyDict.get k (ward_split_dict ward_df) with
    | Some v => Some v
    | None =>
        match PyDict.get k (ward_dict ward_df) with
        | Some v => Some v
        | None =>
            match PyDict.get k (LAD_split_dict lookup_df) with
            | Some v => Some v
            | None => PyDict.get k manual_lookup_dict
            end
        end
    end.
Proof.
  unfold merged_lookup_dict.
  rewrite !PyDictKeys.get_update_dict; [reflexivity| | |].
  - apply NoDup_keys_split_dict.
  - apply (PyDictKeys.NoDup_keys_update []), NoDup_nil_2.
  - apply NoDup_keys_split_dict.
Qed.

Lemma filter_ext_elem {A} (P Q : A → Prop) `{∀ x, Decision (P x)}
    `{∀ x, Decision (Q x)} (l : list A) :
  (∀ x, x ∈ l → P x ↔ Q x) → filter P l = filter Q l.
Proof.
  induction l as [|x l IH]; intros HPQ; [reflexivity|].
  rewrite !filter_cons.
  rewrite IH by (intros y Hy; apply HPQ, list_elem_of_further, Hy).
  pose proof (HPQ x (list_elem_of_here _ _)) as Hx.
  destruct (decide (P x)), (decide (Q x)); tauto || reflexivity.
Qed.

Lemma delete_loop_filter lookup_df (d : PyDict.t) (ks : list string) :
  foldl
    (fun acc i =>
       if decide (i ∈ LAD_set lookup_df ∨ i ∈ larger_than_LAD_set lookup_df)
       then PyDict.del i acc else acc)
    d ks
  = filter (fun kv : string * string =>
              ¬ ((kv.1 ∈ LAD_set lookup_df
                  ∨ kv.1 ∈ larger_than_LAD_set lookup_df) ∧ kv.1 ∈ ks)) d.
Proof.
  revert d. induction ks as [|i ks IH]; intros d.
  - cbn [foldl]. symmetry. apply filter_all, Forall_forall.
    intros x _ [_ []%not_elem_of_nil].
  - cbn [foldl]. rewrite IH. case_decide as Hi.
    + unfold PyDict.del. rewrite list_filter_filter.
      apply filter_ext_elem. intros kv _. rewrite elem_of_cons.
      destruct (decide (kv.1 = i)) as [-> | Hne]; tauto.
    + apply filter_ext_elem. intros kv _. rewrite elem_of_cons.
      destruct (decide (kv.1 = i)) as [-> | Hne]; tauto.
Qed.

(** X3: the deletion loop keeps, in their order, the entries whose key is
    no name of the hierarchy; running it again changes nothing. *)
Theorem delete_duplicates_filter lookup_df (d : PyDict.t) :
  delete_duplicates lookup_df d
  = filter (fun kv : string * string =>
              ¬ (kv.1 ∈ LAD_set lookup_df
                 ∨ kv.1 ∈ larger_than_LAD_set lookup_df)) d
  ∧ delete_duplicates lookup_df (delete_duplicates lookup_df d)
    = delete_duplicates lookup_df d.
Proof.
  assert (H : ∀ d : PyDict.t, delete_duplicates lookup_df d
    = filter (fun kv : string * string =>
              ¬ (kv.1 ∈ LAD_set lookup_df
                 ∨ kv.1 ∈ larger_than_LAD_set lookup_df)) d).
  { intros d'. unfold delete_duplicates. cbv zeta.
    rewrite delete_loop_filter. apply filter_ext_elem. intros kv Hkv.
    assert (kv.1 ∈ PyDict.keys d') by apply list_elem_of_fmap_2, Hkv.
    tauto. }
  split; [apply H|].
  rewrite !H, list_filter_filter. apply filter_ext_elem. tauto.
Qed.

(** X4: an alias of the table is rewritten to its target, and is classified
    as its target is, one call deeper. *)
Theorem alias_resolves_like_target lookup_df ward_df depth a n :
  PyDict.get a (lookup_dict lookup_df ward_df) = Some n →
  change_place_name lookup_df ward_df depth a = Some n
  ∧ match_ lookup_df ward_df (S depth) a = match_ lookup_df ward_df depth n.
Proof.
  intros Ha. split.
  - unfold change_place_name. rewrite Ha. reflexivity.
  - pose proof (get_lookup_dict lookup_df ward_df a) as Hk.
    rewrite Ha in Hk. rewrite match_eq.
    destruct (decide (a ∈ LAD_set lookup_df ∨ a ∈ larger_than_LAD_set lookup_df))
      as [Hc | Hc]; [discriminate|].
    rewrite decide_False by tauto. rewrite decide_False by tauto.
    rewrite Ha. reflexivity.
Qed.

Lemma alias_resolves_like_target_witness :
  PyDict.get "Bristol" (lookup_dict example_lookup_df example_ward_df)
    = Some "Bristol, City of"
  ∧ change_place_name example_lookup_df example_ward_df 3 "Bristol"
    = Some "Bristol, City of"
  ∧ match_ example_lookup_df example_ward_df 4 "Bristol"
    = match_ example_lookup_df example_ward_df 3 "Bristol, City of".
Proof.
  assert (H : PyDict.get "Bristol" (lookup_dict example_lookup_df example_ward_df)
    = Some "Bristol, City of") by (vm_compute; reflexivity).
  split; [exact H|].
  exact (alias_resolves_like_target example_lookup_df example_ward_df 3
           "Bristol" "Bristol, City of" H).
Defined.

(** X5: [match] returns 0, 1 or 2, and what it returns within some number of
    nested calls it returns within any larger number. *)
Theorem match_level_stable lookup_df ward_df depth loc level :
  match_ lookup_df ward_df depth loc = Some level →
  level ≤ 2
  ∧ ∀ depth', depth ≤ depth' →
      match_ lookup_df ward_df depth' loc = Some level.
Proof.
  revert loc. induction depth as [|depth IH]; intros loc H;
    rewrite match_eq in H.
  - split.
    + repeat case_decide; try (injection H as <-; lia).
      destruct (PyDict.get loc _); [discriminate|]. injection H as <-; lia.
    + intros depth' _. rewrite match_eq.
      repeat case_decide; try exact H.
      destruct (PyDict.get loc _); [discriminate|exact H].
  - split.
    + repeat case_decide; try (injection H as <-; lia).
      destruct (PyDict.get loc _) as [target|];
        [apply (IH target), H | injection H as <-; lia].
    + intros depth' Hle. rewrite match_eq.
      repeat case_decide; try exact H.
      destruct (PyDict.get loc _) as [target|]; [|exact H].
      destruct depth' as [|depth']; [lia|].
      apply (IH target); [exact H | lia].
Qed.

Lemma match_level_stable_witness :
  match_ example_lookup_df example_ward_df 1 "Poole Town" = Some 1
  ∧ 1 ≤ 2
  ∧ ∀ depth', 1 ≤ depth' →
      match_ example_lookup_df example_ward_df depth' "Poole Town" = Some 1.
Proof.
  assert (H : match_ example_lookup_df example_ward_df 1 "Poole Town" = Some 1)
    by (vm_compute; reflexivity).
  split; [exact H|].
  exact (match_level_stable example_lookup_df example_ward_df 1 "Poole Town" 1 H).
Defined.

(** ** The pieces of a split name *)

Lemma string_app_cons (x : Ascii.ascii) (a b : string) :
  String x a +:+ b = String x (a +:+ b).
Proof. reflexivity. Qed.

Lemma string_app_assoc (a b c : string) : (a +:+ b) +:+ c = a +:+ (b +:+ c).
Proof.
  induction a as [|x a IH]; [done|]. rewrite !string_app_cons. by f_equal.
Qed.

Lemma string_app_eq_nil (a b : string) : a +:+ b = "" → b = "".
Proof. by destruct a. Qed.

Lemma rev_app_app (s1 s2 : string) :
  String.rev_app s1 s2 = String.rev_app s1 "" +:+ s2.
Proof.
  revert s2. induction s1 as [|x s1 IH]; intros s2; [done|].
  cbn [String.rev_app]. rewrite (IH (String x s2)), (IH (String x "")).
  rewrite string_app_assoc. done.
Qed.

Lemma rev_cons (c : Ascii.ascii) (s : string) :
  String.rev (String c s) = String.rev s +:+ String c "".
Proof.
  unfold String.rev. cbn [String.rev_app]. apply rev_app_app.
Qed.

Lemma snoc_split (a b p : string) (c : Ascii.ascii) :
  a +:+ b = p +:+ String c "" → b ≠ "" →
  ∃ b0, b = b0 +:+ String c "" ∧ p = a +:+ b0.
Proof.
  revert p. induction a as [|x a IH]; intros p Heq Hb.
  - exists p. done.
  - destruct p as [|y p]; rewrite !string_app_cons in Heq.
    + injection Heq as _ Heq. by apply string_app_eq_nil in Heq.
    + injection Heq as -> Heq. destruct (IH p Heq Hb) as (b0 & -> & ->).
      by exists b0.
Qed.

(** No separator starts inside [p] when [p] is followed by [s]: then [p]
    contains none. *)
Lemma starts_free_contains (sep p s : string) :
  (∀ a b, p = a +:+ b → b ≠ "" → String.prefix sep (b +:+ s) = false) →
  sep ≠ "" → ¬ contains sep p.
Proof.
  intros Hfree Hsep (a & b & Heq).
  assert (String.prefix sep ((sep +:+ b) +:+ s) = true) as Ht.
  { apply prefix_app. exists (b +:+ s). apply string_app_assoc. }
  rewrite (Hfree a (sep +:+ b)) in Ht; [done|done|].
  by destruct sep.
Qed.

Lemma split_from_pieces seps skip cur s piece :
  (∀ sep a b, sep ∈ seps → String.rev cur = a +:+ b → b ≠ "" →
              String.prefix sep (b +:+ s) = false) →
  (0 < skip → cur = "") →
  piece ∈ split_from seps skip cur s →
  ∀ sep, sep ∈ seps → sep ≠ "" → ¬ contains sep piece.
Proof.
  revert skip cur. induction s as [|c s IH]; intros skip cur Hfree Hskip Hin
    sep Hsep Hne.
  - cbn [split_from] in Hin. apply list_elem_of_singleton in Hin as ->.
    eapply starts_free_contains; [|done]. intros a b. by apply Hfree.
  - cbn [split_from] in Hin. destruct skip as [|k].
    + destruct (first_match seps (String c s)) as [sep0|] eqn:E.
      * apply elem_of_cons in Hin as [-> | Hin].
        -- eapply starts_free_contains; [|done]. intros a b. by apply Hfree.
        -- eapply (IH _ ""); [| |done|done|done]; [|done].
           intros sep' a b _ Hab Hb.
           symmetry in Hab. by apply string_app_eq_nil in Hab.
      * eapply (IH 0 (String c cur)); [|lia|done|done|done].
        intros sep' a b Hsep' Hab Hb. rewrite rev_cons in Hab.
        symmetry in Hab.
        destruct (snoc_split _ _ _ _ Hab Hb) as (b0 & -> & Hcur).
        rewrite string_app_assoc, string_app_cons.
        change ("" +:+ s) with s.
        destruct (decide (b0 = "")) as [-> | Hb0].
        -- by eapply first_match_None.
        -- by eapply Hfree.
    + rewrite Hskip in Hin by lia.
      eapply (IH k ""); [|done|done|done|done].
      intros sep' a b _ Hab Hb.
      symmetry in Hab. by apply string_app_eq_nil in Hab.
Qed.

Lemma re_split_pieces loc piece :
  piece ∈ re_split_and_comma loc →
  ¬ contains " and " piece ∧ ¬ contains ", " piece.
Proof.
  intros Hin.
  assert (H : ∀ sep, sep ∈ [" and "; ", "] → sep ≠ "" → ¬ contains sep piece).
  { eapply (split_from_pieces _ 0 ""); [|done|exact Hin].
    intros sep a b _ Hab Hb. symmetry in Hab.
    by apply string_app_eq_nil in Hab. }
  split; apply H; try done.
  - apply list_elem_of_here.
  - apply list_elem_of_further, list_elem_of_here.
Qed.

Lemma split_loop_keys k d entries :
  is_Some (PyDict.get k (foldl split_step d entries)) →
  is_Some (PyDict.get k d)
  ∨ ∃ e, e ∈ entries ∧ split_guard e.1 = true ∧ k ∈ re_split_and_comma e.1.
Proof.
  revert d. induction entries as [|e entries IH]; intros d H; [by left|].
  cbn [foldl] in H. apply IH in H as [H | (e' & He' & Hg & Hk)].
  - rewrite get_split_step in H. case_decide as Hc.
    + right. exists e. split; [apply list_elem_of_here | done].
    + by left.
  - right. exists e'. split; [by apply list_elem_of_further | done].
Qed.

(** X6: a key that a splitting loop writes contains neither [" and "] nor
    [", "]: it is a piece between two separators, or before the first, or
    after the last. *)
Theorem split_keys_have_no_separator entries k :
  k ∈ PyDict.keys (split_dict entries) →
  (∃ e, e ∈ entries ∧ k ∈ re_split_and_comma e.1
        ∧ PyDict.get k (split_dict entries) = Some e.2)
  ∧ ¬ contains " and " k ∧ ¬ contains ", " k.
Proof.
  intros Hk. apply PyDictFacts.get_is_Some_key in Hk.
  apply split_loop_keys in Hk as [[v Hv] | (e & He & Hg & Hk)]; [done|].
  split; [|by eapply re_split_pieces].
  destruct (get_split_dict_entry k entries e He Hg Hk) as (e' & ? & ? & ? & ?).
  by exists e'.
Qed.

Lemma split_keys_have_no_separator_witness :
  "Hengrove" ∈ PyDict.keys (split_dict example_ward_df)
  ∧ (∃ e, e ∈ example_ward_df ∧ "Hengrove" ∈ re_split_and_comma e.1
          ∧ PyDict.get "Hengrove" (split_dict example_ward_df) = Some e.2)
  ∧ ¬ contains " and " "Hengrove" ∧ ¬ contains ", " "Hengrove".
Proof.
  assert (H : "Hengrove" ∈ PyDict.keys (split_dict example_ward_df)).
  { apply PyDictFacts.get_is_Some_key. vm_compute. by eexists. }
  split; [exact H|].
  exact (split_keys_have_no_separator example_ward_df "Hengrove" H).
Defined.

(** ** The geocoding loop as a whole *)

Section GeocodingLoopFacts.

Variable lookup_df : list lookup_row.
Variable ward_df : list (string * string).
Variable depth : nat.
Variable special_loc_dict : PyDict.t.
Variable requests_get : string → result response.

Local Abbreviation matches := (match_r lookup_df ward_df depth).
Local Abbreviation scan := (scan_address lookup_df ward_df depth).
Local Abbreviation answer :=
  (resolve_answer lookup_df ward_df depth special_loc_dict).
Local Abbreviation row_step :=
  (geocode_row lookup_df ward_df depth special_loc_dict requests_get).
Local Abbreviation loop :=
  (geocoding_loop lookup_df ward_df depth special_loc_dict requests_get).

Lemma bind_inr {A B} (m : result A) (k : A → result B) (b : B) :
  bind m k = inr b → ∃ a, m = inr a ∧ k a = inr b.
Proof. destruct m as [e|a]; [discriminate|]. intros H. by exists a. Qed.


(** X8: a 200 answer that the loop takes keeps the place string.  The
    candidate locality is the one read from the address of the first
    resource: [address['locality']], or the first part of
    [formattedAddress] when that key is missing, and, when [match] gives 0
    for it, the result of the scan of the address parts.  The locality
    written is the candidate, or what [special_loc_dict] has for it; and
    the bounding box of the first resource is stored exactly when [match]
    does not put the candidate at the district level. *)
Theorem resolve_answer_bbox r resp r' :
  resolve_answer lookup_df ward_df depth special_loc_dict r resp = inr r' →
  location r' = location r
  ∧ ∃ res loc m,
      head (resources resp) = Some res
      ∧ address_candidate lookup_df ward_df depth (res_address res) = inr loc
      ∧ match_r lookup_df ward_df depth loc = inr m
      ∧ locality r' = default loc (PyDict.get loc special_loc_dict)
      ∧ bbox_cells r'
        = (if decide (m = 1) then bbox_cells r else Num <$> res_bbox res)
      ∧ ∀ l k, addr_locality (res_address res) = Some l →
               match_r lookup_df ward_df depth l = inr (S k) → loc = l.
Proof.
  unfold resolve_answer.
  destruct (resources resp) as [|res ress]; [discriminate|].
  intros H.
  apply bind_inr in H as (first & Hfirst & H).
  apply bind_inr in H as (m & Hm & H).
  apply bind_inr in H as (loc & Hloc & H).
  apply bind_inr in H as (m' & Hm' & H).
  apply bind_inr in H as (r1 & Hr1 & H).
  injection H as <-. cbn [location locality].
  assert (Hcand : address_candidate lookup_df ward_df depth (res_address res)
                  = inr loc).
  { unfold address_candidate. rewrite Hfirst. cbn [bind].
    rewrite Hm. cbn [bind]. exact Hloc. }
  assert (Hknown : ∀ l k, addr_locality (res_address res) = Some l →
                          match_r lookup_df ward_df depth l = inr (S k) →
                          loc = l).
  { intros l k Hl Hk. rewrite Hl in Hfirst. injection Hfirst as <-.
    cbn [fst] in Hm, Hloc. rewrite Hk in Hm. injection Hm as <-.
    by injection Hloc. }
  destruct (decide (m' = 1)) as [-> | Hne].
  - cbn [Nat.eqb negb] in Hr1. injection Hr1 as <-.
    split; [reflexivity|]. exists res, loc, 1.
    rewrite decide_True by reflexivity. repeat split; assumption.
  - apply Nat.eqb_neq in Hne as Hb. rewrite Hb in Hr1. cbn [negb] in Hr1.
    destruct (res_bbox res) as [|b0 [|b1 [|b2 [|b3 [|b4 bs]]]]] eqn:Hbox;
      try discriminate.
    injection Hr1 as <-. split; [reflexivity|].
    exists res, loc, m'. rewrite decide_False by exact Hne.
    rewrite Hbox. repeat split; assumption.
Qed.

Lemma resolve_answer_location r resp r' :
  answer r resp = inr r' → location r' = location r.
Proof.
  unfold resolve_answer.
  destruct (resources resp) as [|res ress]; [discriminate|].
  intros H.
  apply bind_inr in H as (first & _ & H).
  apply bind_inr in H as (m & _ & H).
  apply bind_inr in H as (loc & _ & H).
  apply bind_inr in H as (m' & Hm' & H).
  apply bind_inr in H as (r1 & Hr1 & H).
  injection H as <-. cbn [location].
  destruct (negb (m' =? 1)); [|by injection Hr1 as <-].
  destruct (res_bbox res) as [|b0 [|b1 [|b2 [|b3 [|b4 bs]]]]];
    try discriminate.
  by injection Hr1 as <-.
Qed.

Lemma geocode_row_frame r urls r' :
  row_step r = (urls, inr r') →
  location r' = location r ∧ (locality r ≠ "" → r' = r).
Proof.
  intros H. split.
  - destruct (decide (locality r = "")) as [He | Hne].
    + rewrite (geocode_row_call _ _ _ _ _ _ He) in H.
      injection H as _ H.
      apply bind_inr in H as (resp & _ & H).
      destruct (status_code resp =? 200)%Z; [|by injection H as <-].
      destruct (estimatedTotal resp =? 0)%Z; [by injection H as <-|].
      eapply resolve_answer_location, H.
    + rewrite (geocode_row_skip _ _ _ _ _ _ Hne) in H. by injection H as _ <-.
  - intros Hne. rewrite (geocode_row_skip _ _ _ _ _ _ Hne) in H.
    by injection H as _ <-.
Qed.

(** X9: when the loop ends normally, the table has the same rows in the same
    order with their place strings, and a row that had a locality is as it
    was. *)
Theorem geocoding_loop_frame df urls df' :
  geocoding_loop lookup_df ward_df depth special_loc_dict requests_get df
  = (urls, inr df') →
  Forall2 (fun r r' => location r' = location r ∧ (locality r ≠ "" → r' = r))
    df df'.
Proof.
  revert urls df'. induction df as [|r df IH]; intros urls df' H.
  - injection H as _ <-. constructor.
  - cbn [geocoding_loop] in H.
    destruct (row_step r) as [u [e|r1]] eqn:Hr; [discriminate|].
    destruct (loop df) as [us [e|df1]] eqn:Hdf;
      cbn [fst snd bind] in H; [discriminate|].
    injection H as _ <-. constructor.
    + eapply geocode_row_frame, Hr.
    + eapply IH. reflexivity.
Qed.

(** X10: the loop asks the service about the rows without a locality, in
    their order, once each, and about no other row; an exception stops
    the requests. *)
Theorem geocoding_loop_requests df :
  (geocoding_loop lookup_df ward_df depth special_loc_dict requests_get df).1
    `prefix_of` ((fun r => request_url (location r))
                   <$> filter (fun r => locality r = "") df)
  ∧ ∀ df',
      (geocoding_loop lookup_df ward_df depth special_loc_dict requests_get
         df).2 = inr df' →
      (geocoding_loop lookup_df ward_df depth special_loc_dict requests_get
         df).1
      = (fun r => request_url (location r))
          <$> filter (fun r => locality r = "") df.
Proof.
  induction df as [|r df [IHp IHe]].
  - split; [done|]. reflexivity.
  - cbn [geocoding_loop]. rewrite filter_cons.
    destruct (decide (locality r = "")) as [He | Hne].
    + rewrite (geocode_row_call _ _ _ _ _ _ He). rewrite fmap_cons.
      match goal with |- context [bind ?m ?k] => destruct (bind m k) as [e|r1] end.
      * cbn [fst snd]. split; [|discriminate].
        apply (prefix_cons _ []), prefix_nil.
      * cbn [fst snd]. split.
        -- apply prefix_cons, IHp.
        -- intros df' H. cbn [app]. f_equal. 
           destruct (loop df).2 as [e|df1]; [discriminate|].
           by eapply IHe.
    + rewrite (geocode_row_skip _ _ _ _ _ _ Hne). cbn [fst snd app ret].
      split; [exact IHp|].
      intros df' H.
      destruct (loop df).2 as [e|df1]; [discriminate|].
      by eapply IHe.
Qed.

End GeocodingLoopFacts.


(** ** What [IOU] can return *)

Lemma fgt_not_below (x m : float) (t : Q) :
  isnan x = false → flt x m = false → fgt m t = true → fgt x t = true.
Proof.
  destruct x as [|[]|p], m as [|[]|q]; cbn; try done.
  intros _ Hpq%Qlt_bool_false Htq%Qlt_bool_iff.
  apply Qlt_bool_iff. eapply Qlt_le_trans; eassumption.
Qed.

Lemma series_idxmax_Some s i :
  series_idxmax s = Some i →
  ∃ x, (i, x) ∈ s ∧ isnan x = false ∧ flt x (series_max s) = false.
Proof.
  unfold series_idxmax. cbv zeta.
  destruct (head (filter _ s)) as [[j x]|] eqn:E; [|discriminate].
  intros [= ->]. apply head_Some_elem_of, list_elem_of_filter in E as [Hc Hin].
  cbn [snd] in Hc. exists x. split; [exact Hin|].
  destruct (isnan x), (flt x (series_max s)); cbn in Hc; done.
Qed.

Section SpatialMatcherRange.

Variable geom : Type.
Variable intersects : geom → box → bool.
Variable intersection_area : geom → box → Q.
Variable LAD : list (string * geom).

Local Abbreviation IOU' := (IOU geom intersects intersection_area LAD).
Local Abbreviation ratio := (overlap_ratio geom intersection_area).

(** X11: a name that [IOU] returns is the name of a row of [LAD] whose shape
    intersects the box and covers more than 0.6 of it; the box then has
    four finite bounds and a vertical span of at most 2.  A row of fewer
    than four cells gives ['']. *)
Theorem IOU_names_a_unit (se : list float) :
  IOU geom intersects intersection_area LAD se ≠ "" →
  ∃ south west north east rest i g,
    se = Num south :: Num west :: Num north :: Num east :: rest
    ∧ (north - south <= 2)%Q
    ∧ LAD !! i = Some (IOU geom intersects intersection_area LAD se, g)
    ∧ intersects g {| minx := west; miny := south;
                      maxx := east; maxy := north |} = true
    ∧ fgt (overlap_ratio geom intersection_area g
             {| minx := west; miny := south;
                maxx := east; maxy := north |}) (6 # 10) = true.
Proof.
  unfold IOU.
  destruct se as [|y1 [|x1 [|y2 [|x2 rest]]]]; try done.
  destruct (isnan y1 || fgt (fsub y2 y1) 2) eqn:Hspan; [done|].
  apply orb_false_elim in Hspan as [Hy1 Hspan].
  destruct (geometry_box x1 y1 x2 y2) as [poly2|] eqn:Hbox; [|done].
  destruct x1 as [| |west], y1 as [| |south], x2 as [| |east],
    y2 as [| |north]; try discriminate.
  injection Hbox as <-. cbn [fsub fgt] in Hspan.
  apply Qlt_bool_false in Hspan.
  match goal with
  | |- context [fgt (series_max ?s) _] => set (cells := s)
  end.
  destruct (fgt (series_max cells) (6 # 10)) eqn:Hmax; [|done].
  destruct (series_idxmax cells) as [i|] eqn:Hidx; [|done].
  apply series_idxmax_Some in Hidx as (x & Hin & Hnan & Hx).
  subst cells.
  apply list_elem_of_fmap in Hin as ([j [name g]] & Heq & Hrow).
  cbn [fst snd] in Heq. injection Heq as -> ->.
  apply list_elem_of_filter in Hrow as [Hi Hrow]. cbn [snd] in Hi.
  apply elem_of_lookup_imap in Hrow as (k & u & Heq & Hu).
  injection Heq as <- <-. rewrite Hu.
  cbn [fmap option_fmap option_map default fst].
  intros _. exists south, west, north, east, rest, j, g.
  repeat split; try done.
  eapply fgt_not_below; eassumption.
Qed.

End SpatialMatcherRange.

(** ** The pass of [IOU] over the place table *)

Lemma apply_r_Forall2 {A B} (f : A → result B) (l : list A) (ys : list B) :
  apply_r f l = inr ys ↔ Forall2 (fun x y => f x = inr y) l ys.
Proof.
  revert ys. induction l as [|x l IH]; intros ys; cbn [apply_r].
  - split.
    + intros [= <-]. constructor.
    + intros ->%Forall2_nil_inv_l. reflexivity.
  - split.
    + intros (y & Hy & H)%bind_inr. apply bind_inr in H as (ys' & Hys & H).
      injection H as <-. constructor; [exact Hy | by apply IH].
    + intros (y & ys' & Hy & Hys & ->)%Forall2_cons_inv_l.
      rewrite Hy. cbn [bind]. apply IH in Hys as ->. reflexivity.
Qed.

Section PlaceTableFacts.

Variable lookup_df : list lookup_row.
Variable ward_df : list (string * string).
Variable depth : nat.
Variable geom : Type.
Variable intersects : geom → box → bool.
Variable intersection_area : geom → box → Q.
Variable LAD : list (string * geom).

Local Abbreviation matches := (match_r lookup_df ward_df depth).
Local Abbreviation IOU' := (IOU geom intersects intersection_area LAD).
Local Abbreviation pass :=
  (IOU_pass lookup_df ward_df depth geom intersects intersection_area LAD).

Local Abbreviation row_spec :=
  (IOU_row lookup_df ward_df depth geom intersects intersection_area LAD).

Lemma zip_with_cons {A B C} (f : A → B → C) x l y k :
  zip_with f (x :: l) (y :: k) = f x y :: zip_with f l k.
Proof. reflexivity. Qed.

Lemma ret_inr {A} (a b : A) : @ret A a = inr b → a = b.
Proof. by intros [= ->]. Qed.

Lemma IOU_pass_cons r df out :
  pass (r :: df) = inr out →
  ∃ o out', out = o :: out' ∧ row_spec r o ∧ pass df = inr out'.
Proof.
  unfold IOU_pass, locality_match, locality_IOU, IOU_update. cbv zeta.
  rewrite fmap_cons. cbn [apply_r].
  intros (ms & Hms & H)%bind_inr.
  apply bind_inr in Hms as (m & Hm & Hms).
  apply bind_inr in Hms as (ms' & Hms' & Hms). apply ret_inr in Hms as <-.
  apply bind_inr in H as (lm & Hlm & H). apply ret_inr in H as <-.
  rewrite !zip_with_cons, fmap_cons in Hlm. cbn [apply_r] in Hlm.
  apply bind_inr in Hlm as (m1 & Hm1 & Hlm).
  apply bind_inr in Hlm as (lm' & Hlm' & Hlm). apply ret_inr in Hlm as <-.
  rewrite !zip_with_cons.
  eexists _, _. split; [reflexivity|]. split.
  - exists m. cbn [fst snd]. done.
  - rewrite Hms'. cbn [bind]. rewrite Hlm'. reflexivity.
Qed.

(** X12: when the pass ends normally, a row takes the name that [IOU] gives
    for its bounding box exactly when [match] puts that name at the
    district level, and is as it was otherwise; the column
    [locality_match] is [match] of the locality the row then has. *)
Theorem IOU_pass_rows df out :
  IOU_pass lookup_df ward_df depth geom intersects intersection_area LAD df
  = inr out →
  Forall2
    (IOU_row lookup_df ward_df depth geom intersects intersection_area LAD)
    df out.
Proof.
  revert out. induction df as [|r df IH]; intros out H.
  - injection H as <-. constructor.
  - apply IOU_pass_cons in H as (o & out' & -> & Ho & H).
    constructor; [exact Ho | apply IH, H].
Qed.

Lemma IOU_pass_lookup df out i r :
  pass df = inr out → df !! i = Some r →
  ∃ o, out !! i = Some o ∧ row_spec r o.
Proof.
  revert out i. induction df as [|r0 df IH]; intros out i H Hr; [done|].
  apply IOU_pass_cons in H as (o & out' & -> & Ho & H).
  destruct i as [|i].
  - injection Hr as ->. by exists o.
  - by apply (IH out' i).
Qed.

Lemma IOU_pass_matches df out :
  pass df = inr out →
  Forall (fun o : place_row * nat => matches (locality o.1) = inr o.2) out.
Proof.
  revert out. induction df as [|r df IH]; intros out H.
  - injection H as <-. constructor.
  - apply IOU_pass_cons in H as (o & out' & -> & (m & _ & _ & Ho) & H).
    constructor; [exact Ho | apply IH, H].
Qed.

(** X13: a row that has no bounding box is left as it is, provided the empty
    string is no district name and no alias of one. *)
Theorem IOU_pass_keeps_rows_without_box df out i r :
  match_r lookup_df ward_df depth "" ≠ inr 1 →
  IOU_pass lookup_df ward_df depth geom intersects intersection_area LAD df
  = inr out →
  df !! i = Some r →
  isnan (bbox0 r) = true →
  ∃ m, out !! i = Some (r, m)
       ∧ match_r lookup_df ward_df depth (locality r) = inr m.
Proof.
  intros Hempty Hpass Hr Hnan.
  destruct (IOU_pass_lookup _ _ _ _ Hpass Hr)
    as ([r' m'] & Ho & m & Hm & Hr' & Hm').
  cbn [fst snd] in Hr', Hm'.
  assert (IOU' (bbox_cells r) = "") as HIOU.
  { unfold IOU, bbox_cells. rewrite Hnan. reflexivity. }
  rewrite HIOU in Hm, Hr'.
  destruct (m =? 1)%nat eqn:E.
  - apply Nat.eqb_eq in E as ->. done.
  - subst r'. exists m'. done.
Qed.

End PlaceTableFacts.

(** ** The user-home table of a month *)

Section UserHomeTableFacts.

Variable twitter_LAD : list (Z * string).

Local Abbreviation count_df := (twitter_LAD_count_df twitter_LAD).
Local Abbreviation posts u := (posts_of u twitter_LAD).

Lemma final_row_userid r : userid (final_row twitter_LAD r) = userid r.
Proof. unfold final_row. case_decide; [done|]. apply localize_userid. Qed.

Lemma final_row_counts r : counts (final_row twitter_LAD r) = counts r.
Proof.
  unfold final_row, localize. case_decide; [done|].
  by destruct (home r).
Qed.

Lemma user_home_userids :
  userid <$> user_home twitter_LAD = fst <$> user_LAD_counts twitter_LAD.
Proof.
  rewrite user_home_rows, user_LAD_merged_rows, <- !list_fmap_compose.
  apply list_fmap_ext. intros i a _. unfold compose.
  by rewrite final_row_userid.
Qed.

Lemma elem_of_user_LAD_counts a :
  a ∈ user_LAD_counts twitter_LAD ↔ a.2 = posts a.1 ∧ 1 < a.2.
Proof.
  unfold user_LAD_counts. rewrite list_elem_of_filter.
  destruct a as [u n]. rewrite elem_of_value_counts. cbn [fst snd].
  unfold posts_of. split.
  - intros [Hn [_ ->]]. done.
  - intros [-> Hn]. repeat split; [done|].
    destruct (decide (u ∈ twitter_LAD.*1)) as [Hin | Hin]; [done|].
    rewrite (occurrences_absent _ _ Hin) in Hn. lia.
Qed.

(** X14: the table has a row for a user exactly when the user has at least
    two located posts in the month. *)
Theorem user_home_users u :
  u ∈ userid <$> user_home twitter_LAD ↔ 1 < posts u.
Proof.
  rewrite user_home_userids, list_elem_of_fmap. split.
  - intros (a & -> & [Ha Hlt]%elem_of_user_LAD_counts). lia.
  - intros Hlt. exists (u, posts u). split; [done|].
    by apply elem_of_user_LAD_counts.
Qed.

(** X15: [counts] is the number of the user's located posts, at least 2, and
    the rows are in descending order of [counts]. *)
Theorem user_home_counts_sorted :
  Forall (fun r => counts r = posts (userid r) ∧ 1 < counts r)
    (user_home twitter_LAD)
  ∧ StronglySorted (fun a b => counts b ≤ counts a) (user_home twitter_LAD).
Proof.
  rewrite user_home_rows, user_LAD_merged_rows, <- list_fmap_compose. split.
  - apply Forall_fmap, Forall_forall. intros a Ha. unfold compose.
    rewrite final_row_userid, final_row_counts. cbn [merged_row userid counts].
    by apply elem_of_user_LAD_counts.
  - eapply StronglySorted_fmap; [|apply user_LAD_counts_sorted].
    intros a b Hab. unfold compose. rewrite !final_row_counts. exact Hab.
Qed.

Lemma oneloc_home_Some_posts u X :
  oneloc_home twitter_LAD u = Some X →
  ∀ p, p ∈ twitter_LAD → p.1 = u ↔ p = (u, X).
Proof.
  unfold oneloc_home.
  destruct (filter _ (user_loc_pair twitter_LAD)) as [|b [|b' l]] eqn:E;
    try discriminate.
  intros [= <-] p Hp.
  assert (Hb : b ∈ user_pairs twitter_LAD u).
  { unfold user_pairs. rewrite E. apply list_elem_of_here. }
  apply elem_of_user_pairs in Hb as [Hbu _].
  split.
  - intros Hpu.
    assert (Hin : p ∈ user_pairs twitter_LAD u) by by apply elem_of_user_pairs.
    unfold user_pairs in Hin. rewrite E in Hin.
    apply list_elem_of_singleton in Hin as ->. destruct b; cbn in *; by subst.
  - by intros ->.
Qed.

Lemma oneloc_home_share u X :
  oneloc_home twitter_LAD u = Some X →
  occurrences (u, X) twitter_LAD = posts u.
Proof.
  intros H. unfold posts_of. rewrite occurrences_fst. unfold occurrences.
  f_equal. apply filter_ext_elem. intros p Hp.
  symmetry. by apply oneloc_home_Some_posts.
Qed.

Lemma sorted_head_max {A} (l : list (A * nat)) r :
  StronglySorted count_ge l → head l = Some r → max_list l.*2 = r.2.
Proof.
  destruct l as [|r' rest]; [done|]. intros Hs [= ->].
  apply StronglySorted_inv in Hs as [_ Hr]. rewrite fmap_cons.
  change (max_list (r.2 :: rest.*2)) with (r.2 `max` max_list rest.*2).
  destruct (decide (rest.*2 = [])) as [-> | Hne]; [cbn; lia|].
  apply max_list_elem_of, list_elem_of_fmap in Hne as (x & Hmax & Hx).
  rewrite Forall_forall in Hr. specialize (Hr x Hx). unfold count_ge in Hr.
  lia.
Qed.

Lemma user_localization_share u X :
  user_localization count_df u = X → X ≠ "" →
  1 < posts u ∧ 65 * posts u < 100 * occurrences (u, X) twitter_LAD.
Proof.
  unfold user_localization. cbv zeta.
  change (filter _ count_df) with (temp_rows twitter_LAD u).
  rewrite temp_rows_sum.
  destruct (1 <? posts u) eqn:Hn; [|by intros <-].
  apply Nat.ltb_lt in Hn.
  destruct (share_exceeds _ _ _) eqn:Hs; [|by intros <-].
  cbn [andb]. apply share_exceeds_65 in Hs; [|lia].
  destruct (head (temp_rows twitter_LAD u)) as [[[u' X'] c]|] eqn:Hh;
    [|by intros <-].
  cbn. intros <- _.
  rewrite (sorted_head_max _ _ (temp_rows_sorted twitter_LAD u) Hh) in Hs.
  apply head_Some_elem_of, elem_of_temp_rows in Hh as (Hu & _ & ->).
  cbn in Hu. subst u'. done.
Qed.

(** X16: [user_localization] returns a given locality, other than [''],
    exactly when the user has at least two located posts and more than 65%
    of them are in that locality. *)
Theorem user_localization_result u X :
  X ≠ "" →
  user_localization count_df u = X
  ↔ 1 < posts u ∧ 65 * posts u < 100 * occurrences (u, X) twitter_LAD.
Proof.
  intros HX. split.
  - intros H. by apply user_localization_share.
  - intros [Hn Hs]. by apply user_localization_modal.
Qed.

Lemma home_of_user_home_share u X :
  home_of (user_home twitter_LAD) u = Some X → X ≠ "" →
  1 < posts u ∧ 65 * posts u < 100 * occurrences (u, X) twitter_LAD.
Proof.
  rewrite home_of_user_home. case_decide as Hn; [|done].
  unfold final_row, merged_row, localize. cbn [counts home userid fst snd].
  destruct (oneloc_home twitter_LAD u) as [X'|] eqn:Hone.
  - intros Hhome HX.
    assert (X' = X) as ->
      by (destruct (decide (posts u = 2)); cbn in Hhome; congruence).
    rewrite (oneloc_home_share _ _ Hone). lia.
  - case_decide; [done|]. cbn [with_home home]. intros [= Hloc] HX.
    by apply user_localization_share.
Qed.

Lemma home_of_user_home_dominant u X :
  X ≠ "" →
  1 < posts u → 65 * posts u < 100 * occurrences (u, X) twitter_LAD →
  home_of (user_home twitter_LAD) u = Some X.
Proof.
  intros HX Hn Hs. rewrite home_of_user_home, decide_True by done.
  pose proof (user_localization_modal twitter_LAD u X Hn Hs) as Hloc.
  unfold final_row, merged_row, localize. cbn [counts home userid fst snd].
  destruct (oneloc_home twitter_LAD u) as [X'|] eqn:Hone.
  - rewrite (user_localization_oneloc _ _ _ Hn Hone) in Hloc. subst X'.
    by case_decide.
  - case_decide as H2.
    + rewrite (user_localization_two_posts _ _ H2 Hone) in Hloc. done.
    + cbn [with_home home]. by rewrite Hloc.
Qed.

(** X17: the home written for a user is a given locality, other than [''],
    exactly when the user has at least two located posts in the month and
    more than 65% of them are in that locality. *)
Theorem home_iff_dominant_locality u X :
  X ≠ "" →
  home_of (user_home twitter_LAD) u = Some X
  ↔ 1 < posts u ∧ 65 * posts u < 100 * occurrences (u, X) twitter_LAD.
Proof.
  intros HX. split.
  - intros Hhome. by apply home_of_user_home_share.
  - intros [Hn Hs]. by apply home_of_user_home_dominant.
Qed.

Lemma NoDup_user_home_userids : NoDup (userid <$> user_home twitter_LAD).
Proof.
  rewrite user_home_userids. unfold user_LAD_counts.
  eapply sublist_NoDup; [apply NoDup_value_counts|].
  apply fmap_sublist, sublist_filter.
Qed.

End UserHomeTableFacts.

(** X18: the loop writes the [home] cell of rows before [endline] that have
    no home yet, and nothing else: the table keeps its length and its
    columns [userid] and [counts], and a row that has a home, or that is
    at [endline] or after, is as it was. *)
Theorem threshold_loop_frame count_df n df :
  length (threshold_loop count_df n df) = length df
  ∧ userid <$> threshold_loop count_df n df = userid <$> df
  ∧ counts <$> threshold_loop count_df n df = counts <$> df
  ∧ ∀ i r, df !! i = Some r → is_Some (home r) ∨ n ≤ i →
           threshold_loop count_df n df !! i = Some r.
Proof.
  rewrite threshold_loop_take_drop.
  assert (Hu : ∀ r, userid (localize count_df r) = userid r)
    by apply localize_userid.
  assert (Hc : ∀ r, counts (localize count_df r) = counts r).
  { intros r. unfold localize. by destruct (home r). }
  repeat split.
  - rewrite length_app, length_fmap, <- length_app, take_drop. done.
  - rewrite fmap_app, <- list_fmap_compose.
    rewrite (list_fmap_ext (userid ∘ localize count_df) userid (take n df))
      by (intros; apply Hu).
    by rewrite <- fmap_app, take_drop.
  - rewrite fmap_app, <- list_fmap_compose.
    rewrite (list_fmap_ext (counts ∘ localize count_df) counts (take n df))
      by (intros; apply Hc).
    by rewrite <- fmap_app, take_drop.
  - intros i r Hr Hcase.
    destruct (decide (i < n)) as [Hlt | Hge].
    + destruct Hcase as [[h Hh] | Hle]; [|lia].
      apply lookup_app_l_Some. rewrite list_lookup_fmap, lookup_take_lt by done.
      rewrite Hr. cbn. unfold localize. by rewrite Hh.
    + destruct (decide (n ≤ length df)) as [Hn | Hn].
      * rewrite lookup_app_r; rewrite length_fmap, length_take_le by done;
          [|lia].
        rewrite lookup_drop. rewrite <- Hr. f_equal. lia.
      * rewrite drop_ge, app_nil_r by lia. apply lookup_lt_Some in Hr. lia.
Qed.

(** ** The posts of a month with their locality *)

Section LeftMerge.

Context {A B K : Type} `{EqDecision K}.
Variable key_l : A → K.
Variable key_r : B → K.

Lemma elem_of_merge_left_on (left : list A) (right : list B) a ob :
  (a, ob) ∈ merge_left_on key_l key_r left right
  ↔ a ∈ left
    ∧ match ob with
      | Some b => b ∈ right ∧ key_r b = key_l a
      | None => filter (fun b => key_r b = key_l a) right = []
      end.
Proof.
  unfold merge_left_on. rewrite list_elem_of_bind. split.
  - intros (a' & Hin & Ha').
    destruct (filter (fun b => key_r b = key_l a') right) as [|b bs] eqn:E.
    + apply list_elem_of_singleton in Hin. injection Hin as -> ->. done.
    + apply list_elem_of_fmap in Hin as (b' & Heq & Hb').
      injection Heq as -> ->. split; [done|].
      rewrite <- E in Hb'. by apply list_elem_of_filter in Hb' as [? ?].
  - intros [Ha Hob]. exists a. split; [|done].
    destruct ob as [b|].
    + destruct Hob as [Hb Hk].
      assert (Hin : b ∈ filter (fun b => key_r b = key_l a) right)
        by by apply list_elem_of_filter.
      destruct (filter (fun b => key_r b = key_l a) right) as [|b0 bs];
        [by apply not_elem_of_nil in Hin|].
      by apply (list_elem_of_fmap_2 (fun b => (a, Some b))).
    + rewrite Hob. apply list_elem_of_here.
Qed.

Lemma merge_left_on_functional (left : list A) (right : list B) :
  NoDup (key_r <$> right) →
  merge_left_on key_l key_r left right
  = (fun a => (a, head (filter (fun b => key_r b = key_l a) right))) <$> left.
Proof.
  intros Hnd. unfold merge_left_on.
  induction left as [|a left IH]; [done|].
  rewrite fmap_cons. cbn [mbind list_bind]. rewrite IH. f_equal.
  pose proof (filter_key_length key_r right (key_l a) Hnd) as Hlen.
  destruct (filter (fun b => key_r b = key_l a) right) as [|b [|b' bs]];
    [done|done|cbn in Hlen; lia].
Qed.

End LeftMerge.

Section MonthlyPostsFacts.

Variable place_LAD : list (option string * option string * nat).
Variable twitter_df : list (Z * option string).

Local Abbreviation located := (monthly_twitter_LAD place_LAD twitter_df).

Lemma monthly_twitter_LAD_source u X :
  (u, X) ∈ located →
  ∃ loc, (u, loc) ∈ twitter_df ∧ (loc, Some X, 1) ∈ place_LAD.
Proof.
  unfold monthly_twitter_LAD. rewrite list_elem_of_omap.
  intros ([[u' loc] ob] & Hin & Hg).
  apply elem_of_merge_left_on in Hin as [Hpost Hob].
  destruct ob as [[loc' oX]|]; [|done]. destruct oX as [X'|]; [|done].
  cbn in Hg. injection Hg as -> ->. cbn [fst snd] in Hob.
  destruct Hob as [Hrow ->]. exists loc. split; [done|].
  unfold loc_LAD in Hrow.
  apply list_elem_of_fmap in Hrow as ([[l oX] m] & Heq & Hrow).
  cbn in Heq. injection Heq as <- <-.
  apply list_elem_of_filter in Hrow as [Hm Hrow]. cbn in Hm. by subst m.
Qed.

(** X19: a post is kept with a locality exactly when its location cell is
    that of a row of the place table that is matched at the district level
    and holds this locality; a post whose location has no such row is
    dropped. *)
Theorem monthly_twitter_LAD_elem u X :
  (u, X) ∈ monthly_twitter_LAD place_LAD twitter_df
  ↔ ∃ loc, (u, loc) ∈ twitter_df ∧ (loc, Some X, 1) ∈ place_LAD.
Proof.
  split; [apply monthly_twitter_LAD_source|].
  unfold monthly_twitter_LAD. rewrite list_elem_of_omap.
  intros (loc & Hpost & Hrow).
  exists ((u, loc), Some (loc, Some X)). split; [|done].
  apply elem_of_merge_left_on. split; [done|]. split; [|done].
  unfold loc_LAD. apply (list_elem_of_fmap_2' _ _ (loc, Some X, 1));
    [|done].
  by apply list_elem_of_filter.
Qed.

Lemma length_filter_omap {C D} (P : D → Prop) `{∀ x, Decision (P x)}
    (Q : C → Prop) `{∀ x, Decision (Q x)} (g : C → option D) (l : list C) :
  (∀ c d, g c = Some d → P d → Q c) →
  length (filter P (omap g l)) ≤ length (filter Q l).
Proof.
  intros HPQ. induction l as [|c l IH]; [done|].
  cbn [omap list_omap]. rewrite (filter_cons Q).
  destruct (g c) as [d|] eqn:E.
  - rewrite filter_cons. destruct (decide (P d)) as [HP | HP].
    + rewrite decide_True by by eapply HPQ. cbn [length]. lia.
    + case_decide; cbn [length]; lia.
  - case_decide; cbn [length]; lia.
Qed.

(** X20: when the matched rows of the place table have distinct location
    cells, the merge gives no user more located posts than the user has
    posts in the month's file. *)
Theorem monthly_twitter_LAD_posts u :
  NoDup (fst <$> loc_LAD place_LAD) →
  posts_of u (monthly_twitter_LAD place_LAD twitter_df)
  ≤ occurrences u (fst <$> twitter_df).
Proof.
  intros Hnd. unfold posts_of. rewrite occurrences_fst.
  unfold occurrences at 1. rewrite filter_fmap, length_fmap.
  unfold monthly_twitter_LAD. rewrite merge_left_on_functional by done.
  etrans.
  - apply (length_filter_omap _
             (fun m : (Z * option string)
                      * option (option string * option string) =>
                m.1.1 = u)).
    intros [[u' loc] ob] [u'' X]. cbn [fst snd].
    destruct ob as [[l [X'|]]|]; try done.
    cbn. by intros [= -> ->].
  - by rewrite filter_fmap, length_fmap.
Qed.

(** X21: a home written for the month is the locality of a row of the
    place table that is matched at the district level, for the location
    of one of the user's posts. *)
Theorem home_is_matched_place u X :
  home_of (user_home (monthly_twitter_LAD place_LAD twitter_df)) u = Some X →
  X ≠ "" →
  ∃ loc, (u, loc) ∈ twitter_df ∧ (loc, Some X, 1) ∈ place_LAD.
Proof.
  intros Hhome HX.
  destruct (home_of_user_home_share _ _ _ Hhome HX) as [Hn Hs].
  apply monthly_twitter_LAD_source.
  destruct (decide ((u, X) ∈ located)) as [Hin | Hin]; [done|].
  rewrite (occurrences_absent _ _ Hin) in Hs. lia.
Qed.

End MonthlyPostsFacts.

(** ** The flow table as a whole *)

Lemma home_of_Some_userid df u h :
  home_of df u = Some h → u ∈ userid <$> df.
Proof.
  unfold home_of.
  destruct (head (filter _ df)) as [r|] eqn:E; [|done]. intros _.
  apply head_Some_elem_of, list_elem_of_filter in E as [<- Hr].
  by apply list_elem_of_fmap_2.
Qed.

Section MigrationTableFacts.

Variable read_userhome : nat → nat → list user_row.

Local Abbreviation flows := (migration read_userhome).
Local Abbreviation mdf := (migration_df read_userhome).
Local Abbreviation merged := (merged_months read_userhome).

Lemma elem_of_migration_df y1 m1 y2 m2 k :
  k ∈ mdf y1 m1 y2 m2 →
  k.1 ≠ k.2
  ∧ ∃ m, m ∈ merged y1 m1 y2 m2 ∧ home_x m = Some k.1 ∧ home_y m = Some k.2.
Proof.
  unfold migration_df. cbv zeta.
  intros (m & Hm & Hk)%list_elem_of_omap.
  apply list_elem_of_filter in Hm as [Hne Hm].
  apply list_elem_of_filter in Hm as [_ Hm].
  destruct (home_x m) as [x|] eqn:Ex; [|done].
  destruct (home_y m) as [y|] eqn:Ey; [|done].
  cbn in Hk. injection Hk as <-. cbn [fst snd]. split; [congruence|].
  by exists m.
Qed.

(** X22: every row of the flow table has different origin and destination,
    a flow of at least one and the labels of the two months; no pair of
    origin and destination has two rows. *)
Theorem migration_rows_well_formed y1 m1 y2 m2 :
  Forall (fun r => origin_LAD r ≠ destination_LAD r
                   ∧ 1 ≤ flow r
                   ∧ month_start r = month_label y1 m1
                   ∧ month_end r = month_label y2 m2)
    (migration read_userhome y1 m1 y2 m2)
  ∧ NoDup ((fun r => (origin_LAD r, destination_LAD r))
             <$> migration read_userhome y1 m1 y2 m2).
Proof.
  unfold migration. cbv zeta. split.
  - apply Forall_fmap, Forall_forall. intros k Hk.
    rewrite merge_sort_Permutation, elem_of_drop_duplicates in Hk.
    cbn [origin_LAD destination_LAD flow month_start month_end].
    repeat split.
    + by apply elem_of_migration_df in Hk as [Hne _].
    + by apply occurrences_pos.
  - rewrite <- list_fmap_compose.
    rewrite (list_fmap_ext _ id
               (merge_sort key_le (drop_duplicates (mdf y1 m1 y2 m2)))).
    + rewrite list_fmap_id, merge_sort_Permutation.
      apply NoDup_drop_duplicates.
    + by intros i [o d] _.
Qed.

(** X23: the flows add up to the number of rows of the merged table whose
    two homes are strings and differ. *)
Theorem migration_total_flow y1 m1 y2 m2 :
  sum_list (flow <$> migration read_userhome y1 m1 y2 m2)
  = length (filter (fun m => is_Some (home_x m) ∧ is_Some (home_y m)
                             ∧ home_x m ≠ home_y m)
              (merged_months read_userhome y1 m1 y2 m2)).
Proof.
  unfold migration. cbv zeta. rewrite <- list_fmap_compose.
  rewrite (list_fmap_ext _ (fun k => occurrences k (mdf y1 m1 y2 m2))
             (merge_sort key_le (drop_duplicates (mdf y1 m1 y2 m2))))
    by done.
  rewrite merge_sort_Permutation.
  rewrite (sum_occurrences (fun _ => True) _ (mdf y1 m1 y2 m2)).
  - rewrite filter_all by by apply Forall_forall.
    unfold migration_df. cbv zeta.
    generalize (merged y1 m1 y2 m2). intros l.
    induction l as [|m l IH]; [done|].
    rewrite !(filter_cons _ m).
    destruct (decide (is_Some (home_x m) ∧ is_Some (home_y m)))
      as [[[x Ex] [y Ey]] | Hno].
    + rewrite filter_cons.
      destruct (decide (home_x m ≠ home_y m)) as [Hxy | Hxy].
      * rewrite decide_True
          by (split; [by eexists | split; [by eexists | done]]).
        cbn [omap list_omap]. rewrite Ex, Ey. cbn [mbind option_bind length].
        by rewrite <- IH.
      * rewrite decide_False by tauto. exact IH.
    + rewrite decide_False by tauto. exact IH.
  - apply NoDup_drop_duplicates.
  - done.
  - intros k Hk _. by apply elem_of_drop_duplicates.
Qed.

(** The flow between two homes as a sum over the users of the first
    month. *)
Lemma flow_between_users y1 m1 y2 m2 o d :
  NoDup (userid <$> read_userhome y1 m1) →
  NoDup (userid <$> read_userhome y2 m2) →
  flow_between o d (flows y1 m1 y2 m2)
  = length (filter (fun u => home_of (read_userhome y1 m1) u = Some o
                             ∧ home_of (read_userhome y2 m2) u = Some d
                             ∧ o ≠ d)
              (userid <$> read_userhome y1 m1)).
Proof.
  intros Hnd1 Hnd2.
  rewrite flow_between_occurrences, migration_df_occurrences.
  unfold merged_months. rewrite merge_left_functional
    by (intros; by apply filter_key_length).
  rewrite !filter_fmap, !length_fmap. f_equal.
  apply filter_ext_elem. intros a Ha.
  assert (home_of (read_userhome y1 m1) (userid a) = home a) as H1.
  { unfold home_of. by rewrite (filter_key_NoDup userid _ a). }
  rewrite H1. unfold home_x, home_y, home_of. cbn [fst snd]. done.
Qed.

(** X24: when each table has one row per user, the flow from [o] to [d]
    between two months is the flow from [d] to [o] when the months are
    taken in the other order. *)
Theorem migration_reversed y1 m1 y2 m2 o d :
  NoDup (userid <$> read_userhome y1 m1) →
  NoDup (userid <$> read_userhome y2 m2) →
  flow_between o d (migration read_userhome y1 m1 y2 m2)
  = flow_between d o (migration read_userhome y2 m2 y1 m1).
Proof.
  intros Hnd1 Hnd2. rewrite !flow_between_users by done.
  apply Permutation_length, NoDup_Permutation.
  - by apply NoDup_filter.
  - by apply NoDup_filter.
  - intros u. rewrite !list_elem_of_filter. split.
    + intros [(H1 & H2 & Hne) _]. split; [done|].
      by eapply home_of_Some_userid.
    + intros [(H2 & H1 & Hne) _]. split; [done|].
      by eapply home_of_Some_userid.
Qed.

(** X25: a table with one row per user, compared with itself, gives no
    flow. *)
Theorem migration_same_month y m :
  NoDup (userid <$> read_userhome y m) →
  migration read_userhome y m y m = [].
Proof.
  intros Hnd.
  assert (mdf y m y m = []) as Hmdf.
  { unfold migration_df, merged_months. cbv zeta.
    rewrite merge_left_functional by (intros; by apply filter_key_length).
    rewrite (filter_none (fun m0 => home_x m0 ≠ home_y m0)); [done|].
    apply Forall_forall. intros m0 [_ Hm0]%list_elem_of_filter.
    apply list_elem_of_fmap in Hm0 as (a & -> & Ha).
    rewrite (filter_key_NoDup userid _ a) by done.
    unfold home_x, home_y. cbn. tauto. }
  unfold migration. cbv zeta. by rewrite Hmdf.
Qed.

End MigrationTableFacts.

(** ** The order of the flow table *)

Lemma string_compare_refl (s : string) : String.compare s s = Eq.
Proof.
  pose proof (String.compare_antisym s s) as H.
  destruct (String.compare s s); done.
Qed.

Lemma string_compare_Lt (a b : string) :
  String.compare a b = Lt ↔ String.le a b ∧ a ≠ b.
Proof.
  unfold String.le, String.leb. split.
  - intros H. rewrite H. split; [done|].
    intros ->. by rewrite string_compare_refl in H.
  - intros [Hle Hne]. destruct (String.compare a b) eqn:E; [|done|done].
    by apply String.compare_eq_iff in E.
Qed.

#[global] Instance key_le_total : Total key_le.
Proof.
  intros a b. unfold key_le.
  rewrite (String.compare_antisym b.1 a.1).
  destruct (String.compare a.1 b.1); cbn [CompOpp]; [|by left|by right].
  apply String.le_total.
Qed.

#[global] Instance key_le_trans : Transitive key_le.
Proof.
  intros a b c. unfold key_le.
  destruct (String.compare a.1 b.1) eqn:Eab; [| |done];
    destruct (String.compare b.1 c.1) eqn:Ebc; try done.
  - apply String.compare_eq_iff in Eab, Ebc. rewrite Eab, Ebc.
    rewrite string_compare_refl. intros ? ?. by etrans.
  - apply String.compare_eq_iff in Eab. rewrite Eab, Ebc. done.
  - apply String.compare_eq_iff in Ebc. rewrite <- Ebc, Eab. done.
  - intros _ _. apply string_compare_Lt in Eab as [Hab Hne].
    apply string_compare_Lt in Ebc as [Hbc Hne'].
    assert (String.compare a.1 c.1 = Lt) as ->; [|done].
    apply string_compare_Lt. split; [by etrans|].
    intros Heq. rewrite <- Heq in Hbc. apply Hne.
    by apply (anti_symm String.le).
Qed.

(** X26: the rows of the flow table come in the order of their pairs
    (origin, destination), compared as strings, first by origin. *)
Theorem migration_rows_sorted read_userhome y1 m1 y2 m2 :
  StronglySorted key_le
    ((fun r => (origin_LAD r, destination_LAD r))
       <$> migration read_userhome y1 m1 y2 m2).
Proof.
  unfold migration. cbv zeta. rewrite <- list_fmap_compose.
  rewrite (list_fmap_ext _ id
             (merge_sort key_le
                (drop_duplicates
                   (migration_df read_userhome y1 m1 y2 m2)))).
  - rewrite list_fmap_id. apply StronglySorted_merge_sort; apply _.
  - by intros i [o d] _.
Qed.

(** ** From the located posts of two months to the flows *)

Section FlowsFromPosts.

Variable is_na : string → bool.
Hypothesis is_na_empty : is_na "" = true.

Lemma home_of_read_csv df u X :
  is_na X = false →
  home_of (read_csv is_na (to_csv df)) u = Some X ↔ home_of df u = Some X.
Proof.
  intros HX. unfold home_of, read_csv, to_csv.
  rewrite <- list_fmap_compose, filter_fmap.
  cbn [compose userid fst snd].
  destruct (filter (fun r => userid r = u) df) as [|r l]; [done|].
  cbn [fmap list_fmap head mbind option_bind compose home fst snd].
  unfold read_home, csv_home.
  destruct (home r) as [h|]; cbn [default from_option id].
  - destruct (is_na h) eqn:Eh; [|done].
    split; [done|]. intros [= ->]. congruence.
  - rewrite is_na_empty. done.
Qed.

Variable located_posts : nat → nat → list (Z * string).

Lemma NoDup_userhome_file y m :
  NoDup (userid <$> userhome_file is_na located_posts y m).
Proof.
  unfold userhome_file, read_csv, to_csv. rewrite <- !list_fmap_compose.
  apply NoDup_user_home_userids.
Qed.

(** X27: from the located posts to the flow.  For two different localities
    [o] and [d] that [read_csv] does not take for NaN, the flow from [o]
    to [d] between two months is the number of users who, in each of the
    two months, have at least two located posts, with more than 65% of
    them in [o] in the first month and more than 65% of them in [d] in
    the second. *)
Theorem flows_from_posts y1 m1 y2 m2 o d :
  is_na o = false → is_na d = false → o ≠ d →
  flow_between o d
    (migration (userhome_file is_na located_posts) y1 m1 y2 m2)
  = length
      (filter
         (fun u =>
            (1 < posts_of u (located_posts y1 m1)
             ∧ 65 * posts_of u (located_posts y1 m1)
               < 100 * occurrences (u, o) (located_posts y1 m1))
            ∧ (1 < posts_of u (located_posts y2 m2)
               ∧ 65 * posts_of u (located_posts y2 m2)
                 < 100 * occurrences (u, d) (located_posts y2 m2)))
         (remove_dups (fst <$> located_posts y1 m1))).
Proof.
  intros Ho Hd Hod.
  assert (Hoe : o ≠ "") by (intros ->; congruence).
  assert (Hde : d ≠ "") by (intros ->; congruence).
  rewrite flow_between_users by apply NoDup_userhome_file.
  apply Permutation_length, NoDup_Permutation.
  - apply NoDup_filter, NoDup_userhome_file.
  - apply NoDup_filter, NoDup_remove_dups.
  - intros u. rewrite !list_elem_of_filter.
    unfold userhome_file at 1 2. rewrite !home_of_read_csv by done.
    split.
    + intros [(H1 & H2 & _) _].
      apply home_of_user_home_share in H1 as [Hn1 Hs1]; [|done].
      apply home_of_user_home_share in H2 as [Hn2 Hs2]; [|done].
      split; [done|]. apply elem_of_remove_dups.
      destruct (decide (u ∈ (located_posts y1 m1).*1)) as [Hin | Hin]; [done|].
      unfold posts_of in Hn1. rewrite (occurrences_absent _ _ Hin) in Hn1. lia.
    + intros [[[Hn1 Hs1] [Hn2 Hs2]] _]. split.
      * repeat split; [by apply home_of_user_home_dominant..|done].
      * unfold userhome_file, read_csv, to_csv.
        rewrite <- !list_fmap_compose.
        change (u ∈ userid <$> user_home (located_posts y1 m1)).
        rewrite user_home_userids.
        apply (list_elem_of_fmap_2' _ _ (u, posts_of u (located_posts y1 m1)));
          [|done].
        by apply elem_of_user_LAD_counts.
Qed.

End FlowsFromPosts.

Lemma flows_from_posts_witness :
  flow_between "Bristol, City of" "Dundee City"
    (migration (userhome_file (String.eqb "") example_located_posts)
       2019 6 2020 6)
  = length
      (filter
         (fun u =>
            (1 < posts_of u (example_located_posts 2019 6)
             ∧ 65 * posts_of u (example_located_posts 2019 6)
               < 100 * occurrences (u, "Bristol, City of")
                         (example_located_posts 2019 6))
            ∧ (1 < posts_of u (example_located_posts 2020 6)
               ∧ 65 * posts_of u (example_located_posts 2020 6)
                 < 100 * occurrences (u, "Dundee City")
                           (example_located_posts 2020 6)))
         (remove_dups (fst <$> example_located_posts 2019 6))).
Proof.
  apply (flows_from_posts (String.eqb "") eq_refl example_located_posts
           2019 6 2020 6 "Bristol, City of" "Dundee City");
    [reflexivity | reflexivity | discriminate].
Defined.

Example example_flows_from_posts :
  migration (userhome_file (String.eqb "") example_located_posts)
    2019 6 2020 6
  = [ {| origin_LAD := "Bristol, City of"; destination_LAD := "Dundee City";
         flow := 1; month_start := "2019-06"; month_end := "2020-06" |} ].
Proof. vm_compute. reflexivity. Qed.

(** ** From the place table to the homes *)

(** X28: when the table that is filtered into [loc_LAD] is the file that the
    cell of [IOU] wrote, every home written for a month is a name that
    [match] puts at the district level: a district name, or an alias of
    one. *)
Theorem home_is_district_level lookup_df ward_df depth geom intersects
    intersection_area LAD is_na df out twitter_df u X :
  IOU_pass lookup_df ward_df depth geom intersects intersection_area LAD df
  = inr out →
  home_of
    (user_home (monthly_twitter_LAD (place_LAD_file is_na out) twitter_df)) u
  = Some X →
  X ≠ "" →
  match_r lookup_df ward_df depth X = inr 1.
Proof.
  intros Hpass Hhome HX.
  destruct (home_of_user_home_share _ _ _ Hhome HX) as [Hn Hs].
  set (located := monthly_twitter_LAD (place_LAD_file is_na out) twitter_df)
    in *.
  assert (Hin : (u, X) ∈ located).
  { destruct (decide ((u, X) ∈ located)) as [Hin | Hin]; [done|].
    rewrite (occurrences_absent _ _ Hin) in Hs. lia. }
  apply monthly_twitter_LAD_source in Hin as (loc & _ & Hrow).
  unfold place_LAD_file in Hrow.
  apply list_elem_of_fmap in Hrow as ([r m] & Heq & Ho).
  cbn [fst snd] in Heq. injection Heq as _ Hloc ->.
  apply IOU_pass_matches in Hpass. rewrite Forall_forall in Hpass.
  specialize (Hpass _ Ho). cbn [fst snd] in Hpass.
  unfold read_home in Hloc. destruct (is_na (locality r)); [done|].
  injection Hloc as ->. exact Hpass.
Qed.

Lemma home_is_district_level_witness :
  match_r shire_lookup_df [] 3 "Westshire" = inr 1.
Proof.
  apply (home_is_district_level shire_lookup_df [] 3 box rect_intersects
           rect_intersection_area example_LAD (String.eqb "")
           example_places example_places_LAD example_shire_posts 1
           "Westshire").
  - vm_compute. reflexivity.
  - vm_compute. reflexivity.
  - discriminate.
Defined.

(** * Further examples *)

(** ** Geocoding answers and the loop *)

Example example_address_candidate :
  address_candidate example_lookup_df example_ward_df 3
    {| addr_locality := Some "Old Mill";
       addr_formattedAddress := Some "Old Mill, South West" |}
  = inr "South West"
  ∧ address_candidate example_lookup_df example_ward_df 3
      {| addr_locality := Some "Bristol";
         addr_formattedAddress := None |}
    = inr "Bristol"
  ∧ address_candidate example_lookup_df example_ward_df 3
      {| addr_locality := None;
         addr_formattedAddress := Some "1 High Street, Atlantis" |}
    = inr "Atlantis".
Proof. by vm_compute. Qed.

Lemma resolve_answer_bbox_witness :
  location
    {| location := "The Old Mill"; locality := "South West";
       bbox0 := Num 1; bbox1 := Num 7; bbox2 := Num 2; bbox3 := Num 11 |}
  = location (unresolved_row "The Old Mill")
  ∧ ∃ res loc m,
      head (resources mill_answer) = Some res
      ∧ address_candidate example_lookup_df example_ward_df 3
          (res_address res) = inr loc
      ∧ match_r example_lookup_df example_ward_df 3 loc = inr m
      ∧ locality
          {| location := "The Old Mill"; locality := "South West";
             bbox0 := Num 1; bbox1 := Num 7; bbox2 := Num 2;
             bbox3 := Num 11 |}
        = default loc (PyDict.get loc [])
      ∧ bbox_cells
          {| location := "The Old Mill"; locality := "South West";
             bbox0 := Num 1; bbox1 := Num 7; bbox2 := Num 2;
             bbox3 := Num 11 |}
        = (if decide (m = 1) then bbox_cells (unresolved_row "The Old Mill")
           else Num <$> res_bbox res)
      ∧ ∀ l k, addr_locality (res_address res) = Some l →
               match_r example_lookup_df example_ward_df 3 l = inr (S k) →
               loc = l.
Proof.
  apply (resolve_answer_bbox example_lookup_df example_ward_df 3 []
           (unresolved_row "The Old Mill") mill_answer).
  vm_compute. reflexivity.
Defined.

Lemma geocoding_loop_frame_witness :
  Forall2 (fun r r' => location r' = location r ∧ (locality r ≠ "" → r' = r))
    example_before_geocoding example_after_geocoding.
Proof.
  apply (geocoding_loop_frame example_lookup_df example_ward_df 3 []
           mill_service example_before_geocoding
           [request_url "The Old Mill"]).
  vm_compute. reflexivity.
Defined.

Example example_requests :
  (geocoding_loop example_lookup_df example_ward_df 3 [] mill_service
     example_before_geocoding).1
  = [request_url "The Old Mill"].
Proof. vm_compute. reflexivity. Qed.

(** ** The pass of [IOU] *)

Lemma IOU_names_a_unit_witness :
  ∃ south west north east rest i g,
    [Num 1; Num 7; Num 2; Num 11]
    = Num south :: Num west :: Num north :: Num east :: rest
    ∧ (north - south <= 2)%Q
    ∧ example_LAD !! i
      = Some (IOU box rect_intersects rect_intersection_area example_LAD
                [Num 1; Num 7; Num 2; Num 11], g)
    ∧ rect_intersects g {| minx := west; miny := south;
                           maxx := east; maxy := north |} = true
    ∧ fgt (overlap_ratio box rect_intersection_area g
             {| minx := west; miny := south;
                maxx := east; maxy := north |}) (6 # 10) = true.
Proof.
  apply (IOU_names_a_unit box rect_intersects rect_intersection_area
           example_LAD [Num 1; Num 7; Num 2; Num 11]).
  vm_compute. discriminate.
Defined.

Lemma IOU_pass_rows_witness :
  Forall2
    (IOU_row shire_lookup_df [] 3 box rect_intersects rect_intersection_area
       example_LAD)
    example_places example_places_LAD.
Proof.
  apply (IOU_pass_rows shire_lookup_df [] 3 box rect_intersects
           rect_intersection_area example_LAD).
  vm_compute. reflexivity.
Defined.

Lemma IOU_pass_keeps_rows_without_box_witness :
  ∃ m, example_places_LAD !! 0
       = Some ({| location := "Weston"; locality := "Westshire";
                  bbox0 := NaN; bbox1 := NaN; bbox2 := NaN; bbox3 := NaN |},
               m)
       ∧ match_r shire_lookup_df [] 3 "Westshire" = inr m.
Proof.
  apply (IOU_pass_keeps_rows_without_box shire_lookup_df [] 3 box
           rect_intersects rect_intersection_area example_LAD
           example_places example_places_LAD 0).
  - vm_compute. discriminate.
  - vm_compute. reflexivity.
  - reflexivity.
  - reflexivity.
Defined.

(** ** The home of a user, again *)

Lemma user_localization_result_witness :
  user_localization (twitter_LAD_count_df example_posts) 1 = "Bristol, City of"
  ↔ 1 < posts_of 1 example_posts
    ∧ 65 * posts_of 1 example_posts
      < 100 * occurrences (1%Z, "Bristol, City of") example_posts.
Proof.
  apply (user_localization_result example_posts 1 "Bristol, City of").
  discriminate.
Defined.

Lemma home_iff_dominant_locality_witness :
  home_of (user_home example_posts) 3 = Some "Dundee City"
  ↔ 1 < posts_of 3 example_posts
    ∧ 65 * posts_of 3 example_posts
      < 100 * occurrences (3%Z, "Dundee City") example_posts.
Proof.
  apply (home_iff_dominant_locality example_posts 3 "Dundee City").
  discriminate.
Defined.

(** ** Flows in both directions *)

Lemma migration_reversed_witness :
  flow_between "Bristol, City of" "Dundee City"
    (migration example_userhome 2019 6 2020 6)
  = flow_between "Dundee City" "Bristol, City of"
      (migration example_userhome 2020 6 2019 6).
Proof.
  apply (migration_reversed example_userhome 2019 6 2020 6); by_computation.
Defined.

Lemma migration_same_month_witness :
  migration example_userhome 2019 6 2019 6 = [].
Proof.
  apply (migration_same_month example_userhome 2019 6). by_computation.
Defined.

(** ** The located posts of a month *)

Example example_monthly_twitter_LAD :
  monthly_twitter_LAD example_place_LAD example_twitter_df
  = [ (1%Z, "Bristol, City of"); (1%Z, "Bristol, City of");
      (1%Z, "Dundee City"); (1%Z, "Bristol, City of");
      (2%Z, "Dundee City") ].
Proof. vm_compute. reflexivity. Qed.

Lemma monthly_twitter_LAD_posts_witness :
  posts_of 2 (monthly_twitter_LAD example_place_LAD example_twitter_df)
  ≤ occurrences 2%Z (fst <$> example_twitter_df).
Proof.
  apply (monthly_twitter_LAD_posts example_place_LAD example_twitter_df 2).
  by_computation.
Defined.

Lemma home_is_matched_place_witness :
  ∃ loc, (1%Z, loc) ∈ example_twitter_df
         ∧ (loc, Some "Bristol, City of", 1) ∈ example_place_LAD.
Proof.
  apply (home_is_matched_place example_place_LAD example_twitter_df 1
           "Bristol, City of").
  - vm_compute. reflexivity.
  - discriminate.
Defined.
